(** * RunIntegrationTests: a shallow embedding of Scripts/RunIntegrationTests.py

    The script runs an external geometry tool over a folder of model files,
    reads the JSON report of each run, extracts one volume per solid and
    compares the volumes with stored baselines under a fuzzy tolerance.

    The embedding keeps the data the script has:
    - Python [float] is IEEE 754 binary64, taken here as the executable
      specification [spec_float] of the standard library at precision 53
      and maximal exponent 1024 (round to nearest, ties to even);
    - Python [int] is unbounded, hence [Z]; [bool] is a subclass of [int];
    - Python [str] is a [string]: the bytes of its UTF-8 encoding, whose
      lexicographic order is the order of the code points that [sorted]
      uses;
    - a decoded JSON document is a tree [json]; a JSON object is an
      insertion-ordered association list, as [dict.items()] traverses it;
    - [Dict[SolidKey, float]] is a [gmap (string * Z) float];
    - a raised exception is the [Raise] case of [result]. *)

From Stdlib Require Import ZArith List Bool Lia SpecFloat.
From stdpp Require Import gmap strings sorting.

#[local] Set Warnings "-register-all".
Local Open Scope Z_scope.

(** ** Exceptions *)

Inductive exn : Type :=
| ValueError
| AttributeError
| OverflowError
| RuntimeError
| TimeoutExpired
| JSONDecodeError
| OSError
| UnicodeEncodeError.

Inductive result (A : Type) : Type :=
| Ok (a : A)
| Raise (e : exn).

Arguments Ok {A} a.
Arguments Raise {A} e.

#[global] Instance result_ret : MRet result := fun _ a => Ok a.

#[global] Instance result_bind : MBind result := fun _ _ f r =>
  match r with
  | Ok a => f a
  | Raise e => Raise e
  end.

Definition raises {A} (r : result A) : bool :=
  match r with
  | Ok _ => false
  | Raise _ => true
  end.

(** ** Python floats *)

Module PyFloat.

Definition prec : Z := 53.
Definition emax : Z := 1024.

Abbreviation float := spec_float.

Definition valid (x : float) : bool := valid_binary prec emax x.

Definition add (x y : float) : float := SFadd prec emax x y.
Definition sub (x y : float) : float := SFsub prec emax x y.
Definition mul (x y : float) : float := SFmul prec emax x y.
(** [x / y]: the call sites of the script never divide by zero
    ([/ 100.0], and [err / denom] under [denom > 0]), so Python's
    [ZeroDivisionError] is not part of the model. *)
Definition div (x y : float) : float := SFdiv prec emax x y.
Definition abs (x : float) : float := SFabs x.
Definition ltb (x y : float) : bool := SFltb x y.
Definition leb (x y : float) : bool := SFleb x y.
Definition eqb (x y : float) : bool := SFeqb x y.
Definition gtb (x y : float) : bool := SFltb y x.

Definition is_nan (x : float) : bool :=
  match x with
  | S754_nan => true
  | _ => false
  end.

(** [math.isfinite] *)
Definition isfinite (x : float) : bool :=
  match x with
  | S754_zero _ | S754_finite _ _ _ => true
  | _ => false
  end.

Definition zero : float := S754_zero false.
Definition one : float := S754_finite false 4503599627370496 (-52).
Definition hundred : float := S754_finite false 7036874417766400 (-46).
Definition inf : float := S754_infinity false.
Definition nan : float := S754_nan.

(** [float(n)] for a Python [int]: the nearest binary64, ties to even;
    [OverflowError] when that would not be finite. *)
Definition of_int (n : Z) : result float :=
  match binary_normalize prec emax n 0 false with
  | S754_infinity _ => Raise OverflowError
  | f => Ok f
  end.

(** The float a decimal literal [n / d] denotes, for [n] and [d] below
    [2^53]: both are exact and the quotient is rounded once. *)
Definition of_ratio (n d : Z) : float :=
  div (binary_normalize prec emax n 0 false)
      (binary_normalize prec emax d 0 false).

(** The builtin [max(a, b)]: [b] replaces [a] only when [b > a]. *)
Definition max (a b : float) : float := if gtb b a then b else a.

End PyFloat.

Import PyFloat.

(** ** Decoded JSON documents *)

Inductive json : Type :=
| JNull
| JBool (b : bool)
| JInt (n : Z)
| JFloat (f : float)
| JStr (s : string)
| JList (l : list json)
| JDict (kvs : list (string * json)).

(** [d.get(k)] on the items of a dict: the value, or Python's [None]. *)
Fixpoint dict_get (kvs : list (string * json)) (k : string) : option json :=
  match kvs with
  | [] => None
  | (k', v) :: rest => if String.eqb k' k then Some v else dict_get rest k
  end.

(** [d.get(k, dflt)] *)
Definition get_default (kvs : list (string * json)) (k : string) (dflt : json) : json :=
  default dflt (dict_get kvs k).

(** [d.get(k)] *)
Definition get (kvs : list (string * json)) (k : string) : json :=
  get_default kvs k JNull.

(** Truth value of an object, as [or] tests it. *)
Definition truthy (j : json) : bool :=
  match j with
  | JNull => false
  | JBool b => b
  | JInt n => negb (n =? 0)
  | JFloat f => negb (eqb f zero)
  | JStr s => negb (String.eqb s "")
  | JList l => negb (bool_decide (l = []))
  | JDict kvs => negb (bool_decide (kvs = []))
  end.

(** [a or b] *)
Definition py_or (a b : json) : json := if truthy a then a else b.

(** [isinstance(j, str)], with the string. *)
Definition as_str (j : json) : option string :=
  match j with
  | JStr s => Some s
  | _ => None
  end.

(** [isinstance(j, int)], with the integer: [bool] is a subclass of [int],
    [True] is [1] and [False] is [0], also as a dict key. *)
Definition as_int (j : json) : option Z :=
  match j with
  | JInt n => Some n
  | JBool b => Some (if b then 1 else 0)
  | _ => None
  end.

(** [isinstance(j, (int, float))] *)
Definition is_number (j : json) : bool :=
  match j with
  | JInt _ | JBool _ | JFloat _ => true
  | _ => false
  end.

(** [float(j)] where [is_number j] *)
Definition py_float (j : json) : result float :=
  match j with
  | JFloat f => Ok f
  | JInt n => of_int n
  | JBool b => Ok (if b then one else zero)
  | _ => Raise ValueError
  end.

(** ** The script's records *)

Definition SolidKey : Type := string * Z.

Record CompareConfig : Type := {
  match_pct : float;
  abs_tol_mm3 : float
}.

Inductive Reason : Type :=
| ok_reason
| volume_mismatch
| missing_in_baseline
| missing_in_new.

Record SolidDiff : Type := {
  key : SolidKey;
  baseline : option float;
  new : option float;
  rel_err : option float;
  ok : bool;
  reason : Reason
}.

(** ** required_rel_tol *)

Definition required_rel_tol (match_pct : float) : result float :=
  if negb (ltb zero match_pct && leb match_pct hundred)
  then Raise ValueError
  else Ok (sub one (div match_pct hundred)).

(** ** extract_volumes *)

(** The body of [for s in solids]. *)
Definition solid_step (obj_name : string) (s : json)
    (out : gmap SolidKey float) : result (gmap SolidKey float) :=
  match s with
  | JDict sd =>
      let object_name := py_or (get sd "object_name") (JStr obj_name) in
      let idx := get sd "index" in
      match get_default sd "metrics" (JDict []) with
      | JDict md =>
          let vol := get md "volume_mm3" in
          match as_str object_name, as_int idx, is_number vol with
          | Some name, Some i, true =>
              v ← py_float vol; Ok (<[(name, i) := v]> out)
          | _, _, _ => Ok out
          end
      | _ => Ok out
      end
  | _ => Ok out
  end.

Fixpoint solids_loop (obj_name : string) (solids : list json)
    (out : gmap SolidKey float) : result (gmap SolidKey float) :=
  match solids with
  | [] => Ok out
  | s :: rest => out' ← solid_step obj_name s out; solids_loop obj_name rest out'
  end.

(** The body of [for obj_name, obj_entry in objects.items()]. *)
Definition object_step (obj_name : string) (obj_entry : json)
    (out : gmap SolidKey float) : result (gmap SolidKey float) :=
  match obj_entry with
  | JDict od =>
      match get_default od "solids" (JList []) with
      | JList solids => solids_loop obj_name solids out
      | _ => Ok out
      end
  | _ => Ok out
  end.

Fixpoint objects_loop (items : list (string * json))
    (out : gmap SolidKey float) : result (gmap SolidKey float) :=
  match items with
  | [] => Ok out
  | (obj_name, obj_entry) :: rest =>
      out' ← object_step obj_name obj_entry out; objects_loop rest out'
  end.

(** [report.get] on a value that is not a dict is an attribute lookup
    that fails. *)
Definition extract_volumes (report : json) : result (gmap SolidKey float) :=
  match report with
  | JDict rd =>
      match get_default rd "objects" (JDict []) with
      | JDict objects => objects_loop objects ∅
      | _ => Ok ∅
      end
  | _ => Raise AttributeError
  end.

(** ** compare_maps *)

(** The order of [sorted(all_keys, key=lambda k: (k[0], k[1]))]: tuples
    compare by the name first, then by the index. *)
Definition key_cmp (k1 k2 : SolidKey) : comparison :=
  match String.compare k1.1 k2.1 with
  | Eq => Z.compare k1.2 k2.2
  | c => c
  end.

Definition key_le (k1 k2 : SolidKey) : Prop := key_cmp k1 k2 ≠ Gt.
Definition key_lt (k1 k2 : SolidKey) : Prop := key_cmp k1 k2 = Lt.

#[global] Instance key_le_dec : RelDecision key_le.
Proof. intros k1 k2. unfold key_le. solve_decision. Defined.

(** [sorted] on a set of keys.  The keys of a set are pairwise distinct
    and [key_le] is a total order, so the sorted list is unique
    ([sorted_unique] below) and the algorithm does not matter. *)
Definition sorted (keys : list SolidKey) : list SolidKey :=
  merge_sort key_le keys.

(** The body of [for key in sorted(all_keys, ...)]: the one [SolidDiff]
    it appends. *)
Definition compare_key (baseline new : gmap SolidKey float)
    (cfg : CompareConfig) (rel_tol : float) (key : SolidKey) : SolidDiff :=
  let b := baseline !! key in
  let n := new !! key in
  match b, n with
  | None, _ =>
      {| key := key; baseline := None; new := n; rel_err := None;
         ok := false; reason := missing_in_baseline |}
  | Some _, None =>
      {| key := key; baseline := b; new := None; rel_err := None;
         ok := false; reason := missing_in_new |}
  | Some b, Some n =>
      let denom := max (abs b) (abs n) in
      let tol := max (abs_tol_mm3 cfg) (mul rel_tol denom) in
      let err := abs (sub n b) in
      let ok := leb err tol in
      let rel_err :=
        if gtb denom zero then div err denom
        else if eqb err zero then zero else inf in
      {| key := key; baseline := Some b; new := Some n;
         rel_err := Some rel_err; ok := ok;
         reason := if ok then ok_reason else volume_mismatch |}
  end.

Fixpoint diffs_loop (baseline new : gmap SolidKey float)
    (cfg : CompareConfig) (rel_tol : float) (keys : list SolidKey)
    (diffs : list SolidDiff) : list SolidDiff :=
  match keys with
  | [] => diffs
  | key :: rest =>
      diffs_loop baseline new cfg rel_tol rest
        (diffs ++ [compare_key baseline new cfg rel_tol key])
  end.

Definition compare_maps (baseline new : gmap SolidKey float)
    (cfg : CompareConfig) : result (list SolidDiff) :=
  rel_tol ← required_rel_tol (match_pct cfg);
  let all_keys : gset SolidKey := dom baseline ∪ dom new in
  Ok (diffs_loop baseline new cfg rel_tol (sorted (elements all_keys)) []).

(** ** main *)

(** What the file system, the external tool and the standard output
    answer for one discovered [.FCStd] file: whether
    [<baseline_dir>/<stem>.json] exists, what [run_freecad_script]
    returns or raises, what [load_json] returns or raises on the
    baseline, and what the [print] calls that write the report of the
    file to the standard output give: they all return, or one of them
    raises (a name or a key that the stream cannot encode, a closed
    pipe). *)
Record FileEnv : Type := {
  file_name : string;
  baseline_exists : bool;
  tool_run : result json;
  baseline_load : result json;
  stdout_report : result unit
}.

(** The world [main] runs in: whether the four paths of the command line
    exist, the files [find_fcstd_files] returns, in its order, and the
    flag [--verbose]. *)
Record Env : Type := {
  paths_exist : bool;
  fcstd_files : list FileEnv;
  verbose : bool
}.

(** What happens during a run, in order: the external tool is started
    for a file; a file is counted as a mismatch for its missing
    baseline, as a mismatch with its number of issues, as passed, or as
    an error with the exception caught. *)
Inductive event : Type :=
| EvToolRun (file : string)
| EvBaselineMissing (file : string)
| EvFail (file : string) (issues : nat)
| EvOk (file : string)
| EvError (file : string) (e : exn).

(** The counters of [main], with the events so far. *)
Record RunState : Type := {
  total_files : Z;
  ok_files : Z;
  mismatch_files : Z;
  error_files : Z;
  trace : list event
}.

Definition init_state : RunState :=
  {| total_files := 0; ok_files := 0; mismatch_files := 0; error_files := 0;
     trace := [] |}.

(** The [try] block up to [diffs], for one file. *)
Definition file_diffs (cfg : CompareConfig) (f : FileEnv) : result (list SolidDiff) :=
  new_report ← tool_run f;
  base_report ← baseline_load f;
  new_map ← extract_volumes new_report;
  base_map ← extract_volumes base_report;
  compare_maps base_map new_map cfg.

(** Incrementing one counter, with the events to record. *)
Definition count_mismatch (st : RunState) (evs : list event) : RunState :=
  {| total_files := total_files st; ok_files := ok_files st;
     mismatch_files := mismatch_files st + 1;
     error_files := error_files st; trace := trace st ++ evs |}.

Definition count_ok (st : RunState) (evs : list event) : RunState :=
  {| total_files := total_files st; ok_files := ok_files st + 1;
     mismatch_files := mismatch_files st;
     error_files := error_files st; trace := trace st ++ evs |}.

Definition count_error (st : RunState) (evs : list event) : RunState :=
  {| total_files := total_files st; ok_files := ok_files st;
     mismatch_files := mismatch_files st;
     error_files := error_files st + 1; trace := trace st ++ evs |}.

Definition count_total (st : RunState) (evs : list event) : RunState :=
  {| total_files := total_files st + 1; ok_files := ok_files st;
     mismatch_files := mismatch_files st;
     error_files := error_files st; trace := trace st ++ evs |}.

(** The exception of a call that returns nothing. *)
Definition raised (r : result unit) : option exn :=
  match r with
  | Ok _ => None
  | Raise e => Some e
  end.

(** The [try] block for one file: the counters and events it leaves,
    and the exception when it raises.  What was counted before an
    exception stays counted.  A file with a failing outcome is counted in
    [mismatch_files] and then has its report printed; a file that passed
    is counted in [ok_files] and then has one line printed under
    [--verbose] only. *)
Definition try_block (verbose : bool) (cfg : CompareConfig) (f : FileEnv)
    (st : RunState) : RunState * option exn :=
  match file_diffs cfg f with
  | Raise e => (st, Some e)
  | Ok diffs =>
      let bad := filter (fun d => ok d = false) diffs in
      match bad with
      | _ :: _ =>
          (count_mismatch st [EvFail (file_name f) (length bad)],
           raised (stdout_report f))
      | [] =>
          (count_ok st [EvOk (file_name f)],
           if verbose then raised (stdout_report f) else None)
      end
  end.

(** The body of [for fcstd_path in fcstd_files]: both [except] clauses
    count the file in [error_files], whatever was counted before. *)
Definition file_step (verbose : bool) (cfg : CompareConfig)
    (st : RunState) (f : FileEnv) : RunState :=
  if negb (baseline_exists f) then
    count_mismatch (count_total st []) [EvBaselineMissing (file_name f)]
  else
    match try_block verbose cfg f
            (count_total st [EvToolRun (file_name f)]) with
    | (st', None) => st'
    | (st', Some e) => count_error st' [EvError (file_name f) e]
    end.

Definition files_loop (verbose : bool) (cfg : CompareConfig)
    (files : list FileEnv) : RunState :=
  foldl (file_step verbose cfg) init_state files.

(** The last three statements of [main]. *)
Definition exit_code (st : RunState) : Z :=
  if 0 <? error_files st then 3
  else if 0 <? mismatch_files st then 2
  else 0.

(** How the process ends: [main] returns a status, or an exception
    leaves it. *)
Inductive ending : Type :=
| Exit (code : Z)
| Uncaught (e : exn).

(** [main], after the command line is parsed into [cfg]: the events of
    the run and its ending.  The summary formats
    [required_rel_tol(cfg.match_pct)] outside of any [try].  Writing to
    the standard error, which escapes what it cannot encode, and writing
    the summary are taken to succeed. *)
Definition main (env : Env) (cfg : CompareConfig) : list event * ending :=
  if negb (paths_exist env) then ([], Exit 3)
  else
    match fcstd_files env with
    | [] => ([], Exit 3)
    | files =>
        let st := files_loop (verbose env) cfg files in
        match required_rel_tol (match_pct cfg) with
        | Raise e => (trace st, Uncaught e)
        | Ok _ => (trace st, Exit (exit_code st))
        end
    end.

(** ** The traversal of a report *)

(** The list [solids] that [object_step] iterates for one object entry;
    empty where the entry is skipped. *)
Definition solids_of (obj_entry : json) : list json :=
  match obj_entry with
  | JDict od =>
      match get_default od "solids" (JList []) with
      | JList solids => solids
      | _ => []
      end
  | _ => []
  end.

(** Every solid that [extract_volumes] visits, paired with the key of
    its enclosing object, in the order of the two nested loops. *)
Definition traversal (report : json) : list (string * json) :=
  match report with
  | JDict rd =>
      match get_default rd "objects" (JDict []) with
      | JDict objects =>
          flat_map (fun item => pair item.1 <$> solids_of item.2) objects
      | _ => []
      end
  | _ => []
  end.

(** What one visited solid normalizes to: the composite key it is stored
    under and the value found for its volume, or nothing when the solid
    is skipped. *)
Definition solid_entry (obj_name : string) (s : json) : option (SolidKey * json) :=
  match s with
  | JDict sd =>
      match get_default sd "metrics" (JDict []) with
      | JDict md =>
          let vol := get md "volume_mm3" in
          match as_str (py_or (get sd "object_name") (JStr obj_name)),
                as_int (get sd "index") with
          | Some name, Some i =>
              if is_number vol then Some ((name, i), vol) else None
          | _, _ => None
          end
      | _ => None
      end
  | _ => None
  end.

(** Whether a visited solid is stored under the key [k]. *)
Definition stored_under (k : SolidKey) (e : string * json) : bool :=
  match solid_entry e.1 e.2 with
  | Some (k', _) => bool_decide (k' = k)
  | None => false
  end.

(** The two nested loops as one loop over the traversal. *)
Fixpoint entries_loop (entries : list (string * json))
    (out : gmap SolidKey float) : result (gmap SolidKey float) :=
  match entries with
  | [] => Ok out
  | (obj_name, s) :: rest =>
      out' ← solid_step obj_name s out; entries_loop rest out'
  end.

(** No volume that the traversal stores is an integer beyond the range
    of [float]. *)
Definition volumes_convertible (report : json) : bool :=
  forallb (fun e => match solid_entry e.1 e.2 with
                    | Some (_, vol) => negb (raises (py_float vol))
                    | None => true
                    end)
          (traversal report).

(** A report with one object [obj_name] holding the given solids. *)
Definition report_of (obj_name : string) (solids : list json) : json :=
  JDict [("objects", JDict [(obj_name, JDict [("solids", JList solids)])])].

(** A solid as the metrics script writes it. *)
Definition solid (object_name index vol : json) : json :=
  JDict [("object_name", object_name); ("index", index);
         ("metrics", JDict [("volume_mm3", vol)])].

(** ** How one file ends *)

(** The report of the file is printed and a [print] raises: the
    comparison ran, and an outcome fails or [--verbose] is set. *)
Definition report_raises (verbose : bool) (cfg : CompareConfig)
    (f : FileEnv) : bool :=
  baseline_exists f &&
  match file_diffs cfg f with
  | Ok diffs =>
      (existsb (fun d => negb (ok d)) diffs || verbose)
      && raises (stdout_report f)
  | Raise _ => false
  end.

(** The [try] block of the file raised, before the comparison was done
    or while the report was printed: the file is counted in
    [error_files]. *)
Definition ends_in_error (verbose : bool) (cfg : CompareConfig)
    (f : FileEnv) : bool :=
  baseline_exists f && raises (file_diffs cfg f)
  || report_raises verbose cfg f.

(** The comparison ran and some outcome is not [ok]. *)
Definition has_failing_outcome (cfg : CompareConfig) (f : FileEnv) : bool :=
  baseline_exists f &&
  match file_diffs cfg f with
  | Ok diffs => existsb (fun d => negb (ok d)) diffs
  | Raise _ => false
  end.

Definition baseline_missing (f : FileEnv) : bool := negb (baseline_exists f).

(** ** Rounding to nearest, ties to even

    A reference for what [binary_round_aux] computes, in integers: the
    lemmas below show that the division and the subtraction of
    [required_rel_tol] round the exact quotient and the exact difference
    as defined here. *)

(** Where a remainder [r] of a division by [d] lies between two
    consecutive quotients. *)
Definition loc_of_rem (r d : Z) : location :=
  if r =? 0 then loc_Exact else loc_Inexact (2 * r ?= d).

(** The quotient [N / D] with the place of the exact value past it. *)
Definition located (N D : Z) : shr_record :=
  shr_record_of_loc (N / D) (loc_of_rem (N mod D) D).

Section RoundingDefs.

Variables prec emax : Z.

(** The end of [binary_round_aux]: renormalise after the rounding carried
    into a new bit, then name zero, the finite floats and infinity. *)
Definition finish (sx : bool) (m e : Z) : spec_float :=
  let '(mrs, e') := shr_fexp prec emax m e loc_Exact in
  match shr_m mrs with
  | Z0 => S754_zero sx
  | Zpos m' =>
      if e' <=? emax - prec then S754_finite sx m' e' else S754_infinity sx
  | Zneg _ => S754_nan
  end.

(** Rounding a non-negative rational [A / B], counted in units of
    [2 ^ emin]: the exponent above [emin], the rounded mantissa, the float
    and its value in units of [2 ^ emin]. *)
Definition jexp (A B : Z) : Z := Z.max (Zdigits2 (A / B) - prec) 0.

Definition rmant (A B : Z) : Z :=
  let D := B * 2 ^ jexp A B in
  round_nearest_even (A / D) (loc_of_rem (A mod D) D).

Definition rnd (sx : bool) (A B : Z) : spec_float :=
  finish sx (rmant A B) (SpecFloat.emin prec emax + jexp A B).

Definition rval (A B : Z) : Z := rmant A B * 2 ^ jexp A B.

(** The value of a non-negative float in units of [2 ^ emin]. *)
Definition val (x : spec_float) : Z :=
  match x with
  | S754_finite _ m e => Z.pos m * 2 ^ (e - SpecFloat.emin prec emax)
  | _ => 0
  end.

(** Zero, or a positive finite float in canonical form. *)
Definition nonneg_canonical (x : spec_float) : Prop :=
  match x with
  | S754_zero _ => True
  | S754_finite false m e => canonical_mantissa prec emax m e = true
  | _ => False
  end.

End RoundingDefs.

(** For binary64, in units of [2 ^ -1074]: the float [1.0], the value of
    a float, the value of [x / 100.0] and the value of
    [1.0 - x / 100.0] for a float [x] of value [X]. *)
Definition ONE : Z := 2 ^ 1074.
Definition units (x : float) : Z := val prec emax x.
Definition centi (X : Z) : Z := rval prec (X * 2 ^ 46) 7036874417766400.
Definition rel_tol_units (X : Z) : Z := rval prec (ONE - centi X) 1.

(** ** Concrete inputs *)

(** The defaults of the command line: [--match-pct 99.999] and
    [--abs-tol-mm3 1e-9]. *)
Definition default_cfg : CompareConfig :=
  {| match_pct := of_ratio 99999 1000; abs_tol_mm3 := of_ratio 1 1000000000 |}.

Definition volumes (l : list (SolidKey * float)) : gmap SolidKey float :=
  list_to_map l.

(** One model file whose baseline exists, with the report of the tool
    and the stored report. *)
Definition one_file (name : string) (new_report base_report : json) : FileEnv :=
  {| file_name := name; baseline_exists := true;
     tool_run := Ok new_report; baseline_load := Ok base_report;
     stdout_report := Ok () |}.

Definition body_report (vol : json) : json :=
  report_of "Body" [solid (JStr "Body") (JInt 0) vol].

(** [--abs-tol-mm3 nan] *)
Definition cfg_nan_tol : CompareConfig :=
  {| match_pct := of_ratio 99999 1000; abs_tol_mm3 := nan |}.

(** [--match-pct 150] *)
Definition cfg_150 : CompareConfig :=
  {| match_pct := of_ratio 150 1; abs_tol_mm3 := of_ratio 1 1000000000 |}.

(** ** Relations between two outcomes of a key *)

(** The reason with the two sides exchanged. *)
Definition swap_reason (r : Reason) : Reason :=
  match r with
  | missing_in_baseline => missing_in_new
  | missing_in_new => missing_in_baseline
  | r => r
  end.

(** The outcomes of one key in a comparison and in the comparison with
    baseline and new exchanged. *)
Definition swapped (d d' : SolidDiff) : Prop :=
  key d' = key d /\ baseline d' = new d /\ new d' = baseline d /\
  ok d' = ok d /\ reason d' = swap_reason (reason d).

(** Two outcomes of one key that differ at most in that the second
    passes where the first fails. *)
Definition at_least_as_ok (d d' : SolidDiff) : Prop :=
  key d' = key d /\ baseline d' = baseline d /\ new d' = new d /\
  rel_err d' = rel_err d /\ (ok d = true -> ok d' = true).

(** ** run_freecad_script *)

(** What the operating system answers during one call: how
    [subprocess.run] ends (the exit status of the child process, or an
    exception such as [TimeoutExpired]), what reading the output file
    gives, and what [json.loads] makes of a text.  Creating and removing
    the temporary directory are taken to succeed. *)
Record ToolEnv : Type := {
  subprocess_run : result Z;
  output_file : result string;
  json_loads : string -> result json
}.

Definition run_freecad_script (w : ToolEnv) : result json :=
  returncode ← subprocess_run w;
  if negb (returncode =? 0) then Raise RuntimeError
  else
    out ← output_file w;
    if String.eqb out "" then Raise RuntimeError
    else
      match json_loads w out with
      | Raise JSONDecodeError => Raise RuntimeError
      | r => r
      end.

(** ** The tallies of a run *)

(** The comparison ran and every outcome is [ok]. *)
Definition file_passes (cfg : CompareConfig) (f : FileEnv) : bool :=
  baseline_exists f &&
  match file_diffs cfg f with
  | Ok diffs => forallb ok diffs
  | Raise _ => false
  end.

(** How many files of a list satisfy a test. *)
Definition count_files (p : FileEnv -> bool) (files : list FileEnv) : Z :=
  Z.of_nat (length (List.filter p files)).

(** The files the external tool was run for, in order. *)
Definition tool_runs (evs : list event) : list string :=
  omap (fun ev => match ev with EvToolRun file => Some file | _ => None end)
       evs.

(** * Properties *)

(** ** The order on keys *)

Section KeyOrder.

Lemma string_compare_refl (s : string) : String.compare s s = Eq.
Proof.
  induction s as [|c s IH]; simpl; [done|].
  unfold Ascii.compare. by rewrite N.compare_refl.
Qed.

Lemma string_compare_lt_trans (s1 s2 s3 : string) :
  String.compare s1 s2 = Lt → String.compare s2 s3 = Lt →
  String.compare s1 s3 = Lt.
Proof.
  revert s2 s3.
  induction s1 as [|c1 s1 IH]; intros [|c2 s2] [|c3 s3]; simpl; try done.
  unfold Ascii.compare.
  set (n1 := Ascii.N_of_ascii c1). set (n2 := Ascii.N_of_ascii c2).
  set (n3 := Ascii.N_of_ascii c3).
  destruct (N.compare_spec n1 n2) as [E12|L12|G12];
    destruct (N.compare_spec n2 n3) as [E23|L23|G23];
    try done; intros H12 H23.
  - replace (n1 ?= n3)%N with Eq
      by (symmetry; apply N.compare_eq_iff; congruence).
    eauto.
  - replace (n1 ?= n3)%N with Lt
      by (symmetry; apply N.compare_lt_iff; lia).
    done.
  - replace (n1 ?= n3)%N with Lt
      by (symmetry; apply N.compare_lt_iff; lia).
    done.
  - replace (n1 ?= n3)%N with Lt
      by (symmetry; apply N.compare_lt_iff; lia).
    done.
Qed.

Lemma key_cmp_refl (k : SolidKey) : key_cmp k k = Eq.
Proof. unfold key_cmp. by rewrite string_compare_refl, Z.compare_refl. Qed.

Lemma key_cmp_eq (k1 k2 : SolidKey) : key_cmp k1 k2 = Eq → k1 = k2.
Proof.
  destruct k1 as [s1 i1], k2 as [s2 i2]. unfold key_cmp. simpl.
  destruct (String.compare s1 s2) eqn:E; try done.
  intros H. apply String.compare_eq_iff in E. apply Z.compare_eq in H.
  congruence.
Qed.

Lemma key_cmp_antisym (k1 k2 : SolidKey) :
  key_cmp k1 k2 = CompOpp (key_cmp k2 k1).
Proof.
  unfold key_cmp. rewrite String.compare_antisym.
  destruct (String.compare k2.1 k1.1); simpl; try done.
  apply Z.compare_antisym.
Qed.

Lemma key_lt_trans (k1 k2 k3 : SolidKey) :
  key_lt k1 k2 → key_lt k2 k3 → key_lt k1 k3.
Proof.
  destruct k1 as [s1 i1], k2 as [s2 i2], k3 as [s3 i3].
  unfold key_lt, key_cmp. simpl.
  destruct (String.compare s1 s2) eqn:E12; try done;
    destruct (String.compare s2 s3) eqn:E23; try done; intros H12 H23.
  - apply String.compare_eq_iff in E12, E23. subst.
    rewrite string_compare_refl. apply Z.compare_lt_iff.
    change (i1 < i2) in H12. change (i2 < i3) in H23. lia.
  - apply String.compare_eq_iff in E12. subst. by rewrite E23.
  - apply String.compare_eq_iff in E23. subst. by rewrite E12.
  - by rewrite (string_compare_lt_trans _ _ _ E12 E23).
Qed.

Lemma key_le_lt_or_eq (k1 k2 : SolidKey) :
  key_le k1 k2 ↔ key_lt k1 k2 ∨ k1 = k2.
Proof.
  unfold key_le, key_lt. split.
  - destruct (key_cmp k1 k2) eqn:E; try done; eauto using key_cmp_eq.
  - intros [->| ->]; [done|]. by rewrite key_cmp_refl.
Qed.

#[global] Instance key_le_total : Total key_le.
Proof.
  intros k1 k2. unfold key_le. rewrite (key_cmp_antisym k2 k1).
  destruct (key_cmp k1 k2); simpl; auto.
Qed.

#[global] Instance key_le_trans : Transitive key_le.
Proof.
  intros k1 k2 k3. rewrite !key_le_lt_or_eq.
  intros [H12| ->] [H23| ->]; eauto using key_lt_trans.
Qed.

#[global] Instance key_le_antisym : AntiSymm (=) key_le.
Proof.
  intros k1 k2. rewrite !key_le_lt_or_eq. intros [H12|?] [H21|?]; try done.
  pose proof (key_lt_trans _ _ _ H12 H21) as H. unfold key_lt in H.
  by rewrite key_cmp_refl in H.
Qed.

Lemma sorted_perm (keys : list SolidKey) : sorted keys ≡ₚ keys.
Proof. apply merge_sort_Permutation. Qed.

Lemma sorted_le (keys : list SolidKey) : StronglySorted key_le (sorted keys).
Proof. apply (StronglySorted_merge_sort key_le). Qed.

(** What [sorted] returns does not depend on the sorting algorithm. *)
Lemma sorted_unique (keys l : list SolidKey) :
  l ≡ₚ keys → StronglySorted key_le l → l = sorted keys.
Proof.
  intros Hp Hs. apply (StronglySorted_unique key_le); [done|apply sorted_le|].
  by rewrite sorted_perm.
Qed.

Lemma strongly_sorted_lt (l : list SolidKey) :
  NoDup l → StronglySorted key_le l → StronglySorted key_lt l.
Proof.
  induction 2 as [|k l Hs IH Hall]; [constructor|].
  apply NoDup_cons in H as [Hk Hl].
  constructor; [by apply IH|].
  rewrite Forall_forall in *. intros k' Hin.
  destruct (proj1 (key_le_lt_or_eq k k') (Hall k' Hin)) as [?| ->]; done.
Qed.

Lemma sorted_lt (X : gset SolidKey) :
  StronglySorted key_lt (sorted (elements X)).
Proof.
  apply strongly_sorted_lt; [|apply sorted_le].
  rewrite sorted_perm. apply NoDup_elements.
Qed.

Lemma elem_of_sorted (X : gset SolidKey) (k : SolidKey) :
  k ∈ sorted (elements X) ↔ k ∈ X.
Proof. by rewrite sorted_perm, elem_of_elements. Qed.

End KeyOrder.

(** ** compare_maps *)

Lemma required_rel_tol_in_range (m : float) :
  ltb zero m = true → leb m hundred = true →
  required_rel_tol m = Ok (sub one (div m hundred)).
Proof. intros H0 H100. unfold required_rel_tol. by rewrite H0, H100. Qed.

Lemma required_rel_tol_out_of_range (m : float) :
  ltb zero m = false ∨ leb m hundred = false →
  required_rel_tol m = Raise ValueError.
Proof.
  intros H. unfold required_rel_tol.
  destruct H as [-> | ->]; [done|]. by rewrite andb_false_r.
Qed.

Section CompareMaps.

Context (base_map new_map : gmap SolidKey float) (cfg : CompareConfig).

Lemma diffs_loop_fmap rel_tol (keys : list SolidKey) diffs :
  diffs_loop base_map new_map cfg rel_tol keys diffs
  = diffs ++ (compare_key base_map new_map cfg rel_tol <$> keys).
Proof.
  revert diffs. induction keys as [|k keys IH]; intros diffs.
  - simpl. by rewrite app_nil_r.
  - rewrite fmap_cons. simpl. by rewrite IH, <- app_assoc.
Qed.

Lemma compare_key_key rel_tol k :
  key (compare_key base_map new_map cfg rel_tol k) = k.
Proof.
  unfold compare_key.
  by destruct (base_map !! k), (new_map !! k).
Qed.

Lemma keys_of_diffs rel_tol (keys : list SolidKey) :
  key <$> (compare_key base_map new_map cfg rel_tol <$> keys) = keys.
Proof.
  induction keys as [|k keys IH]; [done|].
  rewrite !fmap_cons, compare_key_key. by f_equal.
Qed.

Lemma compare_maps_in_range :
  ltb zero (match_pct cfg) = true → leb (match_pct cfg) hundred = true →
  compare_maps base_map new_map cfg
  = Ok (compare_key base_map new_map cfg
          (sub one (div (match_pct cfg) hundred))
        <$> sorted (elements (dom base_map ∪ dom new_map))).
Proof.
  intros H0 H100. unfold compare_maps.
  rewrite required_rel_tol_in_range by done. simpl.
  by rewrite diffs_loop_fmap.
Qed.

(** Every key of the union has its outcome in the list, and no other
    element of the list carries that key. *)
Lemma compare_maps_outcome k :
  ltb zero (match_pct cfg) = true → leb (match_pct cfg) hundred = true →
  k ∈ dom base_map ∪ dom new_map →
  ∃ diffs, compare_maps base_map new_map cfg = Ok diffs ∧
    let d := compare_key base_map new_map cfg
               (sub one (div (match_pct cfg) hundred)) k in
    d ∈ diffs ∧ ∀ d', d' ∈ diffs → key d' = k → d' = d.
Proof.
  intros H0 H100 Hk. eexists. split; [by apply compare_maps_in_range|].
  simpl. split.
  - apply list_elem_of_fmap. exists k. by rewrite elem_of_sorted.
  - intros d' Hd' Hkey. apply list_elem_of_fmap in Hd' as (k' & -> & _).
    rewrite compare_key_key in Hkey. by subst.
Qed.

End CompareMaps.

Lemma eqb_zero_not_gtb (x : float) : eqb x zero = true → gtb x zero = false.
Proof. by destruct x as [[]|[]| |[] ? ?]. Qed.

(** C1: for a key present in both maps the outcome carries
    [err = |n - b|], [denom = max(|b|, |n|)] and
    [threshold = max(abs_tol, rel_tol * denom)]: it passes exactly when
    [err <= threshold]; the relative error is [err / denom] when
    [denom > 0], and when [denom == 0] it is [0.0] if [err == 0] and
    infinity otherwise. *)
Theorem compare_maps_fuzzy_compare
    (base_map new_map : gmap SolidKey float) (cfg : CompareConfig)
    (k : SolidKey) (b n : float) :
  ltb zero (match_pct cfg) = true → leb (match_pct cfg) hundred = true →
  base_map !! k = Some b → new_map !! k = Some n →
  let relativeTolerance := sub one (div (match_pct cfg) hundred) in
  let err := abs (sub n b) in
  let denom := max (abs b) (abs n) in
  let threshold := max (abs_tol_mm3 cfg) (mul relativeTolerance denom) in
  ∃ diffs d, compare_maps base_map new_map cfg = Ok diffs ∧
    d ∈ diffs ∧ (∀ d', d' ∈ diffs → key d' = k → d' = d) ∧
    key d = k ∧ baseline d = Some b ∧ new d = Some n ∧
    ok d = leb err threshold ∧
    reason d = (if leb err threshold then ok_reason else volume_mismatch) ∧
    (gtb denom zero = true → rel_err d = Some (div err denom)) ∧
    (eqb denom zero = true →
     rel_err d = Some (if eqb err zero then zero else inf)).
Proof.
  intros H0 H100 Hb Hn. simpl.
  destruct (compare_maps_outcome base_map new_map cfg k H0 H100)
    as (diffs & Heq & Hin & Huniq).
  { apply elem_of_union_l, elem_of_dom. eauto. }
  exists diffs, (compare_key base_map new_map cfg
                   (sub one (div (match_pct cfg) hundred)) k).
  split; [done|]. split; [done|]. split; [done|].
  unfold compare_key. rewrite Hb, Hn. simpl.
  repeat split; try done.
  - by intros ->.
  - intros Hz. by rewrite (eqb_zero_not_gtb _ Hz).
Qed.

Lemma compare_maps_fuzzy_compare_witness :
  ltb zero (match_pct default_cfg) = true ∧
  leb (match_pct default_cfg) hundred = true ∧
  ∃ diffs d,
    compare_maps (volumes [(("A", 0), hundred)])
                 (volumes [(("A", 0), of_ratio 1005 10)]) default_cfg
    = Ok diffs ∧ d ∈ diffs ∧ ok d = false ∧ reason d = volume_mismatch.
Proof.
  split; [reflexivity|]. split; [reflexivity|].
  destruct (compare_maps_fuzzy_compare
              (volumes [(("A", 0), hundred)])
              (volumes [(("A", 0), of_ratio 1005 10)]) default_cfg
              ("A", 0) hundred (of_ratio 1005 10))
    as (diffs & d & Heq & Hin & _ & _ & _ & _ & Hok & Hreason & _);
    [reflexivity|reflexivity|reflexivity|reflexivity|].
  exists diffs, d. split; [exact Heq|]. split; [exact Hin|].
  split; [exact Hok|exact Hreason].
Defined.

(** C4: [compare_maps] returns exactly one outcome for every key of the
    union of the two key sets and for no other key, ordered by entity
    name and then by index. *)
Theorem compare_maps_union_sorted
    (base_map new_map : gmap SolidKey float) (cfg : CompareConfig) :
  ltb zero (match_pct cfg) = true → leb (match_pct cfg) hundred = true →
  ∃ diffs, compare_maps base_map new_map cfg = Ok diffs ∧
    (∀ k, k ∈ (key <$> diffs) ↔ k ∈ dom base_map ∪ dom new_map) ∧
    NoDup (key <$> diffs) ∧
    StronglySorted key_lt (key <$> diffs).
Proof.
  intros H0 H100. eexists. split; [by apply compare_maps_in_range|].
  rewrite keys_of_diffs. split; [|split].
  - intros k. apply elem_of_sorted.
  - rewrite sorted_perm. apply NoDup_elements.
  - apply sorted_lt.
Qed.

Lemma compare_maps_union_sorted_witness :
  ltb zero (match_pct default_cfg) = true ∧
  leb (match_pct default_cfg) hundred = true ∧
  ∃ diffs,
    compare_maps (volumes [(("B", 2), zero); (("A", 0), hundred)])
                 (volumes [(("B", 10), one)]) default_cfg = Ok diffs ∧
    (∀ k, k ∈ (key <$> diffs) ↔
          k ∈ dom (volumes [(("B", 2), zero); (("A", 0), hundred)])
              ∪ dom (volumes [(("B", 10), one)])) ∧
    NoDup (key <$> diffs) ∧
    StronglySorted key_lt (key <$> diffs).
Proof.
  split; [reflexivity|]. split; [reflexivity|].
  apply compare_maps_union_sorted; reflexivity.
Defined.

(** C6: a key present only in the baseline map yields [missing_in_new],
    failing, with no relative error; a key present only in the new map
    yields [missing_in_baseline], failing, with no relative error. *)
Theorem compare_maps_missing
    (base_map new_map : gmap SolidKey float) (cfg : CompareConfig)
    (k : SolidKey) :
  ltb zero (match_pct cfg) = true → leb (match_pct cfg) hundred = true →
  k ∈ dom base_map ∪ dom new_map →
  ∃ diffs d, compare_maps base_map new_map cfg = Ok diffs ∧
    d ∈ diffs ∧ (∀ d', d' ∈ diffs → key d' = k → d' = d) ∧
    key d = k ∧ baseline d = base_map !! k ∧ new d = new_map !! k ∧
    (new_map !! k = None →
     reason d = missing_in_new ∧ ok d = false ∧ rel_err d = None) ∧
    (base_map !! k = None →
     reason d = missing_in_baseline ∧ ok d = false ∧ rel_err d = None).
Proof.
  intros H0 H100 Hk.
  destruct (compare_maps_outcome base_map new_map cfg k H0 H100 Hk)
    as (diffs & Heq & Hin & Huniq).
  exists diffs, (compare_key base_map new_map cfg
                   (sub one (div (match_pct cfg) hundred)) k).
  split; [done|]. split; [done|]. split; [done|].
  apply elem_of_union in Hk. rewrite !elem_of_dom in Hk.
  unfold compare_key.
  destruct (base_map !! k) as [b|] eqn:Hb, (new_map !! k) as [n|] eqn:Hn;
    simpl; repeat split; try done.
  destruct Hk as [[? ?]|[? ?]]; done.
Qed.

Lemma compare_maps_missing_witness :
  ltb zero (match_pct default_cfg) = true ∧
  leb (match_pct default_cfg) hundred = true ∧
  ∃ diffs d,
    compare_maps (volumes []) (volumes [(("B", 1), of_ratio 5 1)]) default_cfg
    = Ok diffs ∧ d ∈ diffs ∧ key d = ("B", 1) ∧
    reason d = missing_in_baseline ∧ ok d = false ∧ rel_err d = None.
Proof.
  split; [reflexivity|]. split; [reflexivity|].
  destruct (compare_maps_missing
              (volumes []) (volumes [(("B", 1), of_ratio 5 1)]) default_cfg
              ("B", 1))
    as (diffs & d & Heq & Hin & _ & Hkey & _ & _ & _ & Hmiss);
    [reflexivity|reflexivity|by vm_compute|].
  exists diffs, d. split; [exact Heq|]. split; [exact Hin|].
  split; [exact Hkey|]. apply Hmiss. reflexivity.
Defined.

(** ** extract_volumes *)

Section ExtractVolumes.

Implicit Types (out : gmap SolidKey float) (s : json) (obj_name : string).

Lemma solid_step_entry obj_name s out :
  solid_step obj_name s out
  = match solid_entry obj_name s with
    | Some (k, vol) => v ← py_float vol; Ok (<[k := v]> out)
    | None => Ok out
    end.
Proof.
  unfold solid_step, solid_entry.
  destruct s as [| | | | | |sd]; try done.
  destruct (get_default sd "metrics" (JDict [])) as [| | | | | |md]; try done.
  destruct (as_str _) as [name|]; [|done].
  destruct (as_int _) as [i|]; [|done].
  by destruct (is_number _).
Qed.

Lemma entries_loop_app (l1 l2 : list (string * json)) out :
  entries_loop (l1 ++ l2) out
  = (out' ← entries_loop l1 out; entries_loop l2 out').
Proof.
  revert out. induction l1 as [|[name s] l1 IH]; intros out; simpl; [done|].
  destruct (solid_step name s out) as [out'|e]; simpl; [apply IH|done].
Qed.

Lemma solids_loop_entries obj_name (solids : list json) out :
  solids_loop obj_name solids out
  = entries_loop (pair obj_name <$> solids) out.
Proof.
  revert out. induction solids as [|s solids IH]; intros out; [done|].
  rewrite fmap_cons. simpl.
  destruct (solid_step obj_name s out) as [out'|e]; simpl; [apply IH|done].
Qed.

Lemma object_step_entries obj_name (obj_entry : json) out :
  object_step obj_name obj_entry out
  = entries_loop (pair obj_name <$> solids_of obj_entry) out.
Proof.
  unfold object_step, solids_of.
  destruct obj_entry as [| | | | | |od]; try done.
  destruct (get_default od "solids" (JList [])); try done.
  apply solids_loop_entries.
Qed.

Lemma objects_loop_entries (objects : list (string * json)) out :
  objects_loop objects out
  = entries_loop
      (flat_map (fun item => pair item.1 <$> solids_of item.2) objects) out.
Proof.
  revert out.
  induction objects as [|[name entry] objects IH]; intros out; [done|].
  simpl. rewrite entries_loop_app, object_step_entries.
  destruct (entries_loop _ out) as [out'|e]; simpl; [apply IH|done].
Qed.

(** On a dict, [extract_volumes] is the loop over the traversal. *)
Lemma extract_volumes_entries (rd : list (string * json)) :
  extract_volumes (JDict rd) = entries_loop (traversal (JDict rd)) ∅.
Proof.
  unfold extract_volumes, traversal.
  destruct (get_default rd "objects" (JDict [])); try done.
  apply objects_loop_entries.
Qed.

Lemma entries_loop_convertible (entries : list (string * json)) out :
  forallb (fun e => match solid_entry e.1 e.2 with
                    | Some (_, vol) => negb (raises (py_float vol))
                    | None => true
                    end) entries = true →
  ∃ m, entries_loop entries out = Ok m.
Proof.
  revert out.
  induction entries as [|[name s] entries IH]; intros out; simpl; [eauto|].
  intros [Hs Hrest]%andb_true_iff. rewrite solid_step_entry.
  destruct (solid_entry name s) as [[k vol]|]; simpl; [|by apply IH].
  destruct (py_float vol) as [v|e]; simpl; [by apply IH|done].
Qed.

(** A key that no entry of the list is stored under keeps its value. *)
Lemma entries_loop_other (entries : list (string * json)) out m k :
  entries_loop entries out = Ok m →
  (∀ name s vol, (name, s) ∈ entries → solid_entry name s ≠ Some (k, vol)) →
  m !! k = out !! k.
Proof.
  revert out.
  induction entries as [|[name s] entries IH]; intros out; simpl.
  - by intros [= ->].
  - rewrite solid_step_entry. intros Hloop Hno.
    assert (∀ name' s' vol, (name', s') ∈ entries →
              solid_entry name' s' ≠ Some (k, vol)) as Hno'.
    { intros ??? Hin. apply Hno. by right. }
    destruct (solid_entry name s) as [[k' vol]|] eqn:Hentry; simpl in Hloop.
    + destruct (py_float vol) as [v|e]; simpl in Hloop; [|done].
      rewrite (IH _ Hloop Hno'). apply lookup_insert_ne.
      intros ->. by apply (Hno name s vol); [left|].
    + by apply IH.
Qed.

(** The value of a key is the one its last entry stores. *)
Lemma entries_loop_last (pre post : list (string * json))
    out m obj_name s k vol :
  entries_loop (pre ++ (obj_name, s) :: post) out = Ok m →
  solid_entry obj_name s = Some (k, vol) →
  (∀ name' s' vol', (name', s') ∈ post →
     solid_entry name' s' ≠ Some (k, vol')) →
  ∃ v, py_float vol = Ok v ∧ m !! k = Some v.
Proof.
  rewrite entries_loop_app.
  destruct (entries_loop pre out) as [out1|e]; simpl; [|done].
  rewrite solid_step_entry. intros Hloop Hentry Hno. rewrite Hentry in Hloop.
  simpl in Hloop. destruct (py_float vol) as [v|e]; simpl in Hloop; [|done].
  exists v. split; [done|].
  rewrite (entries_loop_other _ _ _ _ Hloop Hno). apply lookup_insert_eq.
Qed.

End ExtractVolumes.

(** C3, as the code has it: on a report that is a dict,
    [extract_volumes] returns a map whatever the shape of the nested
    levels, as long as no volume it stores is an integer beyond the
    range of [float]; on a report that is not a dict it raises
    [AttributeError]. *)
Theorem extract_volumes_succeeds (report : json) :
  volumes_convertible report = true →
  match report with
  | JDict _ => ∃ m, extract_volumes report = Ok m
  | _ => extract_volumes report = Raise AttributeError
  end.
Proof.
  intros Hconv. destruct report as [| | | | | |rd]; try done.
  rewrite extract_volumes_entries. by apply entries_loop_convertible.
Qed.

Lemma extract_volumes_succeeds_witness :
  let report :=
    JDict [("objects",
            JDict [("a", JList []);
                   ("b", JDict [("solids", JStr "none")]);
                   ("c", JDict [("solids",
                                 JList [JInt 3;
                                        JDict [("metrics", JInt 1)];
                                        solid (JStr "c") (JStr "0") (JInt 1);
                                        solid JNull (JInt 0) (JFloat hundred)])])])] in
  volumes_convertible report = true ∧ ∃ m, extract_volumes report = Ok m.
Proof.
  intros report. split; [reflexivity|].
  exact (extract_volumes_succeeds report eq_refl).
Defined.

(** C3 as stated fails: a report whose top level is a list makes
    [extract_volumes] raise instead of returning an empty map. *)
Lemma extract_volumes_raises_on_list :
  extract_volumes (JList []) = Raise AttributeError ∧
  extract_volumes (JList []) ≠ Ok ∅.
Proof. split; [reflexivity|discriminate]. Qed.

(** An integer volume of 401 digits: [float(vol)] overflows and the
    exception leaves [extract_volumes]. *)
Lemma extract_volumes_raises_on_huge_int :
  extract_volumes (report_of "Body" [solid (JStr "Body") (JInt 0) (JInt (10 ^ 400))])
  = Raise OverflowError.
Proof. vm_compute. reflexivity. Qed.

(** C9: when two solids normalize to the same key, the map holds the
    value of the one visited later (of the last one, when there are
    more). *)
Theorem extract_volumes_last_write_wins
    (report : json) (m : gmap SolidKey float)
    (pre mid post : list (string * json))
    (name1 name2 : string) (s1 s2 vol1 vol2 : json) (k : SolidKey) :
  extract_volumes report = Ok m →
  traversal report = pre ++ (name1, s1) :: mid ++ (name2, s2) :: post →
  solid_entry name1 s1 = Some (k, vol1) →
  solid_entry name2 s2 = Some (k, vol2) →
  forallb (fun e => negb (stored_under k e)) post = true →
  ∃ v2, py_float vol2 = Ok v2 ∧ m !! k = Some v2.
Proof.
  intros Hm Htrav _ H2 Hpost.
  destruct report as [| | | | | |rd]; try done.
  rewrite extract_volumes_entries, Htrav in Hm.
  replace (pre ++ (name1, s1) :: mid ++ (name2, s2) :: post)
    with ((pre ++ (name1, s1) :: mid) ++ (name2, s2) :: post) in Hm
    by (by rewrite <- app_assoc).
  refine (entries_loop_last _ _ _ _ _ _ _ _ Hm H2 _).
  intros name' s' vol' Hin Hentry.
  rewrite forallb_forall in Hpost.
  specialize (Hpost (name', s') (proj1 (list_elem_of_In _ _) Hin)).
  unfold stored_under in Hpost. simpl in Hpost. rewrite Hentry in Hpost.
  by rewrite bool_decide_eq_true_2 in Hpost.
Qed.

Lemma extract_volumes_last_write_wins_witness :
  let s1 := solid (JStr "Body") (JInt 0) (JFloat one) in
  let s2 := solid JNull (JBool false) (JInt 100) in
  let report := report_of "Body" [s1; s2] in
  extract_volumes report = Ok {[ ("Body", 0) := hundred ]} ∧
  traversal report = [] ++ ("Body", s1) :: [] ++ ("Body", s2) :: [] ∧
  solid_entry "Body" s1 = Some (("Body", 0), JFloat one) ∧
  solid_entry "Body" s2 = Some (("Body", 0), JInt 100) ∧
  forallb (fun e => negb (stored_under ("Body", 0) e)) [] = true ∧
  ∃ v2, py_float (JInt 100) = Ok v2 ∧
        ({[ ("Body", 0) := hundred ]} : gmap SolidKey float) !! ("Body", 0) = Some v2.
Proof.
  repeat (split; [reflexivity|]).
  exact (extract_volumes_last_write_wins
           (report_of "Body" [solid (JStr "Body") (JInt 0) (JFloat one);
                              solid JNull (JBool false) (JInt 100)])
           {[ ("Body", 0) := hundred ]} [] [] [] "Body" "Body" _ _ _ _ _
           eq_refl eq_refl eq_refl eq_refl eq_refl).
Defined.

Lemma truthy_false_iff (x : json) :
  truthy x = false ↔
  x = JNull ∨ x = JBool false ∨ x = JInt 0 ∨
  (∃ sg, x = JFloat (S754_zero sg)) ∨ x = JStr "" ∨ x = JList [] ∨ x = JDict [].
Proof.
  split.
  - destruct x as [|[]|n|f|s|l|kvs]; simpl; try done; eauto 10.
    + intros ->%negb_false_iff%Z.eqb_eq. eauto 10.
    + destruct f as [sg|[]| |[] ? ?]; try done. eauto 10.
    + destruct s; [eauto 10|done].
    + destruct l; [eauto 10|done].
    + destruct kvs; [eauto 10|done].
  - intros [->|[->|[->|[[sg ->]|[->|[->| ->]]]]]]; done.
Qed.

(** C10: a solid that has a dict of metrics, an integer index and a
    numeric volume is stored under the key of the enclosing object
    exactly when its [object_name] is absent or falsy ([None] and the
    empty string are falsy); when [object_name] is a non-empty string it
    is stored under that name; when [object_name] is truthy and not a
    string the solid is dropped. *)
Theorem object_name_fallback
    (obj_name : string) (sd md : list (string * json))
    (i : Z) (v : float) (out : gmap SolidKey float) :
  get_default sd "metrics" (JDict []) = JDict md →
  as_int (get sd "index") = Some i →
  is_number (get md "volume_mm3") = true →
  py_float (get md "volume_mm3") = Ok v →
  let object_name := get sd "object_name" in
  (dict_get sd "object_name" = None → object_name = JNull) ∧
  truthy JNull = false ∧ truthy (JStr "") = false ∧
  (truthy object_name = false →
   solid_step obj_name (JDict sd) out = Ok (<[(obj_name, i) := v]> out)) ∧
  (∀ name, truthy object_name = true → object_name = JStr name →
   solid_step obj_name (JDict sd) out = Ok (<[(name, i) := v]> out)) ∧
  (truthy object_name = true → as_str object_name = None →
   solid_step obj_name (JDict sd) out = Ok out).
Proof.
  intros Hmetrics Hidx Hnum Hvol. simpl.
  split; [|split; [done|split; [done|]]].
  { unfold get, get_default. by intros ->. }
  unfold solid_step, py_or. rewrite Hmetrics, Hidx, Hnum, Hvol.
  split; [|split].
  - by intros ->.
  - by intros name -> ->.
  - by intros -> ->.
Qed.

Lemma object_name_fallback_witness :
  let sd := [("object_name", JInt 7); ("index", JInt 2);
             ("metrics", JDict [("volume_mm3", JFloat hundred)])] in
  get_default sd "metrics" (JDict []) = JDict [("volume_mm3", JFloat hundred)] ∧
  as_int (get sd "index") = Some 2 ∧
  is_number (JFloat hundred) = true ∧
  py_float (JFloat hundred) = Ok hundred ∧
  truthy (get sd "object_name") = true ∧
  as_str (get sd "object_name") = None ∧
  solid_step "Body" (JDict sd) ∅ = Ok ∅.
Proof.
  repeat (split; [reflexivity|]).
  apply (object_name_fallback "Body"
           [("object_name", JInt 7); ("index", JInt 2);
            ("metrics", JDict [("volume_mm3", JFloat hundred)])]
           [("volume_mm3", JFloat hundred)] 2 hundred ∅);
    reflexivity.
Defined.

(** The falsy values are more than [None] and the empty string: a solid
    whose [object_name] is the number [0] is stored under the key of the
    enclosing object. *)
Lemma object_name_zero_falls_back :
  solid_step "Body" (solid (JInt 0) (JInt 2) (JFloat hundred)) ∅
  = Ok {[ ("Body", 2) := hundred ]}.
Proof. reflexivity. Qed.

(** ** main *)

Section FilesLoop.

Context (verbose : bool) (cfg : CompareConfig).

Lemma filter_bad_nil (diffs : list SolidDiff) :
  filter (λ d, ok d = false) diffs = [] ↔
  existsb (λ d, negb (ok d)) diffs = false.
Proof.
  induction diffs as [|d diffs IH]; [done|].
  simpl existsb. destruct (ok d) eqn:Hok; simpl.
  - rewrite filter_cons_False by congruence. apply IH.
  - rewrite filter_cons_True by done. done.
Qed.

Lemma existsb_bad (diffs : list SolidDiff) :
  existsb (λ d, negb (ok d)) diffs
  = match filter (λ d, ok d = false) diffs with
    | [] => false
    | _ :: _ => true
    end.
Proof.
  destruct (filter _ diffs) as [|d bad] eqn:Hbad.
  - by apply filter_bad_nil.
  - destruct (existsb _ diffs) eqn:Hex; [done|].
    apply filter_bad_nil in Hex. congruence.
Qed.

Lemma file_step_total_files st f :
  total_files (file_step verbose cfg st f) = total_files st + 1.
Proof.
  unfold file_step, try_block.
  destruct (baseline_exists f); simpl; [|done].
  destruct (file_diffs cfg f) as [diffs|e]; simpl; [|done].
  destruct (filter _ diffs); simpl.
  - destruct verbose; [|done]. by destruct (stdout_report f).
  - by destruct (stdout_report f).
Qed.

Lemma file_step_error_files st f :
  error_files (file_step verbose cfg st f)
  = error_files st + (if ends_in_error verbose cfg f then 1 else 0).
Proof.
  unfold file_step, try_block, ends_in_error, report_raises.
  destruct (baseline_exists f); simpl; [|lia].
  destruct (file_diffs cfg f) as [diffs|e]; simpl; [|done].
  rewrite existsb_bad.
  destruct (filter _ diffs); simpl.
  - destruct verbose; simpl; [|lia]. destruct (stdout_report f); simpl; lia.
  - destruct (stdout_report f); simpl; lia.
Qed.

Lemma file_step_mismatch_files st f :
  mismatch_files (file_step verbose cfg st f)
  = mismatch_files st
    + (if has_failing_outcome cfg f || baseline_missing f then 1 else 0).
Proof.
  unfold file_step, try_block, has_failing_outcome, baseline_missing.
  destruct (baseline_exists f); simpl; [|done].
  destruct (file_diffs cfg f) as [diffs|e]; simpl; [|lia].
  rewrite orb_false_r, existsb_bad.
  destruct (filter _ diffs); simpl.
  - destruct verbose; simpl; [|lia]. destruct (stdout_report f); simpl; lia.
  - destruct (stdout_report f); simpl; lia.
Qed.

(** What a file adds to the events does not depend on the state. *)
Lemma file_step_trace_shift st f :
  trace (file_step verbose cfg st f)
  = trace st ++ trace (file_step verbose cfg init_state f).
Proof.
  unfold file_step, try_block.
  destruct (baseline_exists f); simpl; [|by rewrite app_nil_r].
  destruct (file_diffs cfg f) as [diffs|e]; simpl;
    [|by rewrite <- app_assoc].
  destruct (filter _ diffs); simpl.
  - destruct verbose; simpl; [|by rewrite <- app_assoc].
    destruct (stdout_report f); simpl; by rewrite <- !app_assoc.
  - destruct (stdout_report f); simpl; by rewrite <- !app_assoc.
Qed.

Lemma file_step_trace st f :
  ∃ evs, trace (file_step verbose cfg st f) = trace st ++ evs ∧
    (baseline_exists f = true → EvToolRun (file_name f) ∈ evs) ∧
    (∀ e, baseline_exists f = true → file_diffs cfg f = Raise e →
          EvError (file_name f) e ∈ evs).
Proof.
  exists (trace (file_step verbose cfg init_state f)).
  split; [apply file_step_trace_shift|].
  unfold file_step, try_block.
  destruct (baseline_exists f); simpl; [|done].
  destruct (file_diffs cfg f) as [diffs|e]; simpl.
  - split; [|done]. intros _.
    destruct (filter _ diffs); simpl.
    + destruct verbose; simpl; [|by left].
      destruct (stdout_report f); simpl; by left.
    + destruct (stdout_report f); simpl; by left.
  - split; [by left|]. intros e' _ [= ->]. right. by left.
Qed.

Lemma loop_error_files (files : list FileEnv) st :
  0 ≤ error_files st →
  0 ≤ error_files (foldl (file_step verbose cfg) st files) ∧
  (0 <? error_files (foldl (file_step verbose cfg) st files))
  = (0 <? error_files st) || existsb (ends_in_error verbose cfg) files.
Proof.
  revert st. induction files as [|f files IH]; intros st Hst; simpl.
  - by rewrite orb_false_r.
  - destruct (IH (file_step verbose cfg st f)) as [Hnn ->].
    { rewrite file_step_error_files.
      destruct (ends_in_error verbose cfg f); lia. }
    split; [done|]. rewrite file_step_error_files, orb_assoc. f_equal.
    destruct (ends_in_error verbose cfg f).
    + rewrite orb_true_r. apply Z.ltb_lt. lia.
    + by rewrite orb_false_r, Z.add_0_r.
Qed.

Lemma loop_mismatch_files (files : list FileEnv) st :
  0 ≤ mismatch_files st →
  0 ≤ mismatch_files (foldl (file_step verbose cfg) st files) ∧
  (0 <? mismatch_files (foldl (file_step verbose cfg) st files))
  = (0 <? mismatch_files st)
    || existsb (λ f, has_failing_outcome cfg f || baseline_missing f) files.
Proof.
  revert st. induction files as [|f files IH]; intros st Hst; simpl.
  - by rewrite orb_false_r.
  - destruct (IH (file_step verbose cfg st f)) as [Hnn ->].
    { rewrite file_step_mismatch_files. destruct (_ || _); lia. }
    split; [done|]. rewrite file_step_mismatch_files, orb_assoc. f_equal.
    destruct (_ || _).
    + rewrite orb_true_r. apply Z.ltb_lt. lia.
    + by rewrite orb_false_r, Z.add_0_r.
Qed.

(** Events are only ever appended. *)
Lemma loop_trace_prefix (files : list FileEnv) st :
  ∃ evs, trace (foldl (file_step verbose cfg) st files) = trace st ++ evs.
Proof.
  revert st. induction files as [|f files IH]; intros st; simpl.
  - exists []. by rewrite app_nil_r.
  - destruct (IH (file_step verbose cfg st f)) as [evs ->].
    destruct (file_step_trace st f) as (evs' & -> & _).
    exists (evs' ++ evs). by rewrite app_assoc.
Qed.

Lemma loop_trace_file (files : list FileEnv) st f :
  f ∈ files → baseline_exists f = true →
  EvToolRun (file_name f) ∈ trace (foldl (file_step verbose cfg) st files) ∧
  (∀ e, file_diffs cfg f = Raise e →
        EvError (file_name f) e
        ∈ trace (foldl (file_step verbose cfg) st files)).
Proof.
  revert st. induction files as [|f' files IH]; intros st Hin Hb.
  - by apply elem_of_nil in Hin.
  - simpl. apply elem_of_cons in Hin as [<-|Hin]; [|by apply IH].
    destruct (loop_trace_prefix files (file_step verbose cfg st f))
      as [evs ->].
    destruct (file_step_trace st f) as (evs' & -> & Hrun & Herr).
    rewrite <- app_assoc. setoid_rewrite elem_of_app. setoid_rewrite elem_of_app.
    split; [auto|]. intros e He. specialize (Herr e Hb He). auto.
Qed.

End FilesLoop.

(** C8: the exit status is 3 when some file ended in an execution
    error, else 2 when some file has a failing outcome or no baseline,
    else 0; a file without baseline adds to the mismatches and not to the
    errors.  A file ends in an execution error when its [try] block
    raises, be it before the comparison is done or while its report is
    printed. *)
Theorem exit_status_priority (env : Env) (cfg : CompareConfig) :
  paths_exist env = true → fcstd_files env ≠ [] →
  ltb zero (match_pct cfg) = true → leb (match_pct cfg) hundred = true →
  (main env cfg).2
  = Exit (if existsb (ends_in_error (verbose env) cfg) (fcstd_files env)
          then 3
          else if existsb (λ f, has_failing_outcome cfg f || baseline_missing f)
                          (fcstd_files env) then 2
          else 0) ∧
  ∀ vb st f, baseline_exists f = false →
    mismatch_files (file_step vb cfg st f) = mismatch_files st + 1 ∧
    error_files (file_step vb cfg st f) = error_files st ∧
    ends_in_error vb cfg f = false.
Proof.
  intros Hpaths Hfiles H0 H100. split.
  - unfold main. rewrite Hpaths. simpl.
    destruct (fcstd_files env) as [|f files] eqn:Hf; [done|].
    rewrite required_rel_tol_in_range by done. simpl.
    unfold exit_code, files_loop.
    destruct (loop_error_files (verbose env) cfg (f :: files) init_state)
      as [_ ->]; [done|].
    destruct (loop_mismatch_files (verbose env) cfg (f :: files) init_state)
      as [_ ->]; [done|].
    done.
  - intros vb st f Hb.
    rewrite file_step_error_files, file_step_mismatch_files.
    unfold ends_in_error, report_raises, baseline_missing. rewrite Hb. simpl.
    rewrite orb_true_r. split; [done|]. split; [lia|done].
Qed.

Lemma exit_status_priority_witness :
  let a := one_file "a.FCStd" (body_report (JInt 100))
                              (body_report (JFloat hundred)) in
  let b := {| file_name := "b.FCStd"; baseline_exists := false;
              tool_run := Raise RuntimeError; baseline_load := Raise OSError;
              stdout_report := Ok () |} in
  let c := {| file_name := "c.FCStd"; baseline_exists := true;
              tool_run := Ok (body_report (JInt 100));
              baseline_load := Ok (body_report (JInt 100));
              stdout_report := Raise UnicodeEncodeError |} in
  let quiet := {| paths_exist := true; fcstd_files := [a; b; c];
                  verbose := false |} in
  let loud := {| paths_exist := true; fcstd_files := [a; b; c];
                 verbose := true |} in
  paths_exist quiet = true ∧ fcstd_files quiet ≠ [] ∧
  ltb zero (match_pct default_cfg) = true ∧
  leb (match_pct default_cfg) hundred = true ∧
  (main quiet default_cfg).2 = Exit 2 ∧
  (main loud default_cfg).2 = Exit 3.
Proof.
  intros a b c quiet loud.
  split; [reflexivity|]. split; [discriminate|].
  split; [reflexivity|]. split; [reflexivity|].
  split.
  - apply (exit_status_priority quiet default_cfg);
      [reflexivity|discriminate|reflexivity|reflexivity].
  - apply (exit_status_priority loud default_cfg);
      [reflexivity|discriminate|reflexivity|reflexivity].
Defined.

(** C5: nothing rejects a match percentage outside (0, 100] before the
    files are processed.  With [--match-pct 150] and one model file
    whose baseline exists, the external tool is run for the file, the
    [ValueError] that [compare_maps] raises is caught and counted as an
    error of that file, and the [ValueError] of the summary line then
    leaves [main]: the run ends with none of the exit statuses 0, 2
    and 3. *)
Theorem invalid_match_pct_not_rejected_eagerly :
  required_rel_tol (match_pct cfg_150) = Raise ValueError ∧
  main {| paths_exist := true;
          fcstd_files := [one_file "a.FCStd" (body_report (JInt 100))
                                             (body_report (JInt 100))];
          verbose := false |}
       cfg_150
  = ([EvToolRun "a.FCStd"; EvError "a.FCStd" ValueError],
     Uncaught ValueError).
Proof. split; reflexivity. Qed.

(** The same for every run: with a match percentage outside (0, 100],
    for every file whose baseline exists the external tool is run and
    the file is counted as an error; when the tool run, the baseline
    load and both extractions succeed, the exception caught is the
    [ValueError] of [compare_maps]. *)
Lemma invalid_match_pct_every_file
    (vb : bool) (cfg : CompareConfig) (files : list FileEnv) (f : FileEnv) :
  ltb zero (match_pct cfg) && leb (match_pct cfg) hundred = false →
  f ∈ files → baseline_exists f = true →
  let st := files_loop vb cfg files in
  EvToolRun (file_name f) ∈ trace st ∧
  (∃ e, EvError (file_name f) e ∈ trace st) ∧
  0 < error_files st ∧
  (∀ new_report base_report new_map base_map,
     tool_run f = Ok new_report → baseline_load f = Ok base_report →
     extract_volumes new_report = Ok new_map →
     extract_volumes base_report = Ok base_map →
     EvError (file_name f) ValueError ∈ trace st).
Proof.
  intros Hbad Hin Hb. simpl. unfold files_loop.
  assert (∀ base_map new_map,
            compare_maps base_map new_map cfg = Raise ValueError) as Hcmp.
  { intros. unfold compare_maps, required_rel_tol. by rewrite Hbad. }
  assert (∃ e, file_diffs cfg f = Raise e) as [e He].
  { unfold file_diffs.
    destruct (tool_run f) as [nr|e]; simpl; [|eauto].
    destruct (baseline_load f) as [br|e]; simpl; [|eauto].
    destruct (extract_volumes nr) as [nm|e]; simpl; [|eauto].
    destruct (extract_volumes br) as [bm|e]; simpl; [|eauto].
    rewrite Hcmp. eauto. }
  destruct (loop_trace_file vb cfg files init_state f Hin Hb) as [Hrun Herr].
  split; [done|]. split; [eauto|]. split.
  - destruct (loop_error_files vb cfg files init_state) as [_ Hpos]; [done|].
    apply Z.ltb_lt. rewrite Hpos. simpl.
    apply existsb_exists. exists f. split; [by apply list_elem_of_In|].
    unfold ends_in_error. by rewrite Hb, He.
  - intros nr br nm bm Hnr Hbr Hnm Hbm. apply Herr.
    unfold file_diffs. rewrite Hnr, Hbr. simpl. rewrite Hnm, Hbm. simpl.
    apply Hcmp.
Qed.

(** ** Rounding *)

Lemma digits2_pos_size (p : positive) : digits2_pos p = Pos.size p.
Proof. induction p; simpl; congruence. Qed.

Lemma Zdigits2_log2 (z : Z) : 0 < z -> Zdigits2 z = Z.log2 z + 1.
Proof.
  destruct z as [|p|p]; try lia. intros _. simpl.
  rewrite digits2_pos_size. destruct p; simpl; lia.
Qed.

Lemma Zdigits2_nonneg (z : Z) : 0 <= Zdigits2 z.
Proof. destruct z; simpl; lia. Qed.

Lemma Zdigits2_bounds (z : Z) :
  0 < z -> 2 ^ (Zdigits2 z - 1) <= z < 2 ^ Zdigits2 z.
Proof.
  intros Hz. rewrite Zdigits2_log2 by done.
  replace (Z.log2 z + 1 - 1) with (Z.log2 z) by lia.
  pose proof (Z.log2_spec z Hz). unfold Z.succ in *. lia.
Qed.

Lemma Zdigits2_unique (z d : Z) :
  2 ^ (d - 1) <= z < 2 ^ d -> 0 < d -> Zdigits2 z = d.
Proof.
  intros Hz Hd.
  assert (0 < z) by (pose proof (Z.pow_pos_nonneg 2 (d - 1)); lia).
  rewrite Zdigits2_log2 by done.
  rewrite (Z.log2_unique z (d - 1)); [lia|lia|].
  replace (Z.succ (d - 1)) with d by lia. done.
Qed.

Lemma Zdigits2_lt_pow (z d : Z) : 0 <= z -> 0 <= d -> z < 2 ^ d -> Zdigits2 z <= d.
Proof.
  intros Hz Hd Hlt.
  destruct (Z.eq_dec z 0) as [->|Hnz]; [simpl; lia|].
  destruct (Z.le_gt_cases (Zdigits2 z) d) as [|Hgt]; [done|].
  pose proof (Zdigits2_bounds z ltac:(lia)) as [Hlo _].
  assert (2 ^ d <= 2 ^ (Zdigits2 z - 1)) by (apply Z.pow_le_mono_r; lia).
  lia.
Qed.

Lemma Zdigits2_ge_pow (z d : Z) : 0 <= d -> 2 ^ d <= z -> d < Zdigits2 z.
Proof.
  intros Hd Hle.
  assert (0 < z) by (pose proof (Z.pow_pos_nonneg 2 d); lia).
  pose proof (Zdigits2_bounds z ltac:(lia)) as [_ Hhi].
  destruct (Z.lt_ge_cases d (Zdigits2 z)) as [|Hge]; [done|].
  assert (2 ^ Zdigits2 z <= 2 ^ d)
    by (apply Z.pow_le_mono_r; [lia|done]).
  lia.
Qed.

Lemma Zdigits2_le_mono (a b : Z) : 0 <= a <= b -> Zdigits2 a <= Zdigits2 b.
Proof.
  intros [Ha Hab].
  destruct (Z.eq_dec a 0) as [->|Hnz]; [apply Zdigits2_nonneg|].
  rewrite !Zdigits2_log2 by lia.
  pose proof (Z.log2_le_mono a b Hab). lia.
Qed.

(** digits of a scaled floor *)
Lemma Zdigits2_mul_pow2 (z k : Z) :
  0 < z -> 0 <= k -> Zdigits2 (z * 2 ^ k) = Zdigits2 z + k.
Proof.
  intros Hz Hk.
  pose proof (Zdigits2_bounds z Hz) as [Hlo Hhi].
  pose proof (Zdigits2_nonneg z).
  assert (0 < Zdigits2 z).
  { destruct z; simpl in *; lia. }
  apply Zdigits2_unique; [|lia].
  replace (Zdigits2 z + k - 1) with (Zdigits2 z - 1 + k) by lia.
  rewrite !Z.pow_add_r by lia.
  pose proof (Z.pow_pos_nonneg 2 k). nia.
Qed.

Lemma shr_m_of_loc (m : Z) (l : location) : shr_m (shr_record_of_loc m l) = m.
Proof. by destruct l as [|[]]. Qed.

Lemma loc_of_shr_record_of_loc (m : Z) (l : location) :
  loc_of_shr_record (shr_record_of_loc m l) = l.
Proof. by destruct l as [|[]]. Qed.

Lemma shr_1_nonneg (m : Z) (r s : bool) :
  0 <= m ->
  shr_1 {| shr_m := m; shr_r := r; shr_s := s |}
  = {| shr_m := m / 2; shr_r := Z.odd m; shr_s := r || s |}.
Proof.
  intros Hm. rewrite <- Z.div2_div.
  destruct m as [|[p|p|]|p]; done.
Qed.

Lemma located_shr_1 (N D : Z) :
  0 <= N -> 0 < D -> shr_1 (located N D) = located N (D * 2).
Proof.
  intros HN HD. unfold located.
  assert (0 <= N / D) as Hm by (apply Z.div_pos; lia).
  pose proof (Z.mod_pos_bound N D HD) as Hr.
  rewrite <- (Z.div_div N D 2) by lia.
  rewrite (Z.rem_mul_r N D 2) by lia.
  rewrite (Zmod_odd (N / D)).
  set (m := N / D) in *. set (r := N mod D) in *.
  destruct (Z.odd m) eqn:Hodd.
  - replace (r + D * 1) with (r + D) by lia.
    unfold loc_of_rem. destruct (Z.eqb_spec (r + D) 0); [lia|].
    destruct (Z.eqb_spec r 0) as [Hr0|Hr0].
    + replace (2 * (r + D) ?= D * 2) with Eq
        by (symmetry; apply Z.compare_eq_iff; lia).
      simpl shr_record_of_loc. rewrite shr_1_nonneg by done. by rewrite Hodd.
    + replace (2 * (r + D) ?= D * 2) with Gt
        by (symmetry; apply Z.compare_gt_iff; lia).
      destruct (2 * r ?= D); simpl shr_record_of_loc;
        rewrite shr_1_nonneg by done; by rewrite Hodd.
  - replace (r + D * 0) with r by lia.
    unfold loc_of_rem. destruct (Z.eqb_spec r 0) as [Hr0|Hr0].
    + simpl shr_record_of_loc. rewrite shr_1_nonneg by done. by rewrite Hodd.
    + replace (2 * r ?= D * 2) with Lt
        by (symmetry; apply Z.compare_lt_iff; lia).
      destruct (2 * r ?= D); simpl shr_record_of_loc;
        rewrite shr_1_nonneg by done; by rewrite Hodd.
Qed.

Lemma located_iter (p : positive) (N D : Z) :
  0 <= N -> 0 < D ->
  SpecFloat.iter_pos shr_1 p (located N D) = located N (D * 2 ^ Z.pos p).
Proof.
  intros HN. revert D.
  induction p as [p IH|p IH|]; intros D HD; simpl SpecFloat.iter_pos.
  - rewrite located_shr_1, IH, IH by first [done|pose proof (Z.pow_pos_nonneg 2 (Z.pos p)); nia].
    f_equal. replace (Z.pos p~1) with (Z.pos p + Z.pos p + 1) by lia.
    rewrite !Z.pow_add_r by lia. ring.
  - rewrite IH, IH by first [done|pose proof (Z.pow_pos_nonneg 2 (Z.pos p)); nia].
    f_equal. replace (Z.pos p~0) with (Z.pos p + Z.pos p) by lia.
    rewrite !Z.pow_add_r by lia. ring.
  - by rewrite located_shr_1.
Qed.

Lemma shr_located (N D e n : Z) :
  0 <= N -> 0 < D -> 0 <= n ->
  shr (located N D) e n = (located N (D * 2 ^ n), e + n).
Proof.
  intros HN HD Hn. destruct n as [|p|p]; [| |lia].
  - simpl. by rewrite Z.mul_1_r, Z.add_0_r.
  - simpl shr. by rewrite located_iter.
Qed.

(** scaling numerator and denominator *)
Lemma loc_of_rem_scale (r d c : Z) :
  0 < c -> loc_of_rem (r * c) (d * c) = loc_of_rem r d.
Proof.
  intros Hc. unfold loc_of_rem.
  destruct (Z.eqb_spec r 0) as [->|Hr].
  - done.
  - destruct (Z.eqb_spec (r * c) 0); [nia|].
    f_equal. destruct (Z.compare_spec (2 * r) d).
    + apply Z.compare_eq_iff. nia.
    + apply Z.compare_lt_iff. nia.
    + apply Z.compare_gt_iff. nia.
Qed.

Lemma located_scale (N D c : Z) :
  0 < c -> D <> 0 -> located (N * c) (D * c) = located N D.
Proof.
  intros Hc HD. unfold located.
  rewrite Z.div_mul_cancel_r by lia.
  rewrite Z.mul_mod_distr_r by lia.
  by rewrite loc_of_rem_scale.
Qed.

Section Rounding.

Variables prec emax : Z.
Hypothesis Hprec : 0 < prec.

Local Abbreviation emin := (SpecFloat.emin prec emax).
Local Abbreviation fexp := (SpecFloat.fexp prec emax).
Local Abbreviation finish := (finish prec emax).
Local Abbreviation jexp := (jexp prec).
Local Abbreviation rmant := (rmant prec).
Local Abbreviation rnd := (rnd prec emax).
Local Abbreviation rval := (rval prec).
Local Abbreviation val := (val prec emax).
Local Abbreviation nonneg_canonical := (nonneg_canonical prec emax).

Lemma binary_round_aux_located (sx : bool) (N D e : Z) :
  0 <= N -> 0 < D ->
  let n := fexp (Zdigits2 (N / D) + e) - e in
  0 <= n ->
  binary_round_aux prec emax sx (N / D) e (loc_of_rem (N mod D) D)
  = finish sx (round_nearest_even (N / (D * 2 ^ n))
                 (loc_of_rem (N mod (D * 2 ^ n)) (D * 2 ^ n)))
           (e + n).
Proof.
  intros HN HD n Hn. unfold binary_round_aux, shr_fexp at 1.
  fold (located N D). fold n. rewrite shr_located by done.
  unfold located. by rewrite shr_m_of_loc, loc_of_shr_record_of_loc.
Qed.

Lemma fexp_ge_emin (e : Z) : emin <= fexp e.
Proof. unfold SpecFloat.fexp. lia. Qed.

Lemma floor_scaled_bounds (N D k : Z) :
  0 <= N -> 0 < D -> 0 <= k ->
  N / D * 2 ^ k <= N * 2 ^ k / D < (N / D + 1) * 2 ^ k.
Proof.
  intros HN HD Hk.
  pose proof (Z.pow_pos_nonneg 2 k ltac:(lia) Hk) as Hp.
  pose proof (Z.div_mod N D ltac:(lia)) as Hdm.
  pose proof (Z.mod_pos_bound N D HD) as Hr.
  split.
  - apply Z.div_le_lower_bound; [done|]. nia.
  - apply Z.div_lt_upper_bound; [done|]. nia.
Qed.

Lemma Zdigits2_floor_scaled (N D k : Z) :
  0 <= N -> 0 < D -> 0 <= k -> 0 < N / D ->
  Zdigits2 (N * 2 ^ k / D) = Zdigits2 (N / D) + k.
Proof.
  intros HN HD Hk Hm.
  pose proof (floor_scaled_bounds N D k HN HD Hk) as [Hlo Hhi].
  pose proof (Zdigits2_bounds (N / D) Hm) as [Hdlo Hdhi].
  pose proof (Z.pow_pos_nonneg 2 k ltac:(lia) Hk) as Hp.
  assert (0 < Zdigits2 (N / D)).
  { destruct (N / D); simpl in *; lia. }
  apply Zdigits2_unique; [|lia].
  replace (Zdigits2 (N / D) + k - 1) with (Zdigits2 (N / D) - 1 + k) by lia.
  rewrite !Z.pow_add_r by lia. nia.
Qed.

(** [binary_round_aux] on a located quotient whose exponent is not above
    the canonical one rounds the value it locates. *)
Lemma binary_round_aux_rnd (sx : bool) (N D e : Z) :
  0 <= N -> 0 < D -> emin <= e ->
  e <= fexp (Zdigits2 (N / D) + e) ->
  binary_round_aux prec emax sx (N / D) e (loc_of_rem (N mod D) D)
  = rnd sx (N * 2 ^ (e - emin)) D.
Proof.
  intros HN HD He Hpre.
  rewrite binary_round_aux_located by first [done|lia].
  set (n := fexp (Zdigits2 (N / D) + e) - e).
  set (k := e - emin).
  assert (0 <= n) as Hn by (unfold n; lia).
  assert (0 <= k) as Hk by (unfold k; lia).
  assert (jexp (N * 2 ^ k) D = n + k) as Hj.
  { unfold jexp. destruct (Z.eq_dec (N / D) 0) as [Hm0|Hm0].
    - rewrite Hm0 in Hpre. unfold n. rewrite Hm0.
      simpl Zdigits2 in *. rewrite Z.add_0_l in *.
      assert (e = emin) as Hee by (unfold SpecFloat.fexp in Hpre; lia).
      assert (k = 0) as -> by (unfold k; lia).
      rewrite Z.pow_0_r, Z.mul_1_r, Hm0. simpl Zdigits2.
      unfold SpecFloat.fexp. lia.
    - assert (0 < N / D) by (pose proof (Z.div_pos N D HN HD); lia).
      rewrite Zdigits2_floor_scaled by done.
      unfold n, k, SpecFloat.fexp. lia. }
  unfold rnd, rmant. rewrite Hj.
  pose proof (Z.pow_pos_nonneg 2 k ltac:(lia) Hk) as Hp.
  replace (D * 2 ^ (n + k)) with (D * 2 ^ n * 2 ^ k)
    by (rewrite Z.pow_add_r by lia; ring).
  rewrite Z.div_mul_cancel_r, Z.mul_mod_distr_r, loc_of_rem_scale
    by first [lia|pose proof (Z.pow_pos_nonneg 2 n ltac:(lia) Hn); nia].
  f_equal. unfold k. lia.
Qed.

Lemma rne_rem (m r D : Z) :
  0 <= r < D ->
  round_nearest_even m (loc_of_rem r D)
  = if 2 * r <? D then m
    else if 2 * r =? D then (if Z.even m then m else m + 1)
    else m + 1.
Proof.
  intros Hr. unfold loc_of_rem.
  destruct (Z.eqb_spec r 0) as [->|Hr0].
  - cbn [round_nearest_even]. destruct (Z.ltb_spec (2 * 0) D); [done|lia].
  - cbn [round_nearest_even]. destruct (Z.compare_spec (2 * r) D);
      destruct (Z.ltb_spec (2 * r) D); destruct (Z.eqb_spec (2 * r) D);
      first [done|lia].
Qed.

Lemma rne_bounds (m : Z) (l : location) :
  m <= round_nearest_even m l <= m + 1.
Proof.
  destruct l as [|[]]; cbn [round_nearest_even];
    [lia|destruct (Z.even m); lia|lia|lia].
Qed.

Lemma rne_rem_mono (m r1 r2 D : Z) :
  0 <= r1 <= r2 -> r2 < D ->
  round_nearest_even m (loc_of_rem r1 D)
  <= round_nearest_even m (loc_of_rem r2 D).
Proof.
  intros H1 H2. rewrite !rne_rem by lia.
  destruct (Z.ltb_spec (2 * r1) D); destruct (Z.ltb_spec (2 * r2) D);
    destruct (Z.eqb_spec (2 * r1) D); destruct (Z.eqb_spec (2 * r2) D);
    destruct (Z.even m); lia.
Qed.

Section Mantissa.

Context (A B : Z) (HA : 0 <= A) (HB : 0 < B).

Lemma jexp_nonneg : 0 <= jexp A B.
Proof. unfold jexp. lia. Qed.

Lemma floor_at_jexp : A / (B * 2 ^ jexp A B) = A / B / 2 ^ jexp A B.
Proof.
  pose proof jexp_nonneg.
  rewrite Z.div_div; [done|lia|]. by apply Z.pow_pos_nonneg.
Qed.

Lemma floor_lt_pow : A / (B * 2 ^ jexp A B) < 2 ^ prec.
Proof.
  pose proof jexp_nonneg as Hj. rewrite floor_at_jexp.
  pose proof (Z.pow_pos_nonneg 2 (jexp A B) ltac:(lia) Hj).
  pose proof (Z.pow_pos_nonneg 2 prec ltac:(lia) ltac:(lia)).
  assert (0 <= A / B) as HM by (apply Z.div_pos; lia).
  apply Z.div_lt_upper_bound; [done|].
  destruct (Z.eq_dec (A / B) 0) as [->|HM0]; [nia|].
  pose proof (Zdigits2_bounds (A / B) ltac:(lia)) as [_ Hhi].
  rewrite <- Z.pow_add_r by lia.
  eapply Z.lt_le_trans; [exact Hhi|].
  apply Z.pow_le_mono_r; [lia|]. unfold jexp. lia.
Qed.

Lemma floor_ge_pow : 0 < jexp A B -> 2 ^ (prec - 1) <= A / (B * 2 ^ jexp A B).
Proof.
  intros Hj. rewrite floor_at_jexp.
  pose proof (Z.pow_pos_nonneg 2 (jexp A B) ltac:(lia) ltac:(lia)).
  assert (0 <= A / B) as HM by (apply Z.div_pos; lia).
  assert (A / B <> 0) as HM0.
  { intros HM0. unfold jexp in Hj. rewrite HM0 in Hj. simpl in Hj. lia. }
  pose proof (Zdigits2_bounds (A / B) ltac:(lia)) as [Hlo _].
  apply Z.div_le_lower_bound; [done|].
  rewrite <- Z.pow_add_r by lia.
  eapply Z.le_trans; [|exact Hlo].
  apply Z.pow_le_mono_r; [lia|]. unfold jexp in *. lia.
Qed.

Lemma rmant_bounds :
  A / (B * 2 ^ jexp A B) <= rmant A B <= 2 ^ prec /\ 0 <= rmant A B.
Proof.
  pose proof floor_lt_pow. pose proof jexp_nonneg as Hj.
  pose proof (Z.pow_pos_nonneg 2 (jexp A B) ltac:(lia) Hj).
  assert (0 <= A / (B * 2 ^ jexp A B)) by (apply Z.div_pos; nia).
  unfold rmant.
  pose proof (rne_bounds (A / (B * 2 ^ jexp A B))
                (loc_of_rem (A mod (B * 2 ^ jexp A B)) (B * 2 ^ jexp A B))).
  lia.
Qed.

End Mantissa.

Lemma jexp_mono (A1 A2 B : Z) :
  0 <= A1 <= A2 -> 0 < B -> jexp A1 B <= jexp A2 B.
Proof.
  intros HA HB. unfold jexp.
  assert (Zdigits2 (A1 / B) <= Zdigits2 (A2 / B)).
  { apply Zdigits2_le_mono. split; [apply Z.div_pos; lia|].
    apply Z.div_le_mono; lia. }
  lia.
Qed.

(** Rounding is monotone. *)
Lemma rval_mono (A1 A2 B : Z) :
  0 <= A1 <= A2 -> 0 < B -> rval A1 B <= rval A2 B.
Proof.
  intros HA HB.
  pose proof (jexp_mono A1 A2 B HA HB) as Hj.
  pose proof (jexp_nonneg A1 B) as Hj1.
  pose proof (rmant_bounds A1 B ltac:(lia) HB) as [[Hlo1 Hhi1] Hnn1].
  pose proof (rmant_bounds A2 B ltac:(lia) HB) as [[Hlo2 Hhi2] Hnn2].
  unfold rval.
  destruct (Z.eq_dec (jexp A1 B) (jexp A2 B)) as [Heq|Hne].
  - rewrite <- Heq.
    apply Z.mul_le_mono_nonneg_r; [apply Z.pow_nonneg; lia|].
    unfold rmant. rewrite <- Heq.
    set (D := B * 2 ^ jexp A1 B).
    assert (0 < D) as HD.
    { pose proof (Z.pow_pos_nonneg 2 (jexp A1 B) ltac:(lia) Hj1). unfold D. nia. }
    pose proof (Z.div_mod A1 D ltac:(lia)) as Hdm1.
    pose proof (Z.div_mod A2 D ltac:(lia)) as Hdm2.
    pose proof (Z.mod_pos_bound A1 D HD) as Hr1.
    pose proof (Z.mod_pos_bound A2 D HD) as Hr2.
    assert (A1 / D <= A2 / D) as Hm by (apply Z.div_le_mono; lia).
    destruct (Z.eq_dec (A1 / D) (A2 / D)) as [Hmeq|Hmne].
    + rewrite <- Hmeq. apply rne_rem_mono; [|lia]. split; [lia|].
      rewrite <- Hmeq in Hdm2. nia.
    + pose proof (rne_bounds (A1 / D) (loc_of_rem (A1 mod D) D)).
      pose proof (rne_bounds (A2 / D) (loc_of_rem (A2 mod D) D)).
      lia.
  - assert (0 < jexp A2 B) as Hj2 by lia.
    pose proof (floor_ge_pow A2 B ltac:(lia) HB Hj2) as Hge.
    apply Z.le_trans with (2 ^ prec * 2 ^ jexp A1 B).
    { apply Z.mul_le_mono_nonneg_r; [apply Z.pow_nonneg; lia|lia]. }
    apply Z.le_trans with (2 ^ (prec - 1) * 2 ^ jexp A2 B).
    { rewrite <- !Z.pow_add_r by lia. apply Z.pow_le_mono_r; lia. }
    apply Z.mul_le_mono_nonneg_r; [apply Z.pow_nonneg; lia|lia].
Qed.

Lemma finish_spec (sx : bool) (m e : Z) :
  0 <= m ->
  let n := Z.max (fexp (Zdigits2 m + e) - e) 0 in
  finish sx m e
  = match m / 2 ^ n with
    | Z0 => S754_zero sx
    | Zpos m' =>
        if e + n <=? emax - prec then S754_finite sx m' (e + n)
        else S754_infinity sx
    | Zneg _ => S754_nan
    end.
Proof.
  intros Hm n. unfold finish, shr_fexp.
  replace (shr_record_of_loc m loc_Exact) with (located m 1)
    by (unfold located; by rewrite Z.div_1_r, Z.mod_1_r).
  destruct (Z.le_gt_cases 0 (fexp (Zdigits2 m + e) - e)) as [Hn|Hn].
  - rewrite shr_located by first [done|lia].
    unfold located. rewrite shr_m_of_loc, Z.mul_1_l.
    by replace n with (fexp (Zdigits2 m + e) - e) by lia.
  - replace n with 0 by lia. rewrite Z.pow_0_r, Z.div_1_r, Z.add_0_r.
    destruct (fexp (Zdigits2 m + e) - e) as [|p|p] eqn:Hp; [lia|lia|].
    cbn [shr]. unfold located.
    by rewrite shr_m_of_loc, Z.div_1_r.
Qed.

Lemma canonical_mantissa_iff (m : positive) (e : Z) :
  canonical_mantissa prec emax m e = true
  <-> emin <= e /\ Zdigits2 (Z.pos m) <= prec
      /\ (emin < e -> Zdigits2 (Z.pos m) = prec).
Proof.
  unfold canonical_mantissa, SpecFloat.fexp. rewrite Z.eqb_eq.
  change (Z.pos (digits2_pos m)) with (Zdigits2 (Z.pos m)). lia.
Qed.

(** What [rnd] returns: zero for the value zero, else the canonical float
    of value [rval], or infinity when its exponent is too large. *)
Lemma rnd_spec (sx : bool) (A B : Z) :
  0 <= A -> 0 < B ->
  (rval A B = 0 /\ rnd sx A B = S754_zero sx) \/
  (exists m e,
     Z.pos m * 2 ^ (e - emin) = rval A B /\
     canonical_mantissa prec emax m e = true /\
     rnd sx A B = if e <=? emax - prec then S754_finite sx m e
                  else S754_infinity sx).
Proof.
  intros HA HB.
  pose proof (rmant_bounds A B HA HB) as [[Hlo Hhi] Hnn].
  pose proof (jexp_nonneg A B) as Hj.
  pose proof (Z.pow_pos_nonneg 2 prec ltac:(lia) ltac:(lia)) as Hpp.
  assert (0 < jexp A B -> 2 ^ (prec - 1) <= rmant A B) as Hnormal.
  { intros Hj0. pose proof (floor_ge_pow A B HA HB Hj0). lia. }
  unfold rnd, rval. rewrite finish_spec by done.
  set (m2 := rmant A B) in *. set (j := jexp A B) in *.
  destruct (Z.eq_dec m2 0) as [Hz|Hnz].
  { left. rewrite Hz. rewrite Z.div_0_l by (apply Z.pow_nonzero; lia). done. }
  right.
  assert (0 < m2) as Hpos by lia.
  pose proof (Zdigits2_bounds m2 Hpos) as [Hdlo Hdhi].
  destruct (Z.eq_dec m2 (2 ^ prec)) as [Hcarry|Hnocarry].
  - (* the rounding carried into bit [prec] *)
    assert (Zdigits2 m2 = prec + 1) as Hd.
    { apply Zdigits2_unique; [|lia]. rewrite Hcarry.
      replace (prec + 1 - 1) with prec by lia.
      split; [lia|]. apply Z.pow_lt_mono_r; lia. }
    rewrite Hd.
    replace (Z.max (fexp (prec + 1 + (emin + j)) - (emin + j)) 0) with 1
      by (unfold SpecFloat.fexp; lia).
    assert (m2 / 2 ^ 1 = 2 ^ (prec - 1)) as Hhalf.
    { rewrite Hcarry. rewrite <- Z.pow_sub_r by lia. done. }
    rewrite Hhalf.
    pose proof (Z.pow_pos_nonneg 2 (prec - 1) ltac:(lia) ltac:(lia)) as Hp1.
    destruct (2 ^ (prec - 1)) as [|p|p] eqn:Hp; [lia| |lia].
    exists p, (emin + j + 1). split; [|split; [|done]].
    + rewrite <- Hp, Hcarry.
      replace (emin + j + 1 - emin) with (1 + j) by lia.
      rewrite Z.pow_add_r, Z.mul_assoc by lia. f_equal.
      rewrite <- Z.pow_add_r by lia. f_equal. lia.
    + apply canonical_mantissa_iff. rewrite <- Hp.
      assert (Zdigits2 (2 ^ (prec - 1)) = prec) as ->.
      { apply Zdigits2_unique; [|lia].
        split; [lia|]. apply Z.pow_lt_mono_r; lia. }
      lia.
  - assert (Zdigits2 m2 <= prec) as Hd
      by (apply Zdigits2_lt_pow; lia).
    replace (Z.max (fexp (Zdigits2 m2 + (emin + j)) - (emin + j)) 0) with 0
      by (unfold SpecFloat.fexp; lia).
    rewrite Z.pow_0_r, Z.div_1_r, Z.add_0_r.
    destruct m2 as [|p|p] eqn:Hm2; [lia| |lia].
    exists p, (emin + j). split; [|split; [|done]].
    + f_equal. f_equal. lia.
    + apply canonical_mantissa_iff. split; [lia|]. split; [done|].
      intros Hj0. specialize (Hnormal ltac:(lia)).
      pose proof (Zdigits2_ge_pow (Z.pos p) (prec - 1) ltac:(lia) Hnormal).
      lia.
Qed.

(** ** Values and the order of canonical floats *)

Lemma val_pos (s : bool) (m : positive) (e : Z) :
  emin <= e -> 0 < val (S754_finite s m e).
Proof.
  intros He. simpl.
  pose proof (Z.pow_pos_nonneg 2 (e - emin) ltac:(lia) ltac:(lia)). nia.
Qed.

Lemma compare_canonical (m1 m2 : positive) (e1 e2 : Z) :
  canonical_mantissa prec emax m1 e1 = true ->
  canonical_mantissa prec emax m2 e2 = true ->
  SFcompare (S754_finite false m1 e1) (S754_finite false m2 e2)
  = Some (val (S754_finite false m1 e1) ?= val (S754_finite false m2 e2)).
Proof.
  intros (He1 & Hd1 & Hn1)%canonical_mantissa_iff
         (He2 & Hd2 & Hn2)%canonical_mantissa_iff.
  pose proof (Zdigits2_bounds (Z.pos m1) ltac:(lia)) as [Hlo1 Hhi1].
  pose proof (Zdigits2_bounds (Z.pos m2) ltac:(lia)) as [Hlo2 Hhi2].
  assert (forall m m' e e' : Z,
            emin <= e < e' -> 0 < m -> Zdigits2 m <= prec ->
            m < 2 ^ Zdigits2 m -> Zdigits2 m' = prec ->
            2 ^ (Zdigits2 m' - 1) <= m' ->
            m * 2 ^ (e - emin) < m' * 2 ^ (e' - emin)) as Hlt.
  { intros m m' e e' He Hm Hd Hhi Hd' Hlo'.
    pose proof (Z.pow_pos_nonneg 2 (e - emin) ltac:(lia) ltac:(lia)) as Hp.
    assert (2 ^ Zdigits2 m <= 2 ^ prec) by (apply Z.pow_le_mono_r; lia).
    apply Z.lt_le_trans with (2 ^ prec * 2 ^ (e - emin)); [nia|].
    apply Z.le_trans with (2 ^ (prec - 1) * 2 ^ (e' - emin)).
    - rewrite <- !Z.pow_add_r by lia. apply Z.pow_le_mono_r; lia.
    - apply Z.mul_le_mono_nonneg_r; [apply Z.pow_nonneg; lia|].
      rewrite Hd' in Hlo'. done. }
  cbn [SFcompare val]. f_equal.
  destruct (Z.compare_spec e1 e2) as [->|He|He].
  - rewrite Pos.compare_cont_spec. cbn [Pos.switch_Eq].
    pose proof (Z.pow_pos_nonneg 2 (e2 - emin) ltac:(lia) ltac:(lia)) as Hp.
    change (Pos.compare m1 m2) with (Z.pos m1 ?= Z.pos m2).
    destruct (Z.compare_spec (Z.pos m1) (Z.pos m2)) as [Heq|Hl|Hg]; symmetry.
    + apply Z.compare_eq_iff. by rewrite Heq.
    + apply Z.compare_lt_iff. nia.
    + apply Z.compare_gt_iff. nia.
  - symmetry. apply Z.compare_lt_iff. apply Hlt; lia.
  - symmetry. apply Z.compare_gt_iff. apply Hlt; lia.
Qed.

(** ** Division, subtraction and [binary_round] as roundings *)

Lemma new_location_rem (d r : Z) :
  0 <= r < d -> new_location d r = loc_of_rem r d.
Proof.
  intros Hr. unfold new_location, new_location_even, new_location_odd, loc_of_rem.
  destruct (Z.even d) eqn:Hev; [done|].
  destruct (Z.eqb_spec r 0); [done|]. f_equal.
  assert (Z.odd d = true) as Hodd by (by rewrite <- Z.negb_even, Hev).
  apply Z.odd_spec in Hodd as [c Hc].
  destruct (Z.compare_spec (2 * r + 1) d); destruct (Z.compare_spec (2 * r) d);
    first [done|lia].
Qed.

Lemma SFdiv_finite_rnd (sx sy : bool) (mx my : positive) (ex ey : Z) :
  emin <= ex - ey ->
  SFdiv prec emax (S754_finite sx mx ex) (S754_finite sy my ey)
  = rnd (xorb sx sy) (Z.pos mx * 2 ^ (ex - ey - emin)) (Z.pos my).
Proof.
  intros He. cbn [SFdiv]. unfold SFdiv_core_binary.
  set (d1 := Zdigits2 (Z.pos mx)). set (d2 := Zdigits2 (Z.pos my)).
  set (e' := Z.min (fexp (d1 + ex - (d2 + ey))) (ex - ey)).
  set (s := ex - ey - e').
  pose proof (fexp_ge_emin (d1 + ex - (d2 + ey))) as Hfe.
  assert (0 <= s) as Hs by (unfold s, e'; lia).
  assert (emin <= e') as Hee by (unfold e'; lia).
  assert (match s with
          | 0 => Z.pos mx
          | Z.pos _ => Z.shiftl (Z.pos mx) s
          | Z.neg _ => 0
          end = Z.pos mx * 2 ^ s) as ->.
  { destruct s as [|p|p] eqn:Hsp; [lia| |lia].
    by rewrite Z.shiftl_mul_pow2 by lia. }
  pose proof (Z.pow_pos_nonneg 2 s ltac:(lia) Hs) as Hps.
  set (N := Z.pos mx * 2 ^ s).
  assert (0 <= N) as HN by (unfold N; nia).
  pose proof (Z.mod_pos_bound N (Z.pos my) ltac:(lia)) as Hr.
  assert (Z.div_eucl N (Z.pos my) = (N / Z.pos my, N mod Z.pos my)) as ->.
  { unfold Z.div, Z.modulo. by destruct (Z.div_eucl N (Z.pos my)). }
  rewrite new_location_rem by done.
  rewrite binary_round_aux_rnd; [|done|lia|done|].
  - f_equal. unfold N. rewrite <- Z.mul_assoc, <- Z.pow_add_r by lia.
    f_equal. f_equal. unfold s. lia.
  - destruct (Z.le_gt_cases e' emin) as [Hle|Hgt].
    { pose proof (fexp_ge_emin (Zdigits2 (N / Z.pos my) + e')). lia. }
    assert (prec + d2 - d1 <= s) as Hsb
      by (unfold s, e', SpecFloat.fexp in *; lia).
    pose proof (Zdigits2_bounds (Z.pos mx) ltac:(lia)) as [Hlo1 _].
    pose proof (Zdigits2_bounds (Z.pos my) ltac:(lia)) as [_ Hhi2].
    fold d1 in Hlo1. fold d2 in Hhi2.
    assert (0 < d1) by (unfold d1; simpl; lia).
    assert (0 < d2) by (unfold d2; simpl; lia).
    assert (2 ^ (prec - 1) <= N / Z.pos my) as Hq.
    { apply Z.div_le_lower_bound; [lia|].
      apply Z.le_trans with (2 ^ (prec - 1) * 2 ^ d2); [nia|].
      apply Z.le_trans with (2 ^ (d1 - 1) * 2 ^ s); [|unfold N; nia].
      rewrite <- !Z.pow_add_r by lia. apply Z.pow_le_mono_r; lia. }
    pose proof (Zdigits2_ge_pow (N / Z.pos my) (prec - 1) ltac:(lia) Hq).
    unfold SpecFloat.fexp. lia.
Qed.

Lemma iter_xO (m d : positive) :
  Z.pos (Pos.iter xO m d) = Z.pos m * 2 ^ Z.pos d.
Proof.
  induction d as [|d IH] using Pos.peano_ind.
  - simpl. lia.
  - rewrite Pos.iter_succ, Pos2Z.inj_xO, IH, Pos2Z.inj_succ, Z.pow_succ_r by lia.
    ring.
Qed.

Lemma shl_align_fst (m : positive) (e e' : Z) :
  e' <= e -> Z.pos (fst (shl_align m e e')) = Z.pos m * 2 ^ (e - e').
Proof.
  intros He. unfold shl_align.
  destruct (e' - e) as [|p|p] eqn:Hd; [|lia|].
  - replace (e - e') with 0 by lia. simpl. lia.
  - cbn [fst]. rewrite iter_xO. f_equal. f_equal. lia.
Qed.

Lemma rmant_0 (B : Z) : 0 < B -> rmant 0 B = 0.
Proof.
  intros HB. unfold rmant, jexp. rewrite (Z.div_0_l B) by lia.
  cbn [Zdigits2]. replace (Z.max (0 - prec) 0) with 0 by lia.
  rewrite Z.pow_0_r, Z.mul_1_r, Z.div_0_l, Z.mod_0_l by lia.
  done.
Qed.

Lemma rnd_0 (sx : bool) (B : Z) : 0 < B -> rnd sx 0 B = S754_zero sx.
Proof.
  intros HB.
  destruct (rnd_spec sx 0 B ltac:(lia) HB)
    as [[_ ?]|(m & e & Hv & (He & _)%canonical_mantissa_iff & _)]; [done|].
  unfold rval in Hv. rewrite rmant_0 in Hv by done.
  pose proof (Z.pow_pos_nonneg 2 (e - emin) ltac:(lia) ltac:(lia)). nia.
Qed.

Lemma binary_round_rnd (sx : bool) (m : positive) (e : Z) :
  emin <= e ->
  binary_round prec emax sx m e = rnd sx (Z.pos m * 2 ^ (e - emin)) 1.
Proof.
  intros He. unfold binary_round.
  change (Z.pos (digits2_pos m)) with (Zdigits2 (Z.pos m)).
  set (e0 := fexp (Zdigits2 (Z.pos m) + e)).
  pose proof (fexp_ge_emin (Zdigits2 (Z.pos m) + e)) as Hfe. fold e0 in Hfe.
  assert (forall (mz : positive) (ez : Z),
            emin <= ez -> ez <= fexp (Zdigits2 (Z.pos mz) + ez) ->
            binary_round_aux prec emax sx (Z.pos mz) ez loc_Exact
            = rnd sx (Z.pos mz * 2 ^ (ez - emin)) 1) as Haux.
  { intros mz ez H1 H2.
    rewrite <- (binary_round_aux_rnd sx (Z.pos mz) 1 ez);
      rewrite ?Z.div_1_r, ?Z.mod_1_r; first [done|lia]. }
  unfold shl_align.
  destruct (e0 - e) as [|p|p] eqn:Hd.
  - apply Haux; [done|]. fold e0. lia.
  - apply Haux; [done|]. fold e0. lia.
  - rewrite Haux.
    + f_equal. rewrite iter_xO, <- Z.mul_assoc, <- Z.pow_add_r by lia.
      f_equal. f_equal. lia.
    + done.
    + rewrite iter_xO, Zdigits2_mul_pow2 by lia.
      replace (Zdigits2 (Z.pos m) + Z.pos p + e0)
        with (Zdigits2 (Z.pos m) + e) by lia.
      fold e0. lia.
Qed.

Lemma SFsub_finite_rnd (mx my : positive) (ex ey : Z) :
  emin <= ex -> emin <= ey ->
  val (S754_finite false my ey) <= val (S754_finite false mx ex) ->
  SFsub prec emax (S754_finite false mx ex) (S754_finite false my ey)
  = rnd false (val (S754_finite false mx ex) - val (S754_finite false my ey)) 1.
Proof.
  intros Hex Hey Hle. cbn [SFsub val] in *.
  set (ez := Z.min ex ey).
  rewrite !shl_align_fst by (unfold ez; lia). cbn [cond_Zopp].
  assert (0 <= ez - emin) as Hz by (unfold ez; lia).
  pose proof (Z.pow_pos_nonneg 2 (ez - emin) ltac:(lia) Hz) as Hp.
  assert (forall (m : positive) (e : Z), ez <= e ->
            Z.pos m * 2 ^ (e - emin)
            = Z.pos m * 2 ^ (e - ez) * 2 ^ (ez - emin)) as Hsplit.
  { intros m e He. rewrite <- Z.mul_assoc, <- Z.pow_add_r by lia.
    f_equal. f_equal. lia. }
  rewrite (Hsplit mx ex), (Hsplit my ey) in * by (unfold ez; lia).
  set (X := Z.pos mx * 2 ^ (ex - ez)) in *.
  set (Y := Z.pos my * 2 ^ (ey - ez)) in *.
  rewrite <- Z.mul_sub_distr_r.
  destruct (X - Y) as [|p|p] eqn:Hd; cbn [binary_normalize].
  - by rewrite Z.mul_0_l, rnd_0.
  - apply binary_round_rnd. unfold ez. lia.
  - nia.
Qed.

(** ** Non-negative canonical floats *)

Lemma val_nonneg (x : spec_float) : 0 <= val x.
Proof.
  destruct x as [| | |s m e]; cbn [val]; [lia|lia|lia|].
  pose proof (Z.pow_nonneg 2 (e - emin) ltac:(lia)). nia.
Qed.

Lemma val_of_leb (x1 x2 : spec_float) :
  nonneg_canonical x1 -> nonneg_canonical x2 ->
  SFleb x1 x2 = true -> val x1 <= val x2.
Proof.
  intros H1 H2 Hle.
  destruct x1 as [s1| | |[] m1 e1]; try done;
    destruct x2 as [s2| | |[] m2 e2]; try done;
    try (by apply val_nonneg).
  unfold SFleb in Hle. rewrite compare_canonical in Hle by done.
  destruct (Z.compare_spec (val (S754_finite false m1 e1))
              (val (S754_finite false m2 e2))); [lia|lia|done].
Qed.

Lemma leb_of_val (x1 x2 : spec_float) :
  nonneg_canonical x1 -> nonneg_canonical x2 ->
  val x1 <= val x2 -> SFleb x1 x2 = true.
Proof.
  intros H1 H2 Hle.
  destruct x1 as [s1| | |[] m1 e1]; try done;
    destruct x2 as [s2| | |[] m2 e2]; try done.
  - apply canonical_mantissa_iff in H1.
    pose proof (val_pos false m1 e1 ltac:(lia)). simpl in *. lia.
  - unfold SFleb. rewrite compare_canonical by done.
    destruct (Z.compare_spec (val (S754_finite false m1 e1))
                (val (S754_finite false m2 e2))); [done|done|lia].
Qed.

(** A rounding whose value stays at or below one is zero or finite. *)
Lemma rnd_small (A B : Z) :
  0 <= A -> 0 < B -> emin <= 0 -> prec <= emax ->
  rval A B <= 2 ^ (- emin) ->
  nonneg_canonical (rnd false A B) /\ val (rnd false A B) = rval A B.
Proof.
  intros HA HB Hemin Hemax Hle.
  destruct (rnd_spec false A B HA HB)
    as [[Hv ->]|(m & e & Hv & Hcan & ->)]; [done|].
  assert (e <= emax - prec) as He.
  { apply canonical_mantissa_iff in Hcan as (He & _).
    destruct (Z.le_gt_cases e 0) as [|Hgt]; [lia|].
    assert (2 ^ (- emin) < 2 ^ (e - emin)) by (apply Z.pow_lt_mono_r; lia).
    nia. }
  destruct (Z.leb_spec e (emax - prec)); [|lia]. done.
Qed.

End Rounding.

(** ** The relative tolerance in binary64 *)

Lemma prec_pos : 0 < prec.
Proof. done. Qed.

Lemma centi_hundred : centi (units hundred) = ONE.
Proof. vm_compute. reflexivity. Qed.

Lemma units_one : units one = ONE.
Proof. vm_compute. reflexivity. Qed.

Lemma rval_ONE : rval prec ONE 1 = ONE.
Proof. vm_compute. reflexivity. Qed.

Lemma rnd_ONE : rnd prec emax false ONE 1 = one.
Proof. vm_compute. reflexivity. Qed.

Lemma pow_emin : 2 ^ (- SpecFloat.emin prec emax) = ONE.
Proof. reflexivity. Qed.

Lemma in_range_finite (m : float) :
  ltb zero m = true -> leb m hundred = true ->
  exists mm e, m = S754_finite false mm e.
Proof. destruct m as [s|[]| |[] mm e]; try done. eauto. Qed.

Lemma valid_nonneg_canonical (mm : positive) (e : Z) :
  valid (S754_finite false mm e) = true ->
  nonneg_canonical prec emax (S754_finite false mm e).
Proof. unfold valid. simpl. unfold bounded. by intros [? _]%andb_true_iff. Qed.

Lemma div_hundred_units (m : float) :
  valid m = true -> ltb zero m = true -> leb m hundred = true ->
  nonneg_canonical prec emax (div m hundred) /\
  units (div m hundred) = centi (units m) /\
  units (div m hundred) <= ONE.
Proof.
  intros Hv H0 H100.
  destruct (in_range_finite m H0 H100) as (mm & e & ->).
  pose proof (valid_nonneg_canonical mm e Hv) as Hcan.
  assert (units (S754_finite false mm e) <= units hundred) as Hle.
  { apply (val_of_leb prec emax prec_pos); done. }
  pose proof (val_nonneg prec emax (S754_finite false mm e)) as Hnn.
  fold (units (S754_finite false mm e)) in Hnn.
  assert (centi (units (S754_finite false mm e)) <= ONE) as Hc.
  { rewrite <- centi_hundred. unfold centi.
    apply (rval_mono prec prec_pos); lia. }
  apply (canonical_mantissa_iff prec emax) in Hcan as (He & _).
  assert (div (S754_finite false mm e) hundred
          = rnd prec emax false (units (S754_finite false mm e) * 2 ^ 46)
              7036874417766400) as ->.
  { unfold div, hundred. rewrite (SFdiv_finite_rnd prec emax prec_pos).
    - f_equal. unfold units. cbn [val].
      rewrite <- Z.mul_assoc, <- Z.pow_add_r by lia. f_equal. f_equal. lia.
    - lia. }
  destruct (rnd_small prec emax prec_pos
              (units (S754_finite false mm e) * 2 ^ 46) 7036874417766400)
    as [Hnc Hval].
  - lia.
  - lia.
  - by vm_compute.
  - by vm_compute.
  - rewrite pow_emin. exact Hc.
  - split; [exact Hnc|].
    assert (units (rnd prec emax false
                     (units (S754_finite false mm e) * 2 ^ 46) 7036874417766400)
            = centi (units (S754_finite false mm e))) as Hu by exact Hval.
    rewrite Hu. split; [reflexivity|exact Hc].
Qed.

Lemma sub_one_units (y : float) :
  nonneg_canonical prec emax y -> units y <= ONE ->
  nonneg_canonical prec emax (sub one y) /\
  units (sub one y) = rval prec (ONE - units y) 1 /\
  units (sub one y) <= ONE.
Proof.
  intros Hcan Hle.
  pose proof (val_nonneg prec emax y) as Hnn. fold (units y) in Hnn.
  assert (rval prec (ONE - units y) 1 <= ONE) as Hr.
  { rewrite <- rval_ONE at 2. apply (rval_mono prec prec_pos); lia. }
  assert (sub one y = rnd prec emax false (ONE - units y) 1) as ->.
  { destruct y as [s| | |[] mm e]; [|done|done|done|].
    - change (units (S754_zero s)) with 0. rewrite Z.sub_0_r, rnd_ONE. done.
    - apply (canonical_mantissa_iff prec emax) in Hcan as (He & _).
      rewrite <- units_one in *. unfold sub, one.
      apply (SFsub_finite_rnd prec emax prec_pos); [done|done|done]. }
  destruct (rnd_small prec emax prec_pos (ONE - units y) 1) as [Hnc Hval].
  - lia.
  - lia.
  - by vm_compute.
  - by vm_compute.
  - rewrite pow_emin. exact Hr.
  - split; [exact Hnc|].
    assert (units (rnd prec emax false (ONE - units y) 1)
            = rval prec (ONE - units y) 1) as Hu by exact Hval.
    rewrite Hu. split; [reflexivity|exact Hr].
Qed.

(** The relative tolerance of a valid percentage: a canonical float,
    zero or positive, at most one. *)
Lemma rel_tol_rounding (m : float) :
  valid m = true -> ltb zero m = true -> leb m hundred = true ->
  nonneg_canonical prec emax (sub one (div m hundred)) /\
  units (sub one (div m hundred)) = rel_tol_units (units m) /\
  units (sub one (div m hundred)) <= ONE.
Proof.
  intros Hv H0 H100.
  destruct (div_hundred_units m Hv H0 H100) as (Hc & Hu & Hle).
  destruct (sub_one_units _ Hc Hle) as (Hc' & Hu' & Hle').
  split; [done|]. split; [|done]. by rewrite Hu', Hu.
Qed.

(** Over the valid percentages the relative tolerance does not increase
    when the percentage does. *)
Lemma rel_tol_monotone (m1 m2 : float) :
  valid m1 = true -> valid m2 = true ->
  ltb zero m1 = true -> leb m1 hundred = true ->
  ltb zero m2 = true -> leb m2 hundred = true ->
  leb m1 m2 = true ->
  leb (sub one (div m2 hundred)) (sub one (div m1 hundred)) = true.
Proof.
  intros Hv1 Hv2 H01 H1001 H02 H1002 Hle.
  destruct (rel_tol_rounding m1 Hv1 H01 H1001) as (Hc1 & Hu1 & _).
  destruct (rel_tol_rounding m2 Hv2 H02 H1002) as (Hc2 & Hu2 & _).
  destruct (div_hundred_units m1 Hv1 H01 H1001) as (_ & _ & Hd1).
  destruct (div_hundred_units m2 Hv2 H02 H1002) as (_ & Hd2' & Hd2).
  destruct (in_range_finite m1 H01 H1001) as (mm1 & e1 & ->).
  destruct (in_range_finite m2 H02 H1002) as (mm2 & e2 & ->).
  assert (units (S754_finite false mm1 e1) <= units (S754_finite false mm2 e2))
    as Hu.
  { apply (val_of_leb prec emax prec_pos);
      [by apply valid_nonneg_canonical|by apply valid_nonneg_canonical|done]. }
  pose proof (val_nonneg prec emax (S754_finite false mm1 e1)) as Hnn.
  fold (units (S754_finite false mm1 e1)) in Hnn.
  apply (leb_of_val prec emax prec_pos); [done|done|].
  fold (units (sub one (div (S754_finite false mm2 e2) hundred))).
  fold (units (sub one (div (S754_finite false mm1 e1) hundred))).
  rewrite Hu1, Hu2. unfold rel_tol_units.
  assert (centi (units (S754_finite false mm1 e1))
          <= centi (units (S754_finite false mm2 e2))) as Hc.
  { unfold centi. apply (rval_mono prec prec_pos); lia. }
  rewrite Hd2' in Hd2.
  apply (rval_mono prec prec_pos); lia.
Qed.

(** ** required_rel_tol *)

Lemma SFcompare_antisym (x y : float) :
  SFcompare y x = CompOpp <$> SFcompare x y.
Proof.
  destruct x as [sx|sx| |sx mx ex], y as [sy|sy| |sy my ey];
    try done; try (by destruct sx); try (by destruct sy);
    try (by destruct sx, sy).
  cbn [SFcompare]. rewrite (Z.compare_antisym ex ey).
  pose proof (Pos.compare_cont_antisym mx my Eq) as Hm.
  change (CompOpp Eq) with Eq in Hm. rewrite <- Hm.
  destruct sx, sy; try done;
    destruct (ex ?= ey); try done;
    by destruct (Pos.compare_cont Eq mx my).
Qed.

Lemma ltb_not_leb (x y : float) : ltb x y = true -> leb y x = false.
Proof.
  unfold ltb, leb, SFltb, SFleb. rewrite (SFcompare_antisym x y).
  by destruct (SFcompare x y) as [[]|].
Qed.

Lemma leb_not_ltb (x y : float) : leb x y = true -> ltb y x = false.
Proof.
  unfold ltb, leb, SFltb, SFleb. rewrite (SFcompare_antisym x y).
  by destruct (SFcompare x y) as [[]|].
Qed.

Lemma required_rel_tol_Ok (m r : float) :
  required_rel_tol m = Ok r ->
  ltb zero m = true /\ leb m hundred = true /\ r = sub one (div m hundred).
Proof.
  unfold required_rel_tol.
  destruct (ltb zero m); destruct (leb m hundred); try done.
  by intros [= <-].
Qed.

(** X1, for C2: on (0, 100] [required_rel_tol] returns
    [1 - match_pct / 100], in floats; the result does not increase when
    the percentage increases; a percentage [<= 0] or [> 100] raises
    [ValueError]. *)
Theorem required_rel_tol_spec :
  (forall m, ltb zero m = true -> leb m hundred = true ->
     required_rel_tol m = Ok (sub one (div m hundred))) /\
  (forall m1 m2 r1 r2,
     valid m1 = true -> valid m2 = true -> leb m1 m2 = true ->
     required_rel_tol m1 = Ok r1 -> required_rel_tol m2 = Ok r2 ->
     leb r2 r1 = true) /\
  (forall m, leb m zero = true \/ gtb m hundred = true ->
     required_rel_tol m = Raise ValueError).
Proof.
  split; [|split].
  - apply required_rel_tol_in_range.
  - intros m1 m2 r1 r2 Hv1 Hv2 Hle (H01 & H1001 & ->)%required_rel_tol_Ok
           (H02 & H1002 & ->)%required_rel_tol_Ok.
    by apply rel_tol_monotone.
  - intros m [Hle|Hgt]; apply required_rel_tol_out_of_range.
    + left. by apply leb_not_ltb.
    + right. by apply ltb_not_leb.
Qed.

Lemma required_rel_tol_spec_witness :
  required_rel_tol (of_ratio 99999 1000)
  = Ok (S754_finite false 5902958103625728 (-69)) /\
  required_rel_tol hundred = Ok zero /\
  leb zero (S754_finite false 5902958103625728 (-69)) = true /\
  required_rel_tol (of_ratio 150 1) = Raise ValueError /\
  required_rel_tol zero = Raise ValueError.
Proof.
  destruct required_rel_tol_spec as (Hformula & Hmono & Hraise).
  split; [exact (Hformula (of_ratio 99999 1000) eq_refl eq_refl)|].
  split; [exact (Hformula hundred eq_refl eq_refl)|].
  split;
    [exact (Hmono (of_ratio 99999 1000) hundred _ _ eq_refl eq_refl eq_refl
              (Hformula (of_ratio 99999 1000) eq_refl eq_refl)
              (Hformula hundred eq_refl eq_refl))|].
  split; [exact (Hraise (of_ratio 150 1) (or_intror eq_refl))|].
  exact (Hraise zero (or_introl eq_refl)).
Defined.

(** The decrease is not strict: the percentages [2 ^ -1000] and
    [2 ^ -999] both give the tolerance [1.0]. *)
Lemma required_rel_tol_not_strict :
  required_rel_tol (S754_finite false 4503599627370496 (-1052)) = Ok one /\
  required_rel_tol (S754_finite false 4503599627370496 (-1051)) = Ok one.
Proof. split; vm_compute; reflexivity. Qed.

(** A percentage that is not a number raises as well. *)
Lemma required_rel_tol_nan : required_rel_tol nan = Raise ValueError.
Proof. reflexivity. Qed.

(** ** Two zero volumes *)

Lemma eqb_zero_inv (x : float) : eqb x zero = true -> exists s, x = S754_zero s.
Proof. destruct x as [s|[]| |[] ? ?]; try done. eauto. Qed.

(** With the product [rel_tol * 0.0] a zero, and a tolerance floor that
    is a number, the threshold is not below [0.0]. *)
Lemma zero_within_threshold (abs_tol rel_tol : float) :
  nonneg_canonical prec emax rel_tol -> is_nan abs_tol = false ->
  leb zero (max abs_tol (mul rel_tol zero)) = true.
Proof.
  intros Hc Hnan.
  assert (exists s, mul rel_tol zero = S754_zero s) as [s ->].
  { destruct rel_tol as [s| | |[] m e]; try done; by eexists. }
  destruct abs_tol as [sa|[]| |[] ma ea]; try done; by destruct s.
Qed.

(** X2, for C7 as the code has it: for a match percentage in (0, 100]
    and an absolute tolerance that is a number, a key whose baseline and
    new values are both zero has relative error [0.0] and passes. *)
Theorem compare_maps_zero_zero
    (base_map new_map : gmap SolidKey float) (cfg : CompareConfig)
    (k : SolidKey) (b n : float) :
  valid (match_pct cfg) = true ->
  ltb zero (match_pct cfg) = true -> leb (match_pct cfg) hundred = true ->
  is_nan (abs_tol_mm3 cfg) = false ->
  base_map !! k = Some b -> new_map !! k = Some n ->
  eqb b zero = true -> eqb n zero = true ->
  exists diffs d, compare_maps base_map new_map cfg = Ok diffs /\
    d ∈ diffs /\ (forall d', d' ∈ diffs -> key d' = k -> d' = d) /\
    key d = k /\ rel_err d = Some zero /\ ok d = true /\
    reason d = ok_reason.
Proof.
  intros Hv H0 H100 Hnan Hb Hn [sb ->]%eqb_zero_inv [sn ->]%eqb_zero_inv.
  destruct (compare_maps_outcome base_map new_map cfg k H0 H100)
    as (diffs & Heq & Hin & Huniq).
  { apply elem_of_union_l, elem_of_dom. eauto. }
  destruct (rel_tol_rounding (match_pct cfg) Hv H0 H100) as (Hc & _).
  pose proof (zero_within_threshold (abs_tol_mm3 cfg) _ Hc Hnan) as Hok.
  exists diffs, (compare_key base_map new_map cfg
                   (sub one (div (match_pct cfg) hundred)) k).
  split; [done|]. split; [done|]. split; [done|].
  unfold compare_key. rewrite Hb, Hn. cbn [key rel_err ok reason].
  assert (abs (sub (S754_zero sn) (S754_zero sb)) = zero) as ->
    by (by destruct sn, sb).
  assert (max (abs (S754_zero sb)) (abs (S754_zero sn)) = zero) as -> by done.
  rewrite Hok. done.
Qed.

Lemma compare_maps_zero_zero_witness :
  valid (match_pct default_cfg) = true /\
  ltb zero (match_pct default_cfg) = true /\
  leb (match_pct default_cfg) hundred = true /\
  is_nan (abs_tol_mm3 default_cfg) = false /\
  exists diffs d,
    compare_maps (volumes [(("A", 0), zero)])
                 (volumes [(("A", 0), S754_zero true)]) default_cfg
    = Ok diffs /\ d ∈ diffs /\ rel_err d = Some zero /\ ok d = true.
Proof.
  repeat (split; [reflexivity|]).
  destruct (compare_maps_zero_zero
              (volumes [(("A", 0), zero)])
              (volumes [(("A", 0), S754_zero true)]) default_cfg
              ("A", 0) zero (S754_zero true))
    as (diffs & d & Heq & Hin & _ & _ & Hrel & Hok & _); try reflexivity.
  exists diffs, d. split; [exact Heq|]. split; [exact Hin|].
  split; [exact Hrel|exact Hok].
Defined.

(** C7 as stated fails: with [--abs-tol-mm3 nan] two zero volumes are
    reported as a mismatch. *)
Lemma compare_maps_zero_zero_nan_tolerance :
  compare_maps (volumes [(("A", 0), zero)]) (volumes [(("A", 0), zero)])
               cfg_nan_tol
  = Ok [ {| key := ("A", 0); baseline := Some zero; new := Some zero;
            rel_err := Some zero; ok := false;
            reason := volume_mismatch |} ].
Proof. vm_compute. reflexivity. Qed.

(** * Further properties *)

(** ** compare_maps: what every result satisfies *)

Lemma compare_maps_Ok
    (base_map new_map : gmap SolidKey float) (cfg : CompareConfig)
    (diffs : list SolidDiff) :
  compare_maps base_map new_map cfg = Ok diffs ->
  exists rt, required_rel_tol (match_pct cfg) = Ok rt /\
    diffs = compare_key base_map new_map cfg rt
              <$> sorted (elements (dom base_map ∪ dom new_map)).
Proof.
  unfold compare_maps.
  destruct (required_rel_tol (match_pct cfg)) as [rt|e]; [|done].
  simpl. intros [= <-]. exists rt. split; [done|].
  by rewrite diffs_loop_fmap.
Qed.

(** The outcome of a key of the union, and that it is the only one. *)
Lemma compare_maps_at
    (base_map new_map : gmap SolidKey float) (cfg : CompareConfig)
    (diffs : list SolidDiff) (k : SolidKey) :
  compare_maps base_map new_map cfg = Ok diffs ->
  k ∈ dom base_map ∪ dom new_map ->
  exists rt, required_rel_tol (match_pct cfg) = Ok rt /\
    compare_key base_map new_map cfg rt k ∈ diffs /\
    forall d', d' ∈ diffs -> key d' = k ->
               d' = compare_key base_map new_map cfg rt k.
Proof.
  intros (rt & Hrt & ->)%compare_maps_Ok Hk. exists rt. split; [done|]. split.
  - apply list_elem_of_fmap. exists k. by rewrite elem_of_sorted.
  - intros d' (k' & -> & _)%list_elem_of_fmap Hkey.
    rewrite compare_key_key in Hkey. by subst.
Qed.

(** X3: [compare_maps] raises exactly when the match percentage is
    outside (0, 100], whatever the two maps hold, and the exception is
    [ValueError]. *)
Theorem compare_maps_raises_iff
    (base_map new_map : gmap SolidKey float) (cfg : CompareConfig) :
  (ltb zero (match_pct cfg) && leb (match_pct cfg) hundred = false <->
   compare_maps base_map new_map cfg = Raise ValueError) /\
  (forall e, compare_maps base_map new_map cfg = Raise e -> e = ValueError).
Proof.
  unfold compare_maps, required_rel_tol.
  destruct (ltb zero (match_pct cfg) && leb (match_pct cfg) hundred); simpl.
  - split; [split; discriminate|discriminate].
  - split; [done|]. by intros e [= <-].
Qed.

(** X4: the list [compare_maps] returns has as many outcomes as there
    are distinct keys in the two maps together. *)
Theorem compare_maps_length
    (base_map new_map : gmap SolidKey float) (cfg : CompareConfig)
    (diffs : list SolidDiff) :
  compare_maps base_map new_map cfg = Ok diffs ->
  length diffs = size (dom base_map ∪ dom new_map).
Proof.
  intros (rt & _ & ->)%compare_maps_Ok.
  rewrite length_fmap. unfold size, set_size. simpl.
  apply Permutation_length, sorted_perm.
Qed.

Lemma compare_maps_length_witness :
  let base_map := volumes [(("A", 0), one); (("B", 1), zero)] in
  let new_map := volumes [(("A", 0), hundred); (("C", 0), one)] in
  exists diffs,
    compare_maps base_map new_map default_cfg = Ok diffs /\
    length diffs = 3%nat.
Proof.
  intros base_map new_map. eexists. split; [reflexivity|].
  rewrite (compare_maps_length base_map new_map default_cfg _ eq_refl).
  reflexivity.
Defined.

(** X5: every outcome in the result carries the two lookups of its key,
    at least one of them a value; it passes exactly when its reason is
    [ok]; it has no relative error exactly when a side is missing; and
    the two missing reasons say which side. *)
Theorem compare_maps_outcome_shape
    (base_map new_map : gmap SolidKey float) (cfg : CompareConfig)
    (diffs : list SolidDiff) (d : SolidDiff) :
  compare_maps base_map new_map cfg = Ok diffs -> d ∈ diffs ->
  baseline d = base_map !! key d /\ new d = new_map !! key d /\
  (is_Some (baseline d) \/ is_Some (new d)) /\
  (ok d = true <-> reason d = ok_reason) /\
  (ok d = true -> is_Some (baseline d) /\ is_Some (new d)) /\
  (rel_err d = None <-> baseline d = None \/ new d = None) /\
  (reason d = missing_in_baseline <-> baseline d = None) /\
  (reason d = missing_in_new <-> is_Some (baseline d) /\ new d = None).
Proof.
  intros (rt & _ & ->)%compare_maps_Ok (k & -> & Hk)%list_elem_of_fmap.
  apply elem_of_sorted, elem_of_union in Hk. rewrite !elem_of_dom in Hk.
  rewrite compare_key_key. unfold compare_key.
  destruct (base_map !! k) as [b|] eqn:Hb, (new_map !! k) as [n|] eqn:Hn;
    cbn [baseline new rel_err ok reason].
  - destruct (leb _ _); intuition (try discriminate; eauto).
  - intuition (try discriminate; eauto);
      match goal with H : is_Some None |- _ => destruct (is_Some_None H) end.
  - intuition (try discriminate; eauto);
      match goal with H : is_Some None |- _ => destruct (is_Some_None H) end.
  - destruct Hk as [[]%is_Some_None|[]%is_Some_None].
Qed.

Lemma compare_maps_outcome_shape_witness :
  let d := {| key := ("A", 0); baseline := Some one; new := None;
              rel_err := None; ok := false; reason := missing_in_new |} in
  exists diffs,
    compare_maps (volumes [(("A", 0), one)]) (volumes [(("B", 1), one)])
                 default_cfg = Ok diffs /\
    d ∈ diffs /\
    (ok d = true <-> reason d = ok_reason) /\
    (rel_err d = None <-> baseline d = None \/ new d = None).
Proof.
  intros d. eexists. split; [reflexivity|].
  assert (d ∈ [d; {| key := ("B", 1); baseline := None; new := Some one;
                     rel_err := None; ok := false;
                     reason := missing_in_baseline |}]) as Hd by (by left).
  split; [exact Hd|].
  destruct (compare_maps_outcome_shape
              (volumes [(("A", 0), one)]) (volumes [(("B", 1), one)])
              default_cfg _ d eq_refl Hd)
    as (_ & _ & _ & Hok & _ & Hrel & _).
  split; [exact Hok|exact Hrel].
Defined.

(** ** compare_maps: values that are not finite *)

Lemma sub_nan (x y : float) :
  is_nan x = true \/ is_nan y = true -> sub x y = nan.
Proof. destruct x as [| | |], y as [| | |]; by intros [|]. Qed.

Lemma sub_same_infinity (s : bool) :
  sub (S754_infinity s) (S754_infinity s) = nan.
Proof. by destruct s. Qed.

(** The outcome of a key that both maps hold. *)
Lemma compare_maps_both
    (base_map new_map : gmap SolidKey float) (cfg : CompareConfig)
    (diffs : list SolidDiff) (k : SolidKey) (b n : float) :
  compare_maps base_map new_map cfg = Ok diffs ->
  base_map !! k = Some b -> new_map !! k = Some n ->
  exists rt d, required_rel_tol (match_pct cfg) = Ok rt /\
    d ∈ diffs /\ (forall d', d' ∈ diffs -> key d' = k -> d' = d) /\
    key d = k /\
    ok d = leb (abs (sub n b))
               (max (abs_tol_mm3 cfg) (mul rt (max (abs b) (abs n)))) /\
    reason d = (if ok d then ok_reason else volume_mismatch) /\
    rel_err d
    = Some (if gtb (max (abs b) (abs n)) zero
            then div (abs (sub n b)) (max (abs b) (abs n))
            else if eqb (abs (sub n b)) zero then zero else inf).
Proof.
  intros Hcmp Hb Hn.
  destruct (compare_maps_at base_map new_map cfg diffs k Hcmp)
    as (rt & Hrt & Hin & Huniq).
  { apply elem_of_union_l, elem_of_dom. eauto. }
  exists rt, (compare_key base_map new_map cfg rt k).
  split; [done|]. split; [done|]. split; [done|].
  unfold compare_key. rewrite Hb, Hn. done.
Qed.

(** X6: a key whose baseline or new value is not a number, or whose two
    values are the same infinity, never passes: the difference is not a
    number, and no threshold is above it. *)
Theorem compare_maps_nan_fails
    (base_map new_map : gmap SolidKey float) (cfg : CompareConfig)
    (diffs : list SolidDiff) (k : SolidKey) (b n : float) :
  compare_maps base_map new_map cfg = Ok diffs ->
  base_map !! k = Some b -> new_map !! k = Some n ->
  is_nan b = true \/ is_nan n = true \/
    (exists s, b = S754_infinity s /\ n = S754_infinity s) ->
  exists d, d ∈ diffs /\ (forall d', d' ∈ diffs -> key d' = k -> d' = d) /\
    key d = k /\ ok d = false /\ reason d = volume_mismatch.
Proof.
  intros Hcmp Hb Hn Hbad.
  destruct (compare_maps_both _ _ _ _ _ _ _ Hcmp Hb Hn)
    as (rt & d & _ & Hin & Huniq & Hkey & Hok & Hreason & _).
  assert (sub n b = nan) as Hsub.
  { destruct Hbad as [Hnan|[Hnan|(s & -> & ->)]].
    - apply sub_nan. by right.
    - apply sub_nan. by left.
    - apply sub_same_infinity. }
  rewrite Hsub in Hok. change (leb (abs nan) _) with false in Hok.
  rewrite Hok in Hreason. eauto 10.
Qed.

Lemma compare_maps_nan_fails_witness :
  let base_map := volumes [(("A", 0), inf)] in
  let new_map := volumes [(("A", 0), inf)] in
  base_map !! ("A", 0) = Some inf /\ new_map !! ("A", 0) = Some inf /\
  exists diffs d,
    compare_maps base_map new_map default_cfg = Ok diffs /\
    d ∈ diffs /\ key d = ("A", 0) /\ ok d = false /\
    reason d = volume_mismatch.
Proof.
  intros base_map new_map. split; [reflexivity|]. split; [reflexivity|].
  destruct (compare_maps_nan_fails base_map new_map default_cfg _
              ("A", 0) inf inf eq_refl eq_refl eq_refl)
    as (d & Hin & _ & Hkey & Hok & Hreason).
  { right. right. by exists false. }
  eexists. exists d. split; [reflexivity|]. done.
Defined.

Lemma max_infinity_r (a r : float) :
  is_nan a = false -> r = S754_infinity false -> max a r = S754_infinity false.
Proof. intros Ha ->. by destruct a as [|[]| |]. Qed.

Lemma mul_pos_infinity (rt : float) :
  ltb zero rt = true -> mul rt (S754_infinity false) = S754_infinity false.
Proof. by destruct rt as [|[]| |[] ? ?]. Qed.

(** X7: with a relative tolerance above zero and an absolute tolerance
    that is a number, a key passes as soon as one of its two values is
    infinite and the other is a different number: the difference and
    the threshold are both infinite. *)
Theorem compare_maps_infinite_passes
    (base_map new_map : gmap SolidKey float) (cfg : CompareConfig)
    (diffs : list SolidDiff) (k : SolidKey) (b n rt : float) :
  compare_maps base_map new_map cfg = Ok diffs ->
  required_rel_tol (match_pct cfg) = Ok rt -> ltb zero rt = true ->
  is_nan (abs_tol_mm3 cfg) = false ->
  base_map !! k = Some b -> new_map !! k = Some n ->
  is_nan b = false -> is_nan n = false ->
  isfinite b = false \/ isfinite n = false -> b <> n ->
  exists d, d ∈ diffs /\ (forall d', d' ∈ diffs -> key d' = k -> d' = d) /\
    key d = k /\ ok d = true /\ reason d = ok_reason.
Proof.
  intros Hcmp Hrt Hpos Htol Hb Hn Hbn Hnn Hinf Hne.
  destruct (compare_maps_both _ _ _ _ _ _ _ Hcmp Hb Hn)
    as (rt' & d & Hrt' & Hin & Huniq & Hkey & Hok & Hreason & _).
  rewrite Hrt in Hrt'. injection Hrt' as <-.
  assert (max (abs b) (abs n) = S754_infinity false
          /\ abs (sub n b) = S754_infinity false) as [Hdenom Herr].
  { destruct b as [sb|sb| |sb mb eb], n as [sn|sn| |sn mn en];
      try done; try (by destruct Hinf);
      destruct sb, sn; try done; by destruct Hne. }
  rewrite Hdenom, Herr, (mul_pos_infinity rt Hpos) in Hok.
  rewrite (max_infinity_r _ _ Htol eq_refl) in Hok.
  change (leb _ _) with true in Hok.
  rewrite Hok in Hreason. eauto 10.
Qed.

Lemma compare_maps_infinite_passes_witness :
  let base_map := volumes [(("A", 0), hundred)] in
  let new_map := volumes [(("A", 0), inf)] in
  (exists rt, required_rel_tol (match_pct default_cfg) = Ok rt /\
              ltb zero rt = true) /\
  is_nan (abs_tol_mm3 default_cfg) = false /\
  base_map !! ("A", 0) = Some hundred /\ new_map !! ("A", 0) = Some inf /\
  exists diffs d,
    compare_maps base_map new_map default_cfg = Ok diffs /\
    d ∈ diffs /\ key d = ("A", 0) /\ ok d = true /\ reason d = ok_reason.
Proof.
  intros base_map new_map.
  split; [eexists; split; reflexivity|].
  split; [reflexivity|]. split; [reflexivity|]. split; [reflexivity|].
  destruct (compare_maps_infinite_passes base_map new_map default_cfg _
              ("A", 0) hundred inf _
              eq_refl eq_refl eq_refl eq_refl eq_refl eq_refl eq_refl eq_refl)
    as (d & Hin & _ & Hkey & Hok & Hreason).
  { by right. }
  { discriminate. }
  eexists. exists d. split; [reflexivity|]. done.
Defined.

(** ** compare_maps: equal values *)

Lemma sub_diag_finite (v : float) :
  isfinite v = true -> abs (sub v v) = zero.
Proof.
  destruct v as [[]| | |s m e]; try done. intros _.
  unfold sub. cbn [SFsub]. by rewrite Z.sub_diag.
Qed.

Lemma max_diag (a : float) : max a a = a.
Proof. unfold max. by destruct (gtb a a). Qed.

Lemma leb_zero_of_ltb (a p : float) :
  leb zero a = true -> ltb a p = true -> leb zero p = true.
Proof.
  destruct a as [sa|[]| |[] ma ea], p as [sp|[]| |[] mp ep]; done.
Qed.

Lemma leb_zero_max (a p : float) :
  leb zero a = true -> leb zero (max a p) = true.
Proof.
  intros Ha. unfold max, gtb. fold (ltb a p).
  destruct (ltb a p) eqn:Hlt; [|done]. by apply (leb_zero_of_ltb a).
Qed.

(** X8: with an absolute tolerance that is not negative, a key whose
    baseline and new values are the same finite number passes, with
    relative error [0.0]. *)
Theorem compare_maps_equal_passes
    (base_map new_map : gmap SolidKey float) (cfg : CompareConfig)
    (diffs : list SolidDiff) (k : SolidKey) (v : float) :
  compare_maps base_map new_map cfg = Ok diffs ->
  leb zero (abs_tol_mm3 cfg) = true ->
  base_map !! k = Some v -> new_map !! k = Some v -> isfinite v = true ->
  exists d, d ∈ diffs /\ (forall d', d' ∈ diffs -> key d' = k -> d' = d) /\
    key d = k /\ ok d = true /\ reason d = ok_reason /\
    rel_err d = Some zero.
Proof.
  intros Hcmp Htol Hb Hn Hfin.
  destruct (compare_maps_both _ _ _ _ _ _ _ Hcmp Hb Hn)
    as (rt & d & _ & Hin & Huniq & Hkey & Hok & Hreason & Hrel).
  rewrite (sub_diag_finite v Hfin), max_diag in Hok, Hrel.
  rewrite (leb_zero_max _ _ Htol) in Hok. rewrite Hok in Hreason.
  exists d. split; [done|]. split; [done|]. split; [done|].
  split; [done|]. split; [done|]. rewrite Hrel. f_equal.
  by destruct v as [[]| | |s m e].
Qed.

Lemma compare_maps_equal_passes_witness :
  let base_map := volumes [(("A", 0), hundred)] in
  let new_map := volumes [(("A", 0), hundred)] in
  leb zero (abs_tol_mm3 default_cfg) = true /\
  base_map !! ("A", 0) = Some hundred /\
  new_map !! ("A", 0) = Some hundred /\ isfinite hundred = true /\
  exists diffs d,
    compare_maps base_map new_map default_cfg = Ok diffs /\
    d ∈ diffs /\ key d = ("A", 0) /\ ok d = true /\ rel_err d = Some zero.
Proof.
  intros base_map new_map.
  split; [reflexivity|]. split; [reflexivity|]. split; [reflexivity|].
  split; [reflexivity|].
  destruct (compare_maps_equal_passes base_map new_map default_cfg _
              ("A", 0) hundred eq_refl eq_refl eq_refl eq_refl eq_refl)
    as (d & Hin & _ & Hkey & Hok & _ & Hrel).
  eexists. exists d. split; [reflexivity|]. done.
Defined.

(** ** The order of floats *)

Lemma leb_finite_pos (m1 m2 : positive) (e1 e2 : Z) :
  SFleb (S754_finite false m1 e1) (S754_finite false m2 e2) = true
  <-> e1 < e2 \/ (e1 = e2 /\ (m1 <= m2)%positive).
Proof.
  unfold SFleb. cbn [SFcompare].
  rewrite Pos.compare_cont_spec. cbn [Pos.switch_Eq].
  destruct (Z.compare_spec e1 e2) as [->|?|?];
    [destruct (Pos.compare_spec m1 m2)| |];
    split; intros; first [done|lia].
Qed.

Lemma leb_finite_neg (m1 m2 : positive) (e1 e2 : Z) :
  SFleb (S754_finite true m1 e1) (S754_finite true m2 e2) = true
  <-> e2 < e1 \/ (e1 = e2 /\ (m2 <= m1)%positive).
Proof.
  unfold SFleb. cbn [SFcompare].
  rewrite Pos.compare_cont_spec. cbn [Pos.switch_Eq].
  destruct (Z.compare_spec e1 e2) as [->|?|?];
    [destruct (Pos.compare_spec m1 m2)| |];
    cbn [CompOpp]; split; intros; first [done|lia].
Qed.

Lemma leb_trans (x y z : float) :
  leb x y = true -> leb y z = true -> leb x z = true.
Proof.
  unfold leb.
  destruct x as [sx|[]| |[] mx ex], y as [sy|[]| |[] my ey],
           z as [sz|[]| |[] mz ez]; try done.
  - rewrite !leb_finite_neg. lia.
  - rewrite !leb_finite_pos. lia.
Qed.

Lemma leb_refl (x : float) : is_nan x = false -> leb x x = true.
Proof.
  unfold leb. destruct x as [s|[]| |[] m e]; try done; intros _.
  - apply leb_finite_neg. lia.
  - apply leb_finite_pos. lia.
Qed.

Lemma ltb_leb (x y : float) : ltb x y = true -> leb x y = true.
Proof. unfold ltb, leb, SFltb, SFleb. by destruct (SFcompare x y) as [[]|]. Qed.

Lemma leb_not_nan (x y : float) :
  leb x y = true -> is_nan x = false /\ is_nan y = false.
Proof. by destruct x as [| | |], y as [| | |]. Qed.

(** On numbers the order is total. *)
Lemma leb_total (x y : float) :
  is_nan x = false -> is_nan y = false -> ltb x y = false -> leb y x = true.
Proof.
  intros Hx Hy. unfold ltb, leb, SFltb, SFleb. rewrite (SFcompare_antisym y x).
  destruct (SFcompare y x) as [[]|] eqn:Hc; try done.
  by destruct x as [| | |], y as [| | |].
Qed.

Lemma leb_ltb_trans (x y z : float) :
  leb x y = true -> ltb y z = true -> ltb x z = true.
Proof.
  intros Hxy Hyz.
  destruct (ltb x z) eqn:Hxz; [done|].
  destruct (leb_not_nan _ _ Hxy) as [Hx _].
  destruct (leb_not_nan _ _ (ltb_leb _ _ Hyz)) as [_ Hz].
  pose proof (leb_total x z Hx Hz Hxz) as Hzx.
  pose proof (leb_trans _ _ _ Hzx Hxy) as Hzy.
  by rewrite (leb_not_ltb _ _ Hzy) in Hyz.
Qed.

Lemma ltb_leb_trans (x y z : float) :
  ltb x y = true -> leb y z = true -> ltb x z = true.
Proof.
  intros Hxy Hyz.
  destruct (ltb x z) eqn:Hxz; [done|].
  destruct (leb_not_nan _ _ (ltb_leb _ _ Hxy)) as [Hx _].
  destruct (leb_not_nan _ _ Hyz) as [_ Hz].
  pose proof (leb_total x z Hx Hz Hxz) as Hzx.
  pose proof (leb_trans _ _ _ Hyz Hzx) as Hyx.
  by rewrite (leb_not_ltb _ _ Hyx) in Hxy.
Qed.

(** [max] in its first argument. *)
Lemma max_mono_l (a a' p : float) :
  leb a a' = true -> leb (max a p) (max a' p) = true.
Proof.
  intros Ha. destruct (leb_not_nan _ _ Ha) as [Hna Hna'].
  unfold max, gtb. fold (ltb a p). fold (ltb a' p).
  destruct (ltb a p) eqn:H1, (ltb a' p) eqn:H2.
  - apply leb_refl. by destruct (leb_not_nan _ _ (ltb_leb _ _ H1)).
  - apply leb_total; [done| |done].
    by destruct (leb_not_nan _ _ (ltb_leb _ _ H1)).
  - apply ltb_leb. by apply (leb_ltb_trans a a' p).
  - done.
Qed.

(** A threshold [max a p] that an error is within stays above it when
    [p] grows. *)
Lemma within_max_mono_r (err a p p' : float) :
  leb p p' = true -> leb err (max a p) = true -> leb err (max a p') = true.
Proof.
  intros Hp. unfold max, gtb. fold (ltb a p). fold (ltb a p').
  destruct (ltb a p) eqn:H1, (ltb a p') eqn:H2; intros Herr.
  - by apply (leb_trans err p p').
  - by rewrite (ltb_leb_trans a p p' H1 Hp) in H2.
  - apply (leb_trans err a p'); [done|]. by apply ltb_leb.
  - done.
Qed.

(** ** compare_maps: a larger absolute tolerance *)

Lemma compare_key_abs_tol_mono
    (base_map new_map : gmap SolidKey float) (cfg cfg' : CompareConfig)
    (rt : float) (k : SolidKey) :
  leb (abs_tol_mm3 cfg) (abs_tol_mm3 cfg') = true ->
  at_least_as_ok (compare_key base_map new_map cfg rt k)
                 (compare_key base_map new_map cfg' rt k).
Proof.
  intros Htol. unfold at_least_as_ok, compare_key.
  destruct (base_map !! k) as [b|], (new_map !! k) as [n|];
    cbn [key baseline new rel_err ok]; try done.
  repeat split.
  intros Hok. eapply leb_trans; [exact Hok|]. by apply max_mono_l.
Qed.

(** X9: raising the absolute tolerance never turns a passing outcome
    into a failing one: key by key the comparison keeps its values and
    relative error, and what passed still passes. *)
Theorem compare_maps_abs_tol_mono
    (base_map new_map : gmap SolidKey float) (cfg cfg' : CompareConfig)
    (diffs : list SolidDiff) :
  match_pct cfg' = match_pct cfg ->
  leb (abs_tol_mm3 cfg) (abs_tol_mm3 cfg') = true ->
  compare_maps base_map new_map cfg = Ok diffs ->
  exists diffs', compare_maps base_map new_map cfg' = Ok diffs' /\
    Forall2 at_least_as_ok diffs diffs'.
Proof.
  intros Hpct Htol (rt & Hrt & ->)%compare_maps_Ok.
  exists (compare_key base_map new_map cfg' rt
            <$> sorted (elements (dom base_map ∪ dom new_map))).
  split.
  - unfold compare_maps. rewrite Hpct, Hrt. simpl. by rewrite diffs_loop_fmap.
  - apply Forall2_fmap, Forall_Forall2_diag, Forall_forall.
    intros k _. by apply compare_key_abs_tol_mono.
Qed.

Lemma compare_maps_abs_tol_mono_witness :
  let base_map := volumes [(("A", 0), hundred)] in
  let new_map := volumes [(("A", 0), of_ratio 1005 10)] in
  let cfg' := {| match_pct := of_ratio 99999 1000; abs_tol_mm3 := one |} in
  match_pct cfg' = match_pct default_cfg /\
  leb (abs_tol_mm3 default_cfg) (abs_tol_mm3 cfg') = true /\
  exists diffs diffs',
    compare_maps base_map new_map default_cfg = Ok diffs /\
    compare_maps base_map new_map cfg' = Ok diffs' /\
    Forall2 at_least_as_ok diffs diffs' /\
    ok <$> diffs = [false] /\ ok <$> diffs' = [true].
Proof.
  intros base_map new_map cfg'. split; [reflexivity|]. split; [reflexivity|].
  destruct (compare_maps_abs_tol_mono base_map new_map default_cfg cfg' _
              eq_refl eq_refl eq_refl) as (diffs' & Heq & Hall).
  eexists. eexists. split; [reflexivity|]. split; [reflexivity|].
  split; [|split; reflexivity].
  vm_compute in Heq. injection Heq as <-. exact Hall.
Defined.

(** ** compare_maps: baseline and new exchanged *)

Lemma abs_binary_round_aux (s : bool) (m e : Z) (l : location) :
  SFabs (binary_round_aux prec emax s m e l)
  = SFabs (binary_round_aux prec emax false m e l).
Proof.
  unfold binary_round_aux.
  destruct (shr_fexp prec emax m e l) as [mrs e'].
  destruct (shr_fexp prec emax _ e' loc_Exact) as [mrs' e''].
  destruct (shr_m mrs'); try done. by destruct (e'' <=? _).
Qed.

Lemma abs_binary_normalize_opp (z e : Z) :
  SFabs (binary_normalize prec emax (- z) e false)
  = SFabs (binary_normalize prec emax z e false).
Proof.
  destruct z as [|p|p]; [done| |].
  - change (- Z.pos p) with (Z.neg p). unfold binary_normalize, binary_round.
    destruct (shl_align _ _ _) as [mz ez]. apply abs_binary_round_aux.
  - change (- Z.neg p) with (Z.pos p). unfold binary_normalize, binary_round.
    destruct (shl_align _ _ _) as [mz ez]. symmetry. apply abs_binary_round_aux.
Qed.

Lemma abs_sub_swap (x y : float) : abs (sub x y) = abs (sub y x).
Proof.
  unfold abs, sub.
  destruct x as [sx|sx| |sx mx ex], y as [sy|sy| |sy my ey];
    try done; try (by destruct sx, sy).
  cbn [SFsub]. rewrite (Z.min_comm ey ex).
  rewrite <- abs_binary_normalize_opp. by rewrite Z.opp_sub_distr, Z.add_comm,
    Z.add_opp_r.
Qed.

Lemma compare_abs_Eq (x y : float) :
  SFcompare (abs x) (abs y) = Some Eq -> abs x = abs y.
Proof.
  destruct x as [sx|sx| |sx mx ex], y as [sy|sy| |sy my ey]; try done.
  cbn [abs SFabs SFcompare]. rewrite Pos.compare_cont_spec. cbn [Pos.switch_Eq].
  destruct (Z.compare_spec ex ey) as [->|?|?]; try done.
  destruct (Pos.compare_spec mx my) as [->|?|?]; done.
Qed.

Lemma max_abs_comm (x y : float) :
  is_nan x = false -> is_nan y = false ->
  max (abs x) (abs y) = max (abs y) (abs x).
Proof.
  intros Hx Hy. unfold max, gtb, SFltb.
  rewrite (SFcompare_antisym (abs y) (abs x)).
  destruct (SFcompare (abs y) (abs x)) as [[]|] eqn:Hc; try done.
  - symmetry. by apply compare_abs_Eq.
  - by destruct x as [| | |], y as [| | |].
Qed.

Lemma compare_key_swap
    (base_map new_map : gmap SolidKey float) (cfg : CompareConfig)
    (rt : float) (k : SolidKey) :
  k ∈ dom base_map ∪ dom new_map ->
  swapped (compare_key base_map new_map cfg rt k)
          (compare_key new_map base_map cfg rt k).
Proof.
  intros Hk. apply elem_of_union in Hk. rewrite !elem_of_dom in Hk.
  unfold swapped, compare_key.
  destruct (base_map !! k) as [b|] eqn:Hb, (new_map !! k) as [n|] eqn:Hn;
    cbn [key baseline new rel_err ok reason swap_reason]; try done.
  - rewrite (abs_sub_swap b n).
    destruct (is_nan b) eqn:Hnb; [|destruct (is_nan n) eqn:Hnn].
    + rewrite (sub_nan n b) by (by right). done.
    + rewrite (sub_nan n b) by (by left). done.
    + rewrite (max_abs_comm n b) by done. by destruct (leb _ _).
  - destruct Hk as [[]%is_Some_None|[]%is_Some_None].
Qed.

(** X10: exchanging the baseline map and the new map gives the outcomes
    of the same keys in the same order; each passes exactly when it
    passed before, and [missing_in_baseline] and [missing_in_new] trade
    places. *)
Theorem compare_maps_swap
    (base_map new_map : gmap SolidKey float) (cfg : CompareConfig)
    (diffs : list SolidDiff) :
  compare_maps base_map new_map cfg = Ok diffs ->
  exists diffs', compare_maps new_map base_map cfg = Ok diffs' /\
    Forall2 swapped diffs diffs'.
Proof.
  intros (rt & Hrt & ->)%compare_maps_Ok.
  exists (compare_key new_map base_map cfg rt
            <$> sorted (elements (dom base_map ∪ dom new_map))).
  split.
  - unfold compare_maps. rewrite Hrt. simpl.
    by rewrite diffs_loop_fmap, (union_comm_L (dom new_map)).
  - apply Forall2_fmap, Forall_Forall2_diag, Forall_forall.
    intros k Hk. apply compare_key_swap. by apply elem_of_sorted.
Qed.

Lemma compare_maps_swap_witness :
  let base_map := volumes [(("A", 0), hundred); (("B", 0), one)] in
  let new_map := volumes [(("A", 0), of_ratio 1005 10)] in
  exists diffs diffs',
    compare_maps base_map new_map default_cfg = Ok diffs /\
    compare_maps new_map base_map default_cfg = Ok diffs' /\
    Forall2 swapped diffs diffs' /\
    reason <$> diffs = [volume_mismatch; missing_in_new] /\
    reason <$> diffs' = [volume_mismatch; missing_in_baseline].
Proof.
  intros base_map new_map.
  destruct (compare_maps_swap base_map new_map default_cfg _ eq_refl)
    as (diffs' & Heq & Hall).
  eexists. eexists. split; [reflexivity|]. split; [reflexivity|].
  split; [|split; reflexivity].
  vm_compute in Heq. injection Heq as <-. exact Hall.
Defined.

(** ** Multiplication as a rounding *)

Lemma Zdigits2_div_pow2 (q k : Z) :
  0 <= k -> 2 ^ k <= q -> Zdigits2 (q / 2 ^ k) = Zdigits2 q - k.
Proof.
  intros Hk Hq.
  pose proof (Z.pow_pos_nonneg 2 k ltac:(lia) Hk) as Hp.
  pose proof (Zdigits2_bounds q ltac:(lia)) as [Hlo Hhi].
  pose proof (Zdigits2_ge_pow q k Hk Hq) as Hd.
  apply Zdigits2_unique; [|lia]. split.
  - apply Z.div_le_lower_bound; [done|].
    rewrite <- Z.pow_add_r by lia.
    by replace (k + (Zdigits2 q - k - 1)) with (Zdigits2 q - 1) by lia.
  - apply Z.div_lt_upper_bound; [done|].
    rewrite <- Z.pow_add_r by lia.
    by replace (k + (Zdigits2 q - k)) with (Zdigits2 q) by lia.
Qed.

Section MulRounding.

Variables prec emax : Z.
Hypothesis Hprec : 0 < prec.

Local Abbreviation emin := (SpecFloat.emin prec emax).
Local Abbreviation fexp := (SpecFloat.fexp prec emax).
Local Abbreviation finish := (finish prec emax).
Local Abbreviation jexp := (jexp prec).
Local Abbreviation rmant := (rmant prec).
Local Abbreviation rnd := (rnd prec emax).
Local Abbreviation rval := (rval prec).
Local Abbreviation val := (val prec emax).
Local Abbreviation nonneg_canonical := (nonneg_canonical prec emax).

(** A common factor of numerator and denominator does not change the
    rounding. *)
Lemma rnd_scale (sx : bool) (A B c : Z) :
  0 < B -> 0 < c -> rnd sx (A * c) (B * c) = rnd sx A B.
Proof.
  intros HB Hc. unfold rnd, rmant, jexp.
  rewrite Z.div_mul_cancel_r by lia.
  set (j := Z.max (Zdigits2 (A / B) - prec) 0).
  pose proof (Z.pow_pos_nonneg 2 j ltac:(lia) ltac:(lia)) as Hp.
  replace (B * c * 2 ^ j) with (B * 2 ^ j * c) by ring.
  rewrite Z.div_mul_cancel_r, Z.mul_mod_distr_r, loc_of_rem_scale
    by first [lia|nia].
  done.
Qed.

(** [binary_round_aux] on a located quotient whose exponent is not above
    the least one rounds the value it locates. *)
Lemma binary_round_aux_rnd_low (sx : bool) (N D e : Z) :
  0 <= N -> 0 < D -> e <= emin ->
  binary_round_aux prec emax sx (N / D) e (loc_of_rem (N mod D) D)
  = rnd sx N (D * 2 ^ (emin - e)).
Proof.
  intros HN HD He.
  pose proof (fexp_ge_emin prec emax (Zdigits2 (N / D) + e)) as Hfe.
  rewrite (binary_round_aux_located prec emax) by first [done|lia].
  set (n := fexp (Zdigits2 (N / D) + e) - e).
  set (k := emin - e).
  assert (0 <= k) as Hk by (unfold k; lia).
  pose proof (Z.pow_pos_nonneg 2 k ltac:(lia) Hk) as Hp.
  assert (0 <= N / D) as Hq by (apply Z.div_pos; lia).
  assert (jexp N (D * 2 ^ k) = n - k) as Hj.
  { unfold jexp. rewrite <- Z.div_div by lia.
    destruct (Z.lt_ge_cases (N / D) (2 ^ k)) as [Hsmall|Hbig].
    - rewrite Z.div_small by lia.
      pose proof (Zdigits2_lt_pow (N / D) k Hq Hk Hsmall).
      unfold n, k, SpecFloat.fexp. simpl Zdigits2. lia.
    - rewrite Zdigits2_div_pow2 by done.
      unfold n, k, SpecFloat.fexp. lia. }
  unfold rnd, rmant. rewrite Hj.
  replace (D * 2 ^ k * 2 ^ (n - k)) with (D * 2 ^ n).
  - f_equal. unfold k. lia.
  - rewrite <- Z.mul_assoc, <- Z.pow_add_r by (unfold n, k in *; lia).
    f_equal. f_equal. lia.
Qed.

(** [binary_round_aux] on an integer mantissa that is long enough for
    its exponent rounds the number it denotes, written as a fraction of
    powers of two in units of [2 ^ emin]. *)
Lemma binary_round_aux_exact (sx : bool) (m : positive) (e a b : Z) :
  0 <= a -> 0 <= b -> a - b = e - emin ->
  e <= fexp (Zdigits2 (Z.pos m) + e) ->
  binary_round_aux prec emax sx (Z.pos m) e loc_Exact
  = rnd sx (Z.pos m * 2 ^ a) (2 ^ b).
Proof.
  intros Ha Hb Hab Hlong.
  pose proof (Z.pow_pos_nonneg 2 a ltac:(lia) Ha) as Hpa.
  pose proof (Z.pow_pos_nonneg 2 b ltac:(lia) Hb) as Hpb.
  replace (binary_round_aux prec emax sx (Z.pos m) e loc_Exact)
    with (binary_round_aux prec emax sx (Z.pos m / 1) e
            (loc_of_rem (Z.pos m mod 1) 1))
    by (by rewrite Z.div_1_r, Z.mod_1_r).
  destruct (Z.le_gt_cases emin e) as [He|He].
  - rewrite (binary_round_aux_rnd prec emax Hprec)
      by (rewrite ?Z.div_1_r; lia).
    rewrite <- (rnd_scale sx _ 1 (2 ^ b)) by lia.
    f_equal; [|lia].
    rewrite <- Z.mul_assoc, <- Z.pow_add_r by lia. f_equal. f_equal. lia.
  - rewrite binary_round_aux_rnd_low by lia.
    rewrite <- (rnd_scale sx _ _ (2 ^ a)) by lia.
    f_equal. rewrite Z.mul_1_l, <- Z.pow_add_r by lia. f_equal. lia.
Qed.

(** The product of two canonical floats is the rounding of the exact
    product. *)
Lemma SFmul_finite_rnd (sx sy : bool) (mx my : positive) (ex ey : Z) :
  emin <= 0 ->
  canonical_mantissa prec emax mx ex = true ->
  canonical_mantissa prec emax my ey = true ->
  SFmul prec emax (S754_finite sx mx ex) (S754_finite sy my ey)
  = rnd (xorb sx sy)
        (val (S754_finite sx mx ex) * Z.pos my * 2 ^ Z.max ey 0)
        (2 ^ Z.max (- ey) 0).
Proof.
  intros Hemin (Hex & Hdx & Hnx)%canonical_mantissa_iff
         (Hey & Hdy & Hny)%canonical_mantissa_iff.
  cbn [SFmul val].
  rewrite (binary_round_aux_exact _ _ _
             (ex - emin + Z.max ey 0) (Z.max (- ey) 0)) by first
    [ lia
    | (* the mantissa is long enough *)
      unfold SpecFloat.fexp;
      destruct (Z.eq_dec ex emin) as [Hxe|Hxe];
        [destruct (Z.eq_dec ey emin) as [Hye|Hye]; [lia|]|];
      [ assert (Zdigits2 (Z.pos my) = prec) as Hd by lia;
        pose proof (Zdigits2_bounds (Z.pos my) ltac:(lia)) as [Hlo _];
        rewrite Hd in Hlo;
        pose proof (Zdigits2_ge_pow (Z.pos (mx * my)) (prec - 1) ltac:(lia)
                      ltac:(nia)); lia
      | assert (Zdigits2 (Z.pos mx) = prec) as Hd by lia;
        pose proof (Zdigits2_bounds (Z.pos mx) ltac:(lia)) as [Hlo _];
        rewrite Hd in Hlo;
        pose proof (Zdigits2_ge_pow (Z.pos (mx * my)) (prec - 1) ltac:(lia)
                      ltac:(nia)); lia ] ].
  f_equal. rewrite Z.pow_add_r by lia. rewrite Pos2Z.inj_mul. ring.
Qed.

(** Rounding does not change the order. *)
Lemma rnd_mono (A1 A2 B : Z) :
  0 <= A1 <= A2 -> 0 < B ->
  SFleb (rnd false A1 B) (rnd false A2 B) = true.
Proof.
  intros HA HB.
  pose proof (rval_mono prec Hprec A1 A2 B HA HB) as Hle.
  destruct (rnd_spec prec emax Hprec false A1 B ltac:(lia) HB)
    as [[Hv1 ->]|(m1 & e1 & Hv1 & Hc1 & ->)];
    destruct (rnd_spec prec emax Hprec false A2 B ltac:(lia) HB)
    as [[Hv2 ->]|(m2 & e2 & Hv2 & Hc2 & ->)].
  - done.
  - by destruct (e2 <=? emax - prec).
  - apply (canonical_mantissa_iff prec emax) in Hc1 as (He1 & _).
    pose proof (val_pos prec emax Hprec false m1 e1 He1) as Hpos.
    cbn [val] in Hpos. lia.
  - assert (SFleb (S754_finite false m1 e1) (S754_finite false m2 e2) = true)
      as Hfin.
    { unfold SFleb. rewrite (compare_canonical prec emax Hprec) by done.
      cbn [val]. rewrite Hv1, Hv2.
      by destruct (Z.compare_spec (rval A1 B) (rval A2 B)); try lia. }
    pose proof Hfin as He. apply leb_finite_pos in He.
    destruct (Z.leb_spec e1 (emax - prec)), (Z.leb_spec e2 (emax - prec));
      try done. lia.
Qed.

Lemma SFmul_mono (x1 x2 : spec_float) (md : positive) (ed : Z) :
  emin <= 0 ->
  nonneg_canonical x1 -> nonneg_canonical x2 -> SFleb x1 x2 = true ->
  canonical_mantissa prec emax md ed = true ->
  SFleb (SFmul prec emax x1 (S754_finite false md ed))
        (SFmul prec emax x2 (S754_finite false md ed)) = true.
Proof.
  intros Hemin Hc1 Hc2 Hle Hcd.
  pose proof (val_of_leb prec emax Hprec x1 x2 Hc1 Hc2 Hle) as Hval.
  pose proof (val_nonneg prec emax x1) as Hnn.
  pose proof (Z.pow_pos_nonneg 2 (Z.max ed 0) ltac:(lia) ltac:(lia)) as Hp.
  pose proof (Z.pow_pos_nonneg 2 (Z.max (- ed) 0) ltac:(lia) ltac:(lia)) as Hq.
  destruct x1 as [s1| | |[] m1 e1]; try done;
    destruct x2 as [s2| | |[] m2 e2]; try done.
  - rewrite SFmul_finite_rnd by done. cbn [SFmul xorb].
    destruct (rnd_spec prec emax Hprec false
                (val (S754_finite false m2 e2) * Z.pos md * 2 ^ Z.max ed 0)
                (2 ^ Z.max (- ed) 0))
      as [[_ ->]|(m & e & _ & _ & ->)].
    + pose proof (val_nonneg prec emax (S754_finite false m2 e2)).
      apply Z.mul_nonneg_nonneg; [|lia]. apply Z.mul_nonneg_nonneg; lia.
    + exact Hq.
    + by destruct s1.
    + by destruct s1, (e <=? emax - prec).
  - rewrite !SFmul_finite_rnd by done. cbn [xorb].
    apply rnd_mono; [|exact Hq]. split.
    + apply Z.mul_nonneg_nonneg; [|lia]. apply Z.mul_nonneg_nonneg; lia.
    + apply Z.mul_le_mono_nonneg_r; [lia|].
      apply Z.mul_le_mono_nonneg_r; lia.
Qed.

End MulRounding.

(** ** required_rel_tol: the range of the result *)

(** X11: for a binary64 percentage in (0, 100] the relative tolerance is
    a finite number from [0.0] to [1.0]. *)
Theorem required_rel_tol_range (m : float) :
  valid m = true -> ltb zero m = true -> leb m hundred = true ->
  exists r, required_rel_tol m = Ok r /\
    isfinite r = true /\ leb zero r = true /\ leb r one = true.
Proof.
  intros Hv H0 H100. exists (sub one (div m hundred)).
  split; [by apply required_rel_tol_in_range|].
  destruct (rel_tol_rounding m Hv H0 H100) as (Hc & _ & Hle).
  split; [|split].
  - by destruct (sub one (div m hundred)) as [|[]| |[] ? ?].
  - by destruct (sub one (div m hundred)) as [|[]| |[] ? ?].
  - apply (leb_of_val prec emax prec_pos); [done|done|].
    fold (units (sub one (div m hundred))). fold (units one).
    by rewrite units_one.
Qed.

Lemma required_rel_tol_range_witness :
  valid (of_ratio 99999 1000) = true /\
  ltb zero (of_ratio 99999 1000) = true /\
  leb (of_ratio 99999 1000) hundred = true /\
  exists r, required_rel_tol (of_ratio 99999 1000) = Ok r /\
    isfinite r = true /\ leb zero r = true /\ leb r one = true.
Proof.
  split; [reflexivity|]. split; [reflexivity|]. split; [reflexivity|].
  apply (required_rel_tol_range (of_ratio 99999 1000)); reflexivity.
Defined.

(** ** compare_maps: a lower match percentage *)

Lemma emin_nonpos : SpecFloat.emin prec emax <= 0.
Proof. done. Qed.

Lemma valid_abs (v : float) : valid v = true -> valid (abs v) = true.
Proof. by destruct v. Qed.

Lemma max_cases (a b : float) : max a b = a \/ max a b = b.
Proof. unfold max. destruct (gtb b a); auto. Qed.

(** The product of the relative tolerance and a binary64 that is not
    negative does not decrease when the tolerance grows, where it is a
    number at all. *)
Lemma mul_mono_l (rt1 rt2 d : float) :
  nonneg_canonical prec emax rt1 -> nonneg_canonical prec emax rt2 ->
  leb rt1 rt2 = true -> valid d = true ->
  is_nan (mul rt1 (abs d)) = true \/
  leb (mul rt1 (abs d)) (mul rt2 (abs d)) = true.
Proof.
  intros Hc1 Hc2 Hle Hv.
  destruct d as [sd|sd| |sd md ed]; cbn [abs SFabs].
  - right. destruct rt1 as [|[]| |[] ? ?], rt2 as [|[]| |[] ? ?]; done.
  - destruct rt1 as [s1| | |[] m1 e1]; try done; [by left|].
    right. by destruct rt2 as [s2| | |[] m2 e2].
  - left. by destruct rt1 as [| | |].
  - right. apply (SFmul_mono prec emax prec_pos);
      [apply emin_nonpos|exact Hc1|exact Hc2|exact Hle|].
    unfold valid in Hv. simpl in Hv. unfold bounded in Hv.
    by apply andb_true_iff in Hv as [? _].
Qed.

Lemma within_max_grow (err a p p' : float) :
  is_nan p = true \/ leb p p' = true ->
  leb err (max a p) = true -> leb err (max a p') = true.
Proof.
  intros [Hnan|Hle]; [|by apply within_max_mono_r].
  destruct p; try done.
  assert (max a S754_nan = a) as -> by (by destruct a as [| | |]).
  intros Herr. unfold max, gtb. fold (ltb a p').
  destruct (ltb a p') eqn:Hlt; [|done].
  apply (leb_trans err a p'); [done|]. by apply ltb_leb.
Qed.

Lemma compare_key_rel_tol_mono
    (base_map new_map : gmap SolidKey float) (cfg cfg' : CompareConfig)
    (rt rt' : float) (k : SolidKey) :
  abs_tol_mm3 cfg' = abs_tol_mm3 cfg ->
  nonneg_canonical prec emax rt -> nonneg_canonical prec emax rt' ->
  leb rt rt' = true ->
  map_Forall (fun _ v => valid v = true) base_map ->
  map_Forall (fun _ v => valid v = true) new_map ->
  at_least_as_ok (compare_key base_map new_map cfg rt k)
                 (compare_key base_map new_map cfg' rt' k).
Proof.
  intros Htol Hc Hc' Hle Hvb Hvn. unfold at_least_as_ok, compare_key.
  destruct (base_map !! k) as [b|] eqn:Hb, (new_map !! k) as [n|] eqn:Hn;
    cbn [key baseline new rel_err ok]; try done.
  repeat split. rewrite Htol.
  apply within_max_grow.
  destruct (max_cases (abs b) (abs n)) as [-> | ->].
  - apply mul_mono_l; try done. exact (Hvb k b Hb).
  - apply mul_mono_l; try done. exact (Hvn k n Hn).
Qed.

(** X12: lowering the required match percentage never turns a passing
    outcome into a failing one.  For binary64 volumes and two
    percentages in (0, 100], the comparison at the lower percentage
    keeps, key by key, the values and the relative error, and what
    passed at the higher percentage still passes. *)
Theorem compare_maps_match_pct_mono
    (base_map new_map : gmap SolidKey float) (cfg cfg' : CompareConfig)
    (diffs : list SolidDiff) :
  abs_tol_mm3 cfg' = abs_tol_mm3 cfg ->
  valid (match_pct cfg) = true -> valid (match_pct cfg') = true ->
  ltb zero (match_pct cfg') = true ->
  leb (match_pct cfg') (match_pct cfg) = true ->
  map_Forall (fun _ v => valid v = true) base_map ->
  map_Forall (fun _ v => valid v = true) new_map ->
  compare_maps base_map new_map cfg = Ok diffs ->
  exists diffs', compare_maps base_map new_map cfg' = Ok diffs' /\
    Forall2 at_least_as_ok diffs diffs'.
Proof.
  intros Htol Hv Hv' H0' Hle Hvb Hvn (rt & Hrt & ->)%compare_maps_Ok.
  apply required_rel_tol_Ok in Hrt as (H0 & H100 & ->).
  assert (leb (match_pct cfg') hundred = true) as H100'
    by (by apply (leb_trans _ (match_pct cfg))).
  destruct (rel_tol_rounding _ Hv H0 H100) as (Hc & _).
  destruct (rel_tol_rounding _ Hv' H0' H100') as (Hc' & _).
  eexists. split; [by apply compare_maps_in_range|].
  apply Forall2_fmap, Forall_Forall2_diag, Forall_forall.
  intros k _. apply compare_key_rel_tol_mono; try done.
  by apply rel_tol_monotone.
Qed.

Lemma compare_maps_match_pct_mono_witness :
  let base_map := volumes [(("A", 0), hundred)] in
  let new_map := volumes [(("A", 0), of_ratio 1005 10)] in
  let cfg' := {| match_pct := of_ratio 99 1;
                 abs_tol_mm3 := of_ratio 1 1000000000 |} in
  abs_tol_mm3 cfg' = abs_tol_mm3 default_cfg /\
  valid (match_pct default_cfg) = true /\ valid (match_pct cfg') = true /\
  ltb zero (match_pct cfg') = true /\
  leb (match_pct cfg') (match_pct default_cfg) = true /\
  map_Forall (fun _ v => valid v = true) base_map /\
  map_Forall (fun _ v => valid v = true) new_map /\
  exists diffs diffs',
    compare_maps base_map new_map default_cfg = Ok diffs /\
    compare_maps base_map new_map cfg' = Ok diffs' /\
    Forall2 at_least_as_ok diffs diffs' /\
    ok <$> diffs = [false] /\ ok <$> diffs' = [true].
Proof.
  intros base_map new_map cfg'.
  assert (map_Forall (fun _ v => valid v = true) base_map) as Hvb
    by (apply map_Forall_insert_2; [reflexivity|apply map_Forall_empty]).
  assert (map_Forall (fun _ v => valid v = true) new_map) as Hvn
    by (apply map_Forall_insert_2; [reflexivity|apply map_Forall_empty]).
  repeat (split; [reflexivity|]). split; [exact Hvb|]. split; [exact Hvn|].
  destruct (compare_maps_match_pct_mono base_map new_map default_cfg cfg' _
              eq_refl eq_refl eq_refl eq_refl eq_refl Hvb Hvn eq_refl)
    as (diffs' & Heq & Hall).
  eexists. eexists. split; [reflexivity|]. split; [reflexivity|].
  split; [|split; reflexivity].
  vm_compute in Heq. injection Heq as <-. exact Hall.
Defined.

(** ** float(n): when it overflows *)

Lemma abs_rnd (sx : bool) (A B : Z) :
  SFabs (rnd prec emax sx A B) = SFabs (rnd prec emax false A B).
Proof.
  unfold rnd, finish.
  destruct (shr_fexp prec emax _ _ loc_Exact) as [mrs e'].
  destruct (shr_m mrs); try done. by destruct (e' <=? _).
Qed.

(** The least integer that [float] rounds to [2 ^ 1024]. *)
Lemma rnd_threshold :
  rnd prec emax false ((2 ^ 1024 - 2 ^ 970) * ONE) 1 = S754_infinity false /\
  rnd prec emax false ((2 ^ 1024 - 2 ^ 970 - 1) * ONE) 1
  = S754_finite false 9007199254740991 971.
Proof. split; vm_compute; reflexivity. Qed.

Lemma rnd_infinite_above (A0 A : Z) :
  0 <= A0 <= A -> rnd prec emax false A0 1 = S754_infinity false ->
  rnd prec emax false A 1 = S754_infinity false.
Proof.
  intros HA Hinf.
  pose proof (rnd_mono prec emax prec_pos A0 A 1 HA eq_refl) as Hle.
  rewrite Hinf in Hle.
  by destruct (rnd prec emax false A 1) as [|[]| |].
Qed.

Lemma rnd_finite_below (A A1 : Z) (m : positive) (e : Z) :
  0 <= A <= A1 -> rnd prec emax false A1 1 = S754_finite false m e ->
  rnd prec emax false A 1 <> S754_infinity false.
Proof.
  intros HA Hfin Hinf.
  pose proof (rnd_mono prec emax prec_pos A A1 1 HA eq_refl) as Hle.
  by rewrite Hfin, Hinf in Hle.
Qed.

Lemma rnd_infinity_sign (sx s : bool) (A B : Z) :
  rnd prec emax sx A B = S754_infinity s ->
  rnd prec emax false A B = S754_infinity false.
Proof.
  unfold rnd, finish.
  destruct (shr_fexp prec emax _ _ loc_Exact) as [mrs e'].
  destruct (shr_m mrs); try done. by destruct (e' <=? _).
Qed.

Lemma rnd_infinity_any_sign (sx : bool) (A B : Z) :
  rnd prec emax false A B = S754_infinity false ->
  rnd prec emax sx A B = S754_infinity sx.
Proof.
  unfold rnd, finish.
  destruct (shr_fexp prec emax _ _ loc_Exact) as [mrs e'].
  destruct (shr_m mrs); try done. by destruct (e' <=? _).
Qed.

Lemma rnd_overflow_iff (sx : bool) (p : positive) :
  (exists s, rnd prec emax sx (Z.pos p * ONE) 1 = S754_infinity s)
  <-> 2 ^ 1024 - 2 ^ 970 <= Z.pos p.
Proof.
  destruct rnd_threshold as [Hinf Hfin].
  assert (0 <= ONE) as HONE by (apply Z.pow_nonneg; lia).
  split.
  - intros [s Hs%rnd_infinity_sign].
    destruct (Z.le_gt_cases (2 ^ 1024 - 2 ^ 970) (Z.pos p)) as [Hge|Hlt];
      [exact Hge|].
    assert (0 <= Z.pos p * ONE <= (2 ^ 1024 - 2 ^ 970 - 1) * ONE) as HA.
    { split; [lia|]. apply Z.mul_le_mono_nonneg_r; lia. }
    destruct (rnd_finite_below _ _ _ _ HA Hfin Hs).
  - intros Hge. exists sx. apply rnd_infinity_any_sign.
    apply (rnd_infinite_above ((2 ^ 1024 - 2 ^ 970) * ONE)); [|exact Hinf].
    split; [|apply Z.mul_le_mono_nonneg_r; lia].
    apply Z.mul_nonneg_nonneg; [|lia].
    pose proof (Z.pow_lt_mono_r 2 970 1024). lia.
Qed.

Lemma binary_normalize_rnd (n : Z) :
  n <> 0 ->
  binary_normalize prec emax n 0 false
  = rnd prec emax (n <? 0) (Z.pos (Z.to_pos (Z.abs n)) * ONE) 1.
Proof.
  intros Hn. destruct n as [|p|p]; [done| |]; cbn [binary_normalize];
    rewrite (binary_round_rnd prec emax prec_pos) by done; done.
Qed.

Lemma of_int_raises_iff (n : Z) :
  of_int n = Raise OverflowError <-> 2 ^ 1024 - 2 ^ 970 <= Z.abs n.
Proof.
  destruct (Z.eq_dec n 0) as [->|Hn];
    [split; [done|intros H; by vm_compute in H]|].
  unfold of_int. rewrite binary_normalize_rnd by done.
  rewrite <- (Z2Pos.id (Z.abs n)) at 2 by lia.
  rewrite <- (rnd_overflow_iff (n <? 0)).
  destruct (rnd prec emax _ _ 1) as [|s| |]; split; try done;
    try (by intros [? ?]). eauto.
Qed.

Lemma of_int_raises_only (n : Z) (e : exn) :
  of_int n = Raise e -> e = OverflowError.
Proof.
  unfold of_int.
  by destruct (binary_normalize prec emax n 0 false); intros [= <-].
Qed.

(** X13: [float(n)] on an integer raises exactly when [n] is, in
    absolute value, at least [2 ^ 1024 - 2 ^ 970], the first integer that
    rounds to [2 ^ 1024]; the exception is [OverflowError]. *)
Theorem of_int_overflow_iff (n : Z) :
  (of_int n = Raise OverflowError <-> 2 ^ 1024 - 2 ^ 970 <= Z.abs n) /\
  (forall e, of_int n = Raise e -> e = OverflowError).
Proof. split; [apply of_int_raises_iff|apply of_int_raises_only]. Qed.

(** ** extract_volumes: what the map holds *)

Lemma solid_entry_number (obj_name : string) (s : json) (k : SolidKey)
    (vol : json) :
  solid_entry obj_name s = Some (k, vol) -> is_number vol = true.
Proof.
  unfold solid_entry. destruct s as [| | | | | |sd]; try done.
  destruct (get_default sd "metrics" (JDict [])) as [| | | | | |md]; try done.
  destruct (as_str _) as [name|]; [|done].
  destruct (as_int _) as [i|]; [|done].
  destruct (is_number _) eqn:Hnum; [|done]. by intros [= _ <-].
Qed.

Lemma py_float_number_raises (vol : json) (e : exn) :
  is_number vol = true -> py_float vol = Raise e ->
  e = OverflowError /\
  exists n, vol = JInt n /\ 2 ^ 1024 - 2 ^ 970 <= Z.abs n.
Proof.
  destruct vol as [|b|n|f|s|l|kvs]; try done. intros _ Hn. simpl in Hn.
  pose proof (of_int_raises_only n e Hn) as ->. split; [done|].
  exists n. split; [done|]. by apply of_int_raises_iff.
Qed.

(** A value in the result was in the map before, or is the float of the
    volume of a solid of the list stored under its key. *)
Lemma entries_loop_lookup (entries : list (string * json))
    (out m : gmap SolidKey float) (k : SolidKey) (v : float) :
  entries_loop entries out = Ok m -> m !! k = Some v ->
  out !! k = Some v \/
  exists name s vol, (name, s) ∈ entries /\
    solid_entry name s = Some (k, vol) /\ py_float vol = Ok v.
Proof.
  revert out.
  induction entries as [|[name s] entries IH]; intros out; simpl.
  - intros [= ->] Hk. by left.
  - rewrite solid_step_entry. intros Hloop Hk.
    assert (forall out',
              entries_loop entries out' = Ok m ->
              out' !! k = Some v \/
              exists name' s' vol, (name', s') ∈ (name, s) :: entries /\
                solid_entry name' s' = Some (k, vol) /\ py_float vol = Ok v)
      as Hrest.
    { intros out' Hout'.
      destruct (IH out' Hout' Hk) as [?|(name' & s' & vol & Hin & ? & ?)];
        [by left|right].
      exists name', s', vol. split; [by right|done]. }
    destruct (solid_entry name s) as [[k' vol]|] eqn:Hentry;
      simpl in Hloop; [|by apply Hrest].
    destruct (py_float vol) as [v'|e] eqn:Hvol; simpl in Hloop; [|done].
    destruct (Hrest _ Hloop) as [Hins|?]; [|by right].
    apply lookup_insert_Some in Hins as [[<- <-]|[_ ?]]; [|by left].
    right. exists name, s, vol. split; [by left|done].
Qed.

(** A key of the map stays a key. *)
Lemma entries_loop_keeps (entries : list (string * json))
    (out m : gmap SolidKey float) (k : SolidKey) :
  entries_loop entries out = Ok m -> is_Some (out !! k) -> is_Some (m !! k).
Proof.
  revert out.
  induction entries as [|[name s] entries IH]; intros out; simpl.
  - by intros [= ->].
  - rewrite solid_step_entry. intros Hloop Hk.
    destruct (solid_entry name s) as [[k' vol]|]; simpl in Hloop;
      [|by apply (IH out)].
    destruct (py_float vol) as [v'|e]; simpl in Hloop; [|done].
    apply (IH _ Hloop). rewrite lookup_insert_is_Some. 
    destruct (decide (k' = k)); auto.
Qed.

(** A solid of the list that is stored under a key makes it a key. *)
Lemma entries_loop_stores (entries : list (string * json))
    (out m : gmap SolidKey float) (name : string) (s vol : json)
    (k : SolidKey) :
  entries_loop entries out = Ok m -> (name, s) ∈ entries ->
  solid_entry name s = Some (k, vol) -> is_Some (m !! k).
Proof.
  revert out.
  induction entries as [|[name' s'] entries IH]; intros out; simpl.
  - intros _ Hin. by apply elem_of_nil in Hin.
  - rewrite solid_step_entry. intros Hloop Hin Hentry.
    apply elem_of_cons in Hin as [[= <- <-]|Hin].
    + rewrite Hentry in Hloop. simpl in Hloop.
      destruct (py_float vol) as [v|e]; simpl in Hloop; [|done].
      apply (entries_loop_keeps _ _ _ _ Hloop).
      rewrite lookup_insert_eq. eauto.
    + destruct (solid_entry name' s') as [[k' vol']|]; simpl in Hloop;
        [|by apply (IH out)].
      destruct (py_float vol') as [v'|e]; simpl in Hloop; [|done].
      by apply (IH _ Hloop).
Qed.

(** X14: the map [extract_volumes] returns has a key exactly for the
    keys that some visited solid is stored under, and each of its values
    is the float of the volume of such a solid; nothing else gets in. *)
Theorem extract_volumes_sound_complete
    (report : json) (m : gmap SolidKey float) (k : SolidKey) :
  extract_volumes report = Ok m ->
  (k ∈ dom m <-> exists e, e ∈ traversal report /\ stored_under k e = true) /\
  (forall v, m !! k = Some v ->
     exists name s vol, (name, s) ∈ traversal report /\
       solid_entry name s = Some (k, vol) /\ py_float vol = Ok v).
Proof.
  intros Hm. destruct report as [| | | | | |rd]; try done.
  rewrite extract_volumes_entries in Hm.
  assert (forall v, m !! k = Some v ->
            exists name s vol, (name, s) ∈ traversal (JDict rd) /\
              solid_entry name s = Some (k, vol) /\ py_float vol = Ok v)
    as Hsound.
  { intros v Hv.
    destruct (entries_loop_lookup _ _ _ _ _ Hm Hv) as [Hempty|?]; [|done].
    by rewrite lookup_empty in Hempty. }
  split; [|done]. rewrite elem_of_dom. split.
  - intros [v (name & s & vol & Hin & Hentry & _)%Hsound].
    exists (name, s). split; [done|].
    unfold stored_under. simpl. rewrite Hentry. by apply bool_decide_eq_true_2.
  - intros ([name s] & Hin & Hst). unfold stored_under in Hst. simpl in Hst.
    destruct (solid_entry name s) as [[k' vol]|] eqn:Hentry; [|done].
    apply bool_decide_eq_true_1 in Hst as ->.
    by apply (entries_loop_stores _ _ _ _ _ _ _ Hm Hin Hentry).
Qed.

Lemma extract_volumes_sound_complete_witness :
  let report :=
    report_of "Body" [solid (JStr "Pad") (JInt 0) (JInt 100);
                      solid JNull (JStr "1") (JInt 7)] in
  extract_volumes report = Ok {[ ("Pad", 0) := hundred ]} /\
  (("Pad", 0) ∈ dom ({[ ("Pad", 0) := hundred ]} : gmap SolidKey float) <->
   exists e, e ∈ traversal report /\ stored_under ("Pad", 0) e = true) /\
  (("Body", 1) ∈ dom ({[ ("Pad", 0) := hundred ]} : gmap SolidKey float) <->
   exists e, e ∈ traversal report /\ stored_under ("Body", 1) e = true).
Proof.
  intros report. split; [reflexivity|]. split.
  - apply (extract_volumes_sound_complete report _ ("Pad", 0) eq_refl).
  - apply (extract_volumes_sound_complete report _ ("Body", 1) eq_refl).
Defined.

(** ** extract_volumes: the exceptions *)

Lemma entries_loop_raises (entries : list (string * json))
    (out : gmap SolidKey float) (e : exn) :
  entries_loop entries out = Raise e ->
  e = OverflowError /\
  exists name s k n, (name, s) ∈ entries /\
    solid_entry name s = Some (k, JInt n) /\
    2 ^ 1024 - 2 ^ 970 <= Z.abs n.
Proof.
  revert out.
  induction entries as [|[name s] entries IH]; intros out; simpl; [done|].
  rewrite solid_step_entry. intros Hloop.
  assert (forall out', entries_loop entries out' = Raise e ->
            e = OverflowError /\
            exists name' s' k n, (name', s') ∈ (name, s) :: entries /\
              solid_entry name' s' = Some (k, JInt n) /\
              2 ^ 1024 - 2 ^ 970 <= Z.abs n) as Hrest.
  { intros out' (-> & name' & s' & k & n & Hin & ? & ?)%IH.
    split; [done|]. exists name', s', k, n. split; [by right|done]. }
  destruct (solid_entry name s) as [[k vol]|] eqn:Hentry; simpl in Hloop;
    [|by apply (Hrest out)].
  destruct (py_float vol) as [v|e'] eqn:Hvol; simpl in Hloop;
    [by apply (Hrest _ Hloop)|].
  injection Hloop as ->.
  destruct (py_float_number_raises vol e (solid_entry_number _ _ _ _ Hentry)
              Hvol) as (-> & n & -> & Hn).
  split; [done|]. exists name, s, k, n. split; [by left|done].
Qed.

(** X15: on a report that is a dict, [extract_volumes] raises exactly
    when some visited solid that it would store has an integer volume
    that [float] cannot convert; the exception is then [OverflowError],
    and the integer is at least [2 ^ 1024 - 2 ^ 970] in absolute value. *)
Theorem extract_volumes_overflow (rd : list (string * json)) :
  (volumes_convertible (JDict rd) = false
   <-> extract_volumes (JDict rd) = Raise OverflowError) /\
  (forall e, extract_volumes (JDict rd) = Raise e ->
     e = OverflowError /\
     exists name s k n, (name, s) ∈ traversal (JDict rd) /\
       solid_entry name s = Some (k, JInt n) /\
       2 ^ 1024 - 2 ^ 970 <= Z.abs n).
Proof.
  assert (forall e, extract_volumes (JDict rd) = Raise e ->
     e = OverflowError /\
     exists name s k n, (name, s) ∈ traversal (JDict rd) /\
       solid_entry name s = Some (k, JInt n) /\
       2 ^ 1024 - 2 ^ 970 <= Z.abs n) as Hraise.
  { intros e. rewrite extract_volumes_entries. apply entries_loop_raises. }
  split; [|done]. split.
  - intros Hconv.
    destruct (extract_volumes (JDict rd)) as [m|e] eqn:Hm.
    + exfalso. rewrite extract_volumes_entries in Hm.
      unfold volumes_convertible in Hconv.
      revert Hm Hconv. generalize (traversal (JDict rd)).
      generalize (∅ : gmap SolidKey float).
      intros out entries. revert out.
      induction entries as [|[name s] entries IH]; intros out; simpl; [done|].
      rewrite solid_step_entry.
      destruct (solid_entry name s) as [[k vol]|]; simpl; [|apply IH].
      destruct (py_float vol) as [v|e]; simpl; [apply IH|done].
    + by destruct (Hraise e eq_refl) as [-> _].
  - intros Hm. destruct (volumes_convertible (JDict rd)) eqn:Hconv; [|done].
    destruct (entries_loop_convertible (traversal (JDict rd)) ∅ Hconv)
      as [m Hok].
    rewrite extract_volumes_entries in Hm. congruence.
Qed.

(** ** run_freecad_script *)

(** X16: [run_freecad_script] returns a report exactly when the child
    process exits with status 0, the output file is read and is not
    empty, and [json.loads] accepts its text; a status other than 0, an
    empty output file and a [JSONDecodeError] all reach the caller as
    [RuntimeError], and an exception of [subprocess.run], such as a
    timeout, as itself. *)
Theorem run_freecad_script_returns_iff (w : ToolEnv) :
  (forall j, run_freecad_script w = Ok j <->
     subprocess_run w = Ok 0 /\
     exists out, output_file w = Ok out /\ out <> "" /\
                 json_loads w out = Ok j) /\
  (forall rc, subprocess_run w = Ok rc -> rc <> 0 ->
     run_freecad_script w = Raise RuntimeError) /\
  (subprocess_run w = Ok 0 -> output_file w = Ok "" ->
   run_freecad_script w = Raise RuntimeError) /\
  (forall out, subprocess_run w = Ok 0 -> output_file w = Ok out ->
     json_loads w out = Raise JSONDecodeError ->
     run_freecad_script w = Raise RuntimeError) /\
  (forall e, subprocess_run w = Raise e -> run_freecad_script w = Raise e).
Proof.
  unfold run_freecad_script. split; [|split; [|split; [|split]]].
  - intros j. destruct (subprocess_run w) as [rc|e]; simpl.
    + destruct (Z.eqb_spec rc 0) as [->|Hrc]; simpl.
      * destruct (output_file w) as [out|e]; simpl.
        -- destruct (String.eqb_spec out "") as [->|Hout].
           ++ split; [done|]. by intros (_ & out & [= <-] & ? & _).
           ++ split.
              ** intros Hj. split; [done|]. exists out.
                 split; [done|]. split; [done|].
                 by destruct (json_loads w out) as [j'|[]].
              ** intros (_ & out' & [= <-] & _ & ->). done.
        -- split; [done|]. by intros (_ & out & ? & _).
      * split; [done|]. intros ([= ?] & _). done.
    + split; [done|]. by intros (? & _).
  - intros rc -> Hrc. simpl. by destruct (Z.eqb_spec rc 0).
  - by intros -> ->.
  - intros out -> ->. simpl. destruct (String.eqb out ""); [done|].
    by intros ->.
  - by intros e ->.
Qed.

(** ** main: how a run ends *)

Lemma forallb_ok_existsb (diffs : list SolidDiff) :
  forallb ok diffs = negb (existsb (fun d => negb (ok d)) diffs).
Proof.
  induction diffs as [|d diffs IH]; [done|]. simpl. rewrite IH.
  by destruct (ok d).
Qed.

Section MainEndings.

Context (verbose : bool) (cfg : CompareConfig).

(** A file is counted as passed, as a mismatch or as an error, and once
    more, as an error, when printing its report raises. *)
Lemma file_outcome_count (f : FileEnv) :
  (if file_passes cfg f then 1 else 0)
  + (if has_failing_outcome cfg f || baseline_missing f then 1 else 0)
  + (if ends_in_error verbose cfg f then 1 else 0)
  = 1 + (if report_raises verbose cfg f then 1 else 0).
Proof.
  unfold ends_in_error, report_raises, has_failing_outcome, baseline_missing,
    file_passes.
  destruct (baseline_exists f); simpl; [|done].
  destruct (file_diffs cfg f) as [diffs|e]; simpl; [|done].
  rewrite orb_false_r, forallb_ok_existsb.
  destruct (existsb _ diffs); simpl;
    destruct verbose, (raises (stdout_report f)); done.
Qed.

Lemma file_step_ok_files (st : RunState) (f : FileEnv) :
  ok_files (file_step verbose cfg st f)
  = ok_files st + (if file_passes cfg f then 1 else 0).
Proof.
  unfold file_step, try_block, file_passes.
  destruct (baseline_exists f); simpl; [|lia].
  destruct (file_diffs cfg f) as [diffs|e]; simpl; [|lia].
  rewrite forallb_ok_existsb, existsb_bad.
  destruct (filter _ diffs); simpl.
  - destruct verbose; simpl; [|lia]. destruct (stdout_report f); simpl; lia.
  - destruct (stdout_report f); simpl; lia.
Qed.

Lemma count_files_cons (p : FileEnv -> bool) (f : FileEnv)
    (files : list FileEnv) :
  count_files p (f :: files)
  = (if p f then 1 else 0) + count_files p files.
Proof.
  unfold count_files. simpl. destruct (p f); simpl length; lia.
Qed.

Lemma loop_counters (files : list FileEnv) (st : RunState) :
  let st' := foldl (file_step verbose cfg) st files in
  total_files st' = total_files st + Z.of_nat (length files) /\
  error_files st'
  = error_files st + count_files (ends_in_error verbose cfg) files /\
  mismatch_files st'
  = mismatch_files st
    + count_files (fun f => has_failing_outcome cfg f || baseline_missing f)
        files /\
  ok_files st' = ok_files st + count_files (file_passes cfg) files.
Proof.
  revert st. induction files as [|f files IH]; intros st.
  - unfold count_files. simpl. lia.
  - simpl foldl.
    destruct (IH (file_step verbose cfg st f)) as (Ht & He & Hm & Ho).
    simpl. rewrite Ht, He, Hm, Ho, !count_files_cons.
    rewrite file_step_total_files, file_step_error_files,
      file_step_mismatch_files, file_step_ok_files.
    simpl length. lia.
Qed.

Lemma count_files_sum (files : list FileEnv) :
  count_files (file_passes cfg) files
  + count_files (fun f => has_failing_outcome cfg f || baseline_missing f)
      files
  + count_files (ends_in_error verbose cfg) files
  = Z.of_nat (length files)
    + count_files (report_raises verbose cfg) files.
Proof.
  induction files as [|f files IH]; [done|].
  rewrite !count_files_cons. simpl length.
  pose proof (file_outcome_count f). lia.
Qed.

Lemma count_files_none (p : FileEnv -> bool) (files : list FileEnv) :
  (forall f, f ∈ files -> p f = false) -> count_files p files = 0.
Proof.
  induction files as [|f files IH]; intros Hnone; [done|].
  rewrite count_files_cons, (Hnone f) by (by left).
  rewrite IH; [done|]. intros f' Hf'. apply Hnone. by right.
Qed.

Lemma tool_runs_step (st : RunState) (f : FileEnv) :
  tool_runs (trace (file_step verbose cfg st f))
  = tool_runs (trace st)
    ++ (if baseline_exists f then [file_name f] else []).
Proof.
  rewrite file_step_trace_shift. unfold tool_runs. rewrite omap_app. f_equal.
  unfold file_step, try_block.
  destruct (baseline_exists f); simpl; [|done].
  destruct (file_diffs cfg f) as [diffs|e]; simpl; [|done].
  destruct (filter _ diffs); simpl.
  - destruct verbose; simpl; [|done]. by destruct (stdout_report f).
  - by destruct (stdout_report f).
Qed.

Lemma loop_tool_runs (files : list FileEnv) (st : RunState) :
  tool_runs (trace (foldl (file_step verbose cfg) st files))
  = tool_runs (trace st)
    ++ (file_name <$> List.filter baseline_exists files).
Proof.
  revert st. induction files as [|f files IH]; intros st.
  - simpl. by rewrite app_nil_r.
  - simpl foldl. rewrite IH, tool_runs_step, <- app_assoc. f_equal.
    simpl. by destruct (baseline_exists f).
Qed.

(** A file leaves the errors and the mismatches as they are exactly
    when its baseline exists, nothing raised and every outcome
    passed. *)
Lemma file_clean_iff (f : FileEnv) :
  ends_in_error verbose cfg f = false /\
  has_failing_outcome cfg f = false /\ baseline_missing f = false
  <-> baseline_exists f = true /\
      (exists diffs, file_diffs cfg f = Ok diffs /\
                     forall d, d ∈ diffs -> ok d = true) /\
      (verbose = true -> raises (stdout_report f) = false).
Proof.
  unfold ends_in_error, report_raises, has_failing_outcome, baseline_missing.
  destruct (baseline_exists f); simpl;
    [|split; [by intros (_ & _ & ?)|by intros [? _]]].
  destruct (file_diffs cfg f) as [diffs|e]; simpl.
  - split.
    + intros (Herr & Hex & _). rewrite Hex in Herr. simpl in Herr.
      split; [done|]. split.
      * exists diffs. split; [done|]. intros d Hd.
        destruct (ok d) eqn:Hok; [done|].
        assert (existsb (fun d => negb (ok d)) diffs = true);
          [|congruence].
        apply existsb_exists. exists d.
        split; [by apply list_elem_of_In|by rewrite Hok].
      * intros ->. done.
    + intros (_ & (diffs' & [= <-] & Hok) & Hprint).
      assert (existsb (fun d => negb (ok d)) diffs = false) as ->.
      { apply not_true_is_false.
        intros (d & Hd & Hbad)%existsb_exists.
        rewrite (Hok d) in Hbad; [done|by apply list_elem_of_In]. }
      simpl. split; [|done].
      destruct verbose; [|done]. by rewrite Hprint.
  - split; [by intros (? & _)|].
    by intros (_ & (diffs & ? & _) & _).
Qed.

End MainEndings.

(** X17: the counters of the summary.  After the loop the number of
    files checked is the number of files found; the errors count the
    files whose [try] block raised, the mismatches the files with a
    failing outcome or no baseline, the OK count the files whose every
    outcome passed.  A file is counted once, and once more, among the
    errors, when printing its report raises: only when no report fails
    to print do the three counts add up to the number of files. *)
Theorem files_loop_counters
    (verbose : bool) (cfg : CompareConfig) (files : list FileEnv) :
  let st := files_loop verbose cfg files in
  total_files st = Z.of_nat (length files) /\
  error_files st = count_files (ends_in_error verbose cfg) files /\
  mismatch_files st
  = count_files (fun f => has_failing_outcome cfg f || baseline_missing f)
      files /\
  ok_files st = count_files (file_passes cfg) files /\
  ok_files st + mismatch_files st + error_files st
  = total_files st + count_files (report_raises verbose cfg) files /\
  ((forall f, f ∈ files -> raises (stdout_report f) = false) ->
   total_files st = ok_files st + mismatch_files st + error_files st).
Proof.
  destruct (loop_counters verbose cfg files init_state) as (Ht & He & Hm & Ho).
  simpl in *. unfold files_loop. rewrite Ht, He, Hm, Ho.
  pose proof (count_files_sum verbose cfg files) as Hsum.
  split; [lia|]. split; [lia|]. split; [lia|]. split; [lia|].
  split; [lia|]. intros Hprint.
  rewrite (count_files_none (report_raises verbose cfg)) in Hsum; [lia|].
  intros f Hf. unfold report_raises. rewrite (Hprint f Hf).
  destruct (baseline_exists f); [|done].
  destruct (file_diffs cfg f); [|done]. by rewrite andb_false_r.
Qed.

(** Two runs in which a report cannot be printed: a file with a failing
    outcome, and a file that passes under [--verbose].  Each is counted
    where the comparison put it and again among the errors, and the run
    ends with status 3. *)
Lemma report_print_failure_counted_twice :
  let failing := {| file_name := "a.FCStd"; baseline_exists := true;
                    tool_run := Ok (body_report (JFloat (of_ratio 1005 10)));
                    baseline_load := Ok (body_report (JInt 100));
                    stdout_report := Raise UnicodeEncodeError |} in
  let passing := {| file_name := "b.FCStd"; baseline_exists := true;
                    tool_run := Ok (body_report (JInt 100));
                    baseline_load := Ok (body_report (JInt 100));
                    stdout_report := Raise UnicodeEncodeError |} in
  files_loop false default_cfg [failing]
  = {| total_files := 1; ok_files := 0; mismatch_files := 1;
       error_files := 1;
       trace := [EvToolRun "a.FCStd"; EvFail "a.FCStd" 1;
                 EvError "a.FCStd" UnicodeEncodeError] |} /\
  (main {| paths_exist := true; fcstd_files := [failing];
           verbose := false |} default_cfg).2 = Exit 3 /\
  files_loop true default_cfg [passing]
  = {| total_files := 1; ok_files := 1; mismatch_files := 0;
       error_files := 1;
       trace := [EvToolRun "b.FCStd"; EvOk "b.FCStd";
                 EvError "b.FCStd" UnicodeEncodeError] |} /\
  (main {| paths_exist := true; fcstd_files := [passing];
           verbose := true |} default_cfg).2 = Exit 3 /\
  (main {| paths_exist := true; fcstd_files := [passing];
           verbose := false |} default_cfg).2 = Exit 0.
Proof. repeat split; vm_compute; reflexivity. Qed.

(** X18: the external tool is run once for every file whose baseline
    exists, in the order of the files, and never for a file without
    baseline. *)
Theorem files_loop_tool_runs
    (verbose : bool) (cfg : CompareConfig) (files : list FileEnv) :
  tool_runs (trace (files_loop verbose cfg files))
  = file_name <$> List.filter baseline_exists files.
Proof. unfold files_loop. by rewrite loop_tool_runs. Qed.

(** X19: [main] ends in one of four ways: status 0, 2 or 3, or the
    [ValueError] of the summary line, which leaves [main] exactly when
    the files were found and processed and the match percentage is
    outside (0, 100].  When a path is missing or no file is found the
    status is 3 and nothing was run. *)
Theorem main_endings (env : Env) (cfg : CompareConfig) :
  ((main env cfg).2 = Exit 0 \/ (main env cfg).2 = Exit 2 \/
   (main env cfg).2 = Exit 3 \/ (main env cfg).2 = Uncaught ValueError) /\
  ((main env cfg).2 = Uncaught ValueError <->
   paths_exist env = true /\ fcstd_files env <> [] /\
   ltb zero (match_pct cfg) && leb (match_pct cfg) hundred = false) /\
  (paths_exist env = false \/ fcstd_files env = [] ->
   main env cfg = ([], Exit 3)).
Proof.
  unfold main, required_rel_tol, exit_code.
  destruct (paths_exist env); simpl.
  - destruct (fcstd_files env) as [|f files] eqn:Hfiles.
    + split; [auto|]. split; [|done]. split; [done|]. by intros (_ & ? & _).
    + destruct (ltb zero (match_pct cfg) && leb (match_pct cfg) hundred);
        simpl.
      * split; [|split; [|by intros [|]]].
        -- destruct (0 <? error_files _); [auto|].
           destruct (0 <? mismatch_files _); auto.
        -- split; [done|]. by intros (_ & _ & ?).
      * split; [auto|]. split; [done|]. by intros [|].
  - split; [auto|]. split; [|done]. split; [done|]. by intros (? & _).
Qed.

(** X20: [main] returns status 0 exactly when the paths exist, some
    file was found, the match percentage is in (0, 100] and, for every
    file, the baseline exists, neither the tool run, the baseline load,
    the extractions nor the comparison raised, every outcome passed
    and, under [--verbose], printing the line of the file did not
    raise. *)
Theorem main_exit_zero_iff (env : Env) (cfg : CompareConfig) :
  (main env cfg).2 = Exit 0 <->
  paths_exist env = true /\ fcstd_files env <> [] /\
  ltb zero (match_pct cfg) && leb (match_pct cfg) hundred = true /\
  forall f, f ∈ fcstd_files env ->
    baseline_exists f = true /\
    (exists diffs, file_diffs cfg f = Ok diffs /\
                   forall d, d ∈ diffs -> ok d = true) /\
    (verbose env = true -> raises (stdout_report f) = false).
Proof.
  assert (forall files,
            (existsb (ends_in_error (verbose env) cfg) files = false /\
             existsb (fun f => has_failing_outcome cfg f || baseline_missing f)
               files = false) <->
            forall f, f ∈ files ->
              baseline_exists f = true /\
              (exists diffs, file_diffs cfg f = Ok diffs /\
                             forall d, d ∈ diffs -> ok d = true) /\
              (verbose env = true -> raises (stdout_report f) = false))
    as Hall.
  { intros files. induction files as [|f files IH].
    - split; [|done]. intros _ f Hf. by apply elem_of_nil in Hf.
    - simpl. rewrite !orb_false_iff.
      pose proof (file_clean_iff (verbose env) cfg f) as Hf.
      split.
      + intros ((He & Hes) & (Hm & Hb) & Hms) f' Hf'.
        apply elem_of_cons in Hf' as [->|Hf'].
        * by apply Hf.
        * by apply (proj1 IH).
      + intros Hfs.
        destruct (proj2 Hf (Hfs f ltac:(by left))) as (He & Hm & Hb).
        destruct (proj2 IH) as [Hes Hms].
        { intros f' Hf'. apply Hfs. by right. }
        done. }
  unfold main, required_rel_tol, exit_code.
  destruct (paths_exist env); simpl; [|split; [done|by intros (? & _)]].
  destruct (fcstd_files env) as [|f files] eqn:Hfiles;
    [split; [done|by intros (_ & ? & _)]|].
  destruct (ltb zero (match_pct cfg) && leb (match_pct cfg) hundred);
    simpl; [|split; [done|by intros (_ & _ & ? & _)]].
  unfold files_loop.
  destruct (loop_error_files (verbose env) cfg (f :: files) init_state)
    as [_ ->]; [done|].
  destruct (loop_mismatch_files (verbose env) cfg (f :: files) init_state)
    as [_ ->]; [done|].
  rewrite <- Hall. simpl (0 <? _). rewrite !orb_false_l.
  destruct (existsb (ends_in_error (verbose env) cfg) (f :: files));
    [split; [done|by intros (_ & _ & _ & ? & _)]|].
  destruct (existsb _ (f :: files));
    [split; [done|by intros (_ & _ & _ & _ & ?)]|].
  done.
Qed.

(** X21: a file whose baseline exists and for which the external tool
    exits with a status other than 0 is reported with a [RuntimeError]
    and makes a run with a valid match percentage end with status 3,
    whatever the other files give. *)
Theorem tool_failure_exit_status
    (env : Env) (cfg : CompareConfig) (f : FileEnv) (w : ToolEnv) (rc : Z) :
  paths_exist env = true ->
  ltb zero (match_pct cfg) && leb (match_pct cfg) hundred = true ->
  f ∈ fcstd_files env -> baseline_exists f = true ->
  tool_run f = run_freecad_script w ->
  subprocess_run w = Ok rc -> rc <> 0 ->
  EvError (file_name f) RuntimeError ∈ (main env cfg).1 /\
  (main env cfg).2 = Exit 3.
Proof.
  intros Hpaths Hpct Hin Hb Htool Hrun Hrc.
  assert (file_diffs cfg f = Raise RuntimeError) as Hdiffs.
  { unfold file_diffs, run_freecad_script in *. rewrite Htool, Hrun. simpl.
    by destruct (Z.eqb_spec rc 0). }
  unfold main, required_rel_tol, exit_code. rewrite Hpaths, Hpct. simpl.
  destruct (fcstd_files env) as [|f0 files] eqn:Hfiles;
    [by apply elem_of_nil in Hin|].
  simpl. unfold files_loop. split.
  - by apply (loop_trace_file (verbose env) cfg (f0 :: files) init_state f
                Hin Hb).
  - destruct (loop_error_files (verbose env) cfg (f0 :: files) init_state)
      as [_ ->]; [done|].
    assert (existsb (ends_in_error (verbose env) cfg) (f0 :: files) = true)
      as ->; [|done].
    apply existsb_exists. exists f. split; [by apply list_elem_of_In|].
    unfold ends_in_error. by rewrite Hb, Hdiffs.
Qed.

Lemma tool_failure_exit_status_witness :
  let w := {| subprocess_run := Ok 1; output_file := Raise OSError;
              json_loads := fun _ => Raise JSONDecodeError |} in
  let f := {| file_name := "a.FCStd"; baseline_exists := true;
              tool_run := run_freecad_script w;
              baseline_load := Ok (body_report (JInt 100));
              stdout_report := Ok () |} in
  let env := {| paths_exist := true; fcstd_files := [f];
                verbose := false |} in
  paths_exist env = true /\
  ltb zero (match_pct default_cfg) && leb (match_pct default_cfg) hundred
  = true /\
  f ∈ fcstd_files env /\ baseline_exists f = true /\
  subprocess_run w = Ok 1 /\ 1 <> 0 /\
  EvError "a.FCStd" RuntimeError ∈ (main env default_cfg).1 /\
  (main env default_cfg).2 = Exit 3.
Proof.
  intros w f env.
  split; [reflexivity|]. split; [reflexivity|]. split; [by left|].
  split; [reflexivity|]. split; [reflexivity|]. split; [lia|].
  apply (tool_failure_exit_status env default_cfg f w 1);
    [reflexivity|reflexivity|by left|reflexivity|reflexivity|reflexivity|lia].
Defined.

(** ** compare_maps: the two criteria *)

Lemma within_max_iff (err a p : float) :
  is_nan a = false ->
  leb err (max a p) = leb err a || leb err p.
Proof.
  intros Ha. unfold max, gtb. fold (ltb a p).
  destruct (ltb a p) eqn:Hlt.
  - destruct (leb err a) eqn:Hea; [|done]. simpl.
    apply (leb_trans err a p); [done|]. by apply ltb_leb.
  - destruct (leb err p) eqn:Hep; [|by rewrite orb_false_r].
    rewrite orb_true_r.
    destruct (leb_not_nan _ _ Hep) as [_ Hp].
    apply (leb_trans err p a); [done|]. by apply leb_total.
Qed.

(** X22: with an absolute tolerance that is a number, a key that both
    maps hold passes exactly when the error is within the absolute
    tolerance or within the relative tolerance times the larger
    magnitude. *)
Theorem compare_maps_either_criterion
    (base_map new_map : gmap SolidKey float) (cfg : CompareConfig)
    (diffs : list SolidDiff) (k : SolidKey) (b n : float) :
  compare_maps base_map new_map cfg = Ok diffs ->
  is_nan (abs_tol_mm3 cfg) = false ->
  base_map !! k = Some b -> new_map !! k = Some n ->
  exists rt d, required_rel_tol (match_pct cfg) = Ok rt /\
    d ∈ diffs /\ (forall d', d' ∈ diffs -> key d' = k -> d' = d) /\
    key d = k /\
    ok d = leb (abs (sub n b)) (abs_tol_mm3 cfg)
           || leb (abs (sub n b)) (mul rt (max (abs b) (abs n))).
Proof.
  intros Hcmp Htol Hb Hn.
  destruct (compare_maps_both _ _ _ _ _ _ _ Hcmp Hb Hn)
    as (rt & d & Hrt & Hin & Huniq & Hkey & Hok & _).
  exists rt, d. split; [done|]. split; [done|]. split; [done|].
  split; [done|]. rewrite Hok. by apply within_max_iff.
Qed.

Lemma compare_maps_either_criterion_witness :
  let base_map := volumes [(("A", 0), hundred)] in
  let new_map := volumes [(("A", 0), of_ratio 1000001 10000)] in
  is_nan (abs_tol_mm3 default_cfg) = false /\
  base_map !! ("A", 0) = Some hundred /\
  new_map !! ("A", 0) = Some (of_ratio 1000001 10000) /\
  exists diffs d,
    compare_maps base_map new_map default_cfg = Ok diffs /\
    d ∈ diffs /\ key d = ("A", 0) /\ ok d = true /\
    leb (abs (sub (of_ratio 1000001 10000) hundred))
        (abs_tol_mm3 default_cfg) = false.
Proof.
  intros base_map new_map.
  split; [reflexivity|]. split; [reflexivity|]. split; [reflexivity|].
  destruct (compare_maps_either_criterion base_map new_map default_cfg _
              ("A", 0) hundred (of_ratio 1000001 10000)
              eq_refl eq_refl eq_refl eq_refl)
    as (rt & d & Hrt & Hin & _ & Hkey & Hok).
  vm_compute in Hrt. injection Hrt as <-.
  eexists. exists d. split; [reflexivity|]. split; [exact Hin|].
  split; [exact Hkey|]. split; [|reflexivity].
  rewrite Hok. reflexivity.
Defined.

(** ** A report against itself *)

Lemma compare_key_same_map (m : gmap SolidKey float) (cfg : CompareConfig)
    (rt : float) (k : SolidKey) (v : float) :
  leb zero (abs_tol_mm3 cfg) = true -> m !! k = Some v ->
  ok (compare_key m m cfg rt k) = isfinite v.
Proof.
  intros Htol Hv. unfold compare_key. rewrite Hv. cbn [ok].
  destruct (isfinite v) eqn:Hfin.
  - rewrite (sub_diag_finite v Hfin). by apply leb_zero_max.
  - assert (sub v v = nan) as -> by (by destruct v as [|[]| |]).
    done.
Qed.

(** X23: a file whose tool report and baseline report hold the same
    map of volumes passes exactly when every volume is finite, for a
    match percentage in (0, 100] and an absolute tolerance that is not
    negative: a report compared with itself passes, unless it holds an
    infinite volume or one that is not a number. *)
Theorem self_comparison_passes_iff
    (cfg : CompareConfig) (f : FileEnv) (new_report base_report : json)
    (m : gmap SolidKey float) :
  ltb zero (match_pct cfg) && leb (match_pct cfg) hundred = true ->
  leb zero (abs_tol_mm3 cfg) = true ->
  baseline_exists f = true ->
  tool_run f = Ok new_report -> baseline_load f = Ok base_report ->
  extract_volumes new_report = Ok m -> extract_volumes base_report = Ok m ->
  (file_passes cfg f = true <-> map_Forall (fun _ v => isfinite v = true) m) /\
  (file_passes cfg f = false -> has_failing_outcome cfg f = true).
Proof.
  intros [H0 H100]%andb_true_iff Htol Hb Hnew Hbase Hm1 Hm2.
  assert (file_diffs cfg f
          = Ok (compare_key m m cfg (sub one (div (match_pct cfg) hundred))
                  <$> sorted (elements (dom m ∪ dom m)))) as Hdiffs.
  { unfold file_diffs. rewrite Hnew, Hbase. simpl. rewrite Hm1, Hm2. simpl.
    by apply compare_maps_in_range. }
  unfold file_passes, has_failing_outcome. rewrite Hb, Hdiffs. simpl.
  set (rt := sub one (div (match_pct cfg) hundred)).
  assert (forallb ok (compare_key m m cfg rt
                        <$> sorted (elements (dom m ∪ dom m))) = true
          <-> map_Forall (fun _ v => isfinite v = true) m) as Hiff.
  { rewrite forallb_forall. split.
    - intros Hall k v Hv.
      rewrite <- (compare_key_same_map m cfg rt k v Htol Hv).
      apply Hall. apply list_elem_of_In, list_elem_of_fmap. exists k.
      split; [done|]. apply elem_of_sorted, elem_of_union_l, elem_of_dom.
      eauto.
    - intros Hfin d (k & -> & Hk)%list_elem_of_In%list_elem_of_fmap.
      apply elem_of_sorted in Hk. rewrite union_idemp_L in Hk.
      apply elem_of_dom in Hk as [v Hv].
      rewrite (compare_key_same_map m cfg rt k v Htol Hv). by apply (Hfin k). }
  split; [done|].
  rewrite forallb_ok_existsb. by intros ->%negb_false_iff.
Qed.

Lemma self_comparison_passes_iff_witness :
  let f := one_file "a.FCStd" (body_report (JInt 100))
                              (body_report (JFloat hundred)) in
  let m : gmap SolidKey float := {[ ("Body", 0) := hundred ]} in
  ltb zero (match_pct default_cfg) && leb (match_pct default_cfg) hundred
  = true /\
  leb zero (abs_tol_mm3 default_cfg) = true /\
  baseline_exists f = true /\
  extract_volumes (body_report (JInt 100)) = Ok m /\
  extract_volumes (body_report (JFloat hundred)) = Ok m /\
  (file_passes default_cfg f = true
   <-> map_Forall (fun _ v => isfinite v = true) m).
Proof.
  intros f m. repeat (split; [reflexivity|]).
  apply (self_comparison_passes_iff default_cfg f
           (body_report (JInt 100)) (body_report (JFloat hundred)) m);
    reflexivity.
Defined.

(** ** main: one run after another *)

Lemma file_step_shift (verbose : bool) (cfg : CompareConfig)
    (st : RunState) (f : FileEnv) :
  let st' := file_step verbose cfg st f in
  let r := file_step verbose cfg init_state f in
  trace st' = trace st ++ trace r /\
  total_files st' = total_files st + total_files r /\
  ok_files st' = ok_files st + ok_files r /\
  mismatch_files st' = mismatch_files st + mismatch_files r /\
  error_files st' = error_files st + error_files r.
Proof.
  simpl. split; [apply file_step_trace_shift|].
  rewrite !file_step_total_files, !file_step_ok_files,
    !file_step_mismatch_files, !file_step_error_files.
  simpl. lia.
Qed.

Lemma loop_state_app (verbose : bool) (cfg : CompareConfig)
    (files : list FileEnv) (st : RunState) :
  let st' := foldl (file_step verbose cfg) st files in
  let r := files_loop verbose cfg files in
  trace st' = trace st ++ trace r /\
  total_files st' = total_files st + total_files r /\
  ok_files st' = ok_files st + ok_files r /\
  mismatch_files st' = mismatch_files st + mismatch_files r /\
  error_files st' = error_files st + error_files r.
Proof.
  simpl. unfold files_loop. revert st.
  induction files as [|f files IH] using rev_ind; intros st.
  - simpl. rewrite app_nil_r. split; [done|lia].
  - rewrite !foldl_app. simpl.
    destruct (IH st) as (Htr & Ht & Ho & Hm & He).
    destruct (file_step_shift verbose cfg
                (foldl (file_step verbose cfg) st files) f)
      as (Htr1 & Ht1 & Ho1 & Hm1 & He1).
    destruct (file_step_shift verbose cfg
                (foldl (file_step verbose cfg) init_state files) f)
      as (Htr0 & Ht0 & Ho0 & Hm0 & He0).
    simpl in *.
    rewrite Htr1, Ht1, Ho1, Hm1, He1, Htr0, Ht0, Ho0, Hm0, He0.
    rewrite Htr, Ht, Ho, Hm, He. rewrite <- !app_assoc.
    split; [done|lia].
Qed.

(** X24: processing one list of files after another gives the events of
    the first followed by the events of the second, and counters that
    are the sums: what a file contributes does not depend on the files
    before it. *)
Theorem files_loop_app
    (verbose : bool) (cfg : CompareConfig) (files1 files2 : list FileEnv) :
  let st1 := files_loop verbose cfg files1 in
  let st2 := files_loop verbose cfg files2 in
  let st := files_loop verbose cfg (files1 ++ files2) in
  trace st = trace st1 ++ trace st2 /\
  total_files st = total_files st1 + total_files st2 /\
  ok_files st = ok_files st1 + ok_files st2 /\
  mismatch_files st = mismatch_files st1 + mismatch_files st2 /\
  error_files st = error_files st1 + error_files st2.
Proof.
  unfold files_loop. rewrite foldl_app.
  apply (loop_state_app verbose cfg files2
           (foldl (file_step verbose cfg) init_state files1)).
Qed.
